(** * The DSP thread queue of the nova server (dsp_thread_queue.hpp)

    A shallow embedding of [dsp_thread_queue_item], [dsp_thread_queue] and
    [dsp_queue_interpreter], followed by the properties of the queue
    lifecycle (construction, install, release), of a node's [run] and of a
    whole tick executed by a master and any number of helper threads.

    Modelling conventions.
    - Heap-allocated items are addressed by a [ptr]; the heap is a finite
      map from addresses to items.  A null pointer is [None].
    - [uint_fast16_t] and [uint_fast8_t] are integers of a width fixed by the
      platform ([Platform]); values are kept in [Z] and every conversion and
      wrap-around is written out.
    - [assert] aborts the program: a computation ends in [AssertionFailed].
    - Calling the job of an item is recorded in the list [calls] of the
      world, as the pair of the item and the thread index it is called with.
    - Atomic objects are cells of the world; every atomic operation is one
      indivisible function on the world (sequentially consistent
      interleaving; the memory orders of the source are not modelled).
    - [boost::lockfree::fifo] is a first-in first-out list that grows as
      needed (its constructor argument only preallocates nodes).

    The methods are given twice, from the same atomic operations: as
    functions in a state and error monad (loops that need not end take
    fuel), for what one call does; and as the places of a worker thread
    with one shared access per step, for the interleavings of a tick.  A
    worker alone steps through its places as the functions compute. *)

From Stdlib Require Import ZArith Lia.
From stdpp Require Import base option list gmap.

Local Open Scope Z_scope.

(** ** Platform integer types *)

(** Widths of [boost::uint_fast16_t] and [boost::uint_fast8_t]; the C
    standard only promises at least 16 and at least 8 bits. *)
Class Platform := {
  fast16_bits : Z;
  fast8_bits : Z;
  fast16_bits_min : 16 <= fast16_bits;
  fast8_bits_min : 8 <= fast8_bits
}.

(** The platform of the specification: exactly 16 and 8 bits. *)
#[local] Instance narrow_platform : Platform.
Proof. refine {| fast16_bits := 16; fast8_bits := 8 |}; lia. Defined.

(** glibc on x86-64: [uint_fast16_t] is [unsigned long]. *)
#[local] Instance lp64_platform : Platform.
Proof. refine {| fast16_bits := 64; fast8_bits := 8 |}; lia. Defined.

(** Address of a heap-allocated [dsp_thread_queue_item]. *)
Definition ptr := positive.

Section Model.

Context `{Platform}.
Context {runnable : Type}.

(** Conversion to [activation_limit_t] ([uint_fast16_t]). *)
Definition activation_limit_t (z : Z) : Z := z mod 2 ^ fast16_bits.

(** Conversion to [node_count_t] ([uint_fast16_t]). *)
Definition node_count_t (z : Z) : Z := z mod 2 ^ fast16_bits.

(** Conversion to [thread_count_t] ([uint_fast8_t]). *)
Definition thread_count_t (z : Z) : Z := z mod 2 ^ fast8_bits.

(** [std::numeric_limits<thread_count_t>::max()], the specification's
    WORKER_MAX. *)
Definition thread_count_max : Z := 2 ^ fast8_bits - 1.

(** ** Data *)

Record dsp_thread_queue_item := Item {
  activation_count : Z;       (* current activation count (atomic) *)
  job : runnable;
  successors : list ptr;      (* list of successing nodes *)
  activation_limit : Z        (* number of predecessors *)
}.

Record dsp_thread_queue := Queue {
  total_node_count : Z;                  (* total number of nodes *)
  initially_runnable_items : list ptr;   (* nodes without predecessor *)
  queue_items : list ptr                 (* all nodes *)
}.

Record dsp_queue_interpreter := Interpreter {
  queue : option dsp_thread_queue;
  thread_count : Z;          (* number of dsp threads to be used *)
  used_helper_threads : Z;   (* number of helper threads actually used *)
  fifo : list ptr;
  node_count : Z             (* nodes still to be processed in this tick *)
}.

(** Everything the threads share: the items, the interpreter and the
    record of the jobs called so far (oldest first). *)
Record world := World {
  heap : gmap ptr dsp_thread_queue_item;
  interpreter : dsp_queue_interpreter;
  calls : list (ptr * Z)
}.

Definition set_activation_count (c : Z) (it : dsp_thread_queue_item) :=
  Item c (job it) (successors it) (activation_limit it).

Definition set_heap (h : gmap ptr dsp_thread_queue_item) (w : world) :=
  World h (interpreter w) (calls w).

Definition set_interpreter (i : dsp_queue_interpreter) (w : world) :=
  World (heap w) i (calls w).

Definition set_queue (q : option dsp_thread_queue) (i : dsp_queue_interpreter) :=
  Interpreter q (thread_count i) (used_helper_threads i) (fifo i) (node_count i).

Definition set_thread_count_field (n : Z) (i : dsp_queue_interpreter) :=
  Interpreter (queue i) n (used_helper_threads i) (fifo i) (node_count i).

Definition set_used_helper_threads (n : Z) (i : dsp_queue_interpreter) :=
  Interpreter (queue i) (thread_count i) n (fifo i) (node_count i).

Definition set_fifo (f : list ptr) (i : dsp_queue_interpreter) :=
  Interpreter (queue i) (thread_count i) (used_helper_threads i) f (node_count i).

Definition set_node_count (n : Z) (i : dsp_queue_interpreter) :=
  Interpreter (queue i) (thread_count i) (used_helper_threads i) (fifo i) n.

(** ** Computations *)

Inductive outcome (A : Type) : Type :=
| Returns (a : A)
| AssertionFailed     (* an [assert] of the source failed *)
| Undefined           (* an address without item was dereferenced *)
| OutOfFuel.          (* a loop did not end within the given fuel *)

Arguments Returns {A} a.
Arguments AssertionFailed {A}.
Arguments Undefined {A}.
Arguments OutOfFuel {A}.

(** A method of the source: a function of the world that returns a value
    and the world it leaves, or does not return. *)
Definition M (A : Type) : Type := world -> outcome (A * world).

Definition ret {A} (a : A) : M A := fun w => Returns (a, w).

Definition bind {A B} (m : M A) (k : A -> M B) : M B := fun w =>
  match m w with
  | Returns (a, w') => k a w'
  | AssertionFailed => AssertionFailed
  | Undefined => Undefined
  | OutOfFuel => OutOfFuel
  end.

Definition assert (b : bool) : M unit := fun w =>
  if b then Returns (tt, w) else AssertionFailed.

End Model.

Arguments dsp_thread_queue_item : clear implicits.
Arguments world : clear implicits.
Arguments M : clear implicits.
Arguments Returns {A} a.
Arguments AssertionFailed {A}.
Arguments Undefined {A}.
Arguments OutOfFuel {A}.

Notation "x <- m ;; k" := (bind m (fun x => k))
  (at level 100, m at next level, right associativity).
Notation "m ;;; k" := (bind m (fun _ => k))
  (at level 100, right associativity).

Section Methods.

Context `{Platform}.
Context {runnable : Type}.

Local Abbreviation item := (dsp_thread_queue_item runnable).
Local Abbreviation M := (M runnable).

Definition out_of_fuel {A} : M A := fun _ => OutOfFuel.

(** [for (i = 0; i != l.size(); ++i) body(l[i])] *)
Fixpoint foreach {A} (l : list A) (body : A -> M unit) : M unit :=
  match l with
  | [] => ret tt
  | x :: l => body x ;;; foreach l body
  end.

(** ** Atomic operations *)

(** Dereference of an item pointer. *)
Definition deref (this : ptr) : M item := fun w =>
  match heap w !! this with
  | Some it => Returns (it, w)
  | None => Undefined
  end.

(** [activation_count.load()] *)
Definition load_activation_count (this : ptr) : M Z :=
  it <- deref this ;; ret (activation_count it).

(** [activation_count.store(c)] *)
Definition store_activation_count (this : ptr) (c : Z) : M unit := fun w =>
  match heap w !! this with
  | Some it => Returns (tt, set_heap (<[this := set_activation_count c it]> (heap w)) w)
  | None => Undefined
  end.

(** [activation_count--]: one atomic fetch-and-subtract of 1, which returns
    the value before the subtraction. *)
Definition fetch_sub_activation_count (this : ptr) : M Z := fun w =>
  match heap w !! this with
  | Some it =>
      Returns (activation_count it,
               set_heap (<[this := set_activation_count
                                     (activation_limit_t (activation_count it - 1)) it]>
                           (heap w)) w)
  | None => Undefined
  end.

(** [fifo.enqueue(item)] *)
Definition fifo_enqueue (p : ptr) : M unit := fun w =>
  Returns (tt, set_interpreter (set_fifo (fifo (interpreter w) ++ [p]) (interpreter w)) w).

(** [fifo.dequeue(&item)]: the dequeued pointer, [None] when it fails. *)
Definition fifo_dequeue : M (option ptr) := fun w =>
  match fifo (interpreter w) with
  | [] => Returns (None, w)
  | p :: rest => Returns (Some p, set_interpreter (set_fifo rest (interpreter w)) w)
  end.

(** [fifo.empty()] *)
Definition fifo_is_empty : M bool := fun w =>
  Returns (match fifo (interpreter w) with [] => true | _ => false end, w).

(** [node_count.load()] *)
Definition load_node_count : M Z := fun w =>
  Returns (node_count (interpreter w), w).

(** [node_count.store(n)] *)
Definition store_node_count (n : Z) : M unit := fun w =>
  Returns (tt, set_interpreter (set_node_count n (interpreter w)) w).

(** [node_count.fetch_sub(n)]: returns the value before the subtraction. *)
Definition fetch_sub_node_count (n : Z) : M Z := fun w =>
  Returns (node_count (interpreter w),
           set_interpreter
             (set_node_count (node_count_t (node_count (interpreter w) - n))
                (interpreter w)) w).

(** [job(thread_index)] of the item [this]. *)
Definition call_job (this : ptr) (thread_index : Z) : M unit := fun w =>
  Returns (tt, World (heap w) (interpreter w) (calls w ++ [(this, thread_index)])).

(** ** dsp_thread_queue_item *)

(** The constructor.  [activation_limit] arrives as an
    [activation_limit_t]. *)
Definition new_dsp_thread_queue_item
    (job : runnable) (successors : list ptr) (activation_limit : Z) : item :=
  {| activation_count := 0;
     job := job;
     successors := successors;
     activation_limit := activation_limit |}.

(** [dsp_queue_interpreter::mark_as_runnable] *)
Definition mark_as_runnable (p : ptr) : M unit := fifo_enqueue p.

(** Called from the run method or once, when the dsp queue is
    initialized. *)
Definition reset_activation_count (this : ptr) : M unit :=
  count <- load_activation_count this ;;
  assert (count =? 0) ;;;
  it <- deref this ;;
  store_activation_count this (activation_limit it).

(** [dec_ref_count(interpreter, ptr)]: returns the new value of [ptr]. *)
Definition dec_ref_count_ptr (this : ptr) (next : option ptr) : M (option ptr) :=
  current <- fetch_sub_activation_count this ;;
  assert (0 <? current) ;;;
  if current =? 1 then
    match next with
    | None => ret (Some this)
    | Some _ => mark_as_runnable this ;;; ret next
    end
  else ret next.

(** [dec_ref_count(interpreter)] *)
Definition dec_ref_count (this : ptr) : M unit :=
  current <- fetch_sub_activation_count this ;;
  assert (0 <? current) ;;;
  if current =? 1 then mark_as_runnable this else ret tt.

(** The second loop of [update_dependencies], over the successors from
    index [i] on. *)
Definition update_remaining (rest : list ptr) : M unit :=
  foreach rest dec_ref_count.

(** The first loop of [update_dependencies], over the successors from
    index [i] on, followed by the second loop. *)
Fixpoint update_from (rest : list ptr) : M (option ptr) :=
  match rest with
  | [] => ret None
  | s :: rest =>
      next <- dec_ref_count_ptr s None ;;
      match next with
      | Some _ => update_remaining rest ;;; ret next
      | None => update_from rest
      end
  end.

(** Update all successors and possibly mark them as runnable. *)
Definition update_dependencies (this : ptr) : M (option ptr) :=
  it <- deref this ;;
  update_from (successors it).

(** Conversion to [boost::uint8_t], the type of [run]'s thread index. *)
Definition uint8_t (z : Z) : Z := z mod 2 ^ 8.

Definition run (this : ptr) (thread_index : Z) : M (option ptr) :=
  count <- load_activation_count this ;;
  assert (count =? 0) ;;;
  call_job this thread_index ;;;
  next <- update_dependencies this ;;
  reset_activation_count this ;;;
  ret next.

(** ** dsp_thread_queue *)

Definition new_dsp_thread_queue : dsp_thread_queue := Queue 0 [] [].

Definition add_initially_runnable (p : ptr) (q : dsp_thread_queue) : dsp_thread_queue :=
  Queue (total_node_count q) (initially_runnable_items q ++ [p]) (queue_items q).

(** Takes ownership; [None] when the assertion fails. *)
Definition add_queue_item (p : ptr) (q : dsp_thread_queue) : option dsp_thread_queue :=
  let q' := Queue (node_count_t (total_node_count q + 1))
                  (initially_runnable_items q) (queue_items q ++ [p]) in
  if total_node_count q' =? Z.of_nat (length (queue_items q')) then Some q' else None.

(** Under its assertion the loop visits [queue_items] from first to last. *)
Definition reset_activation_counts (q : dsp_thread_queue) : M unit :=
  assert (total_node_count q =? Z.of_nat (length (queue_items q))) ;;;
  foreach (queue_items q) reset_activation_count.

(** ** dsp_queue_interpreter *)

Inductive run_state := no_remaining_items | fifo_empty | remaining_items.

Definition get_interpreter : M dsp_queue_interpreter := fun w =>
  Returns (interpreter w, w).

Definition put_interpreter (i : dsp_queue_interpreter) : M unit := fun w =>
  Returns (tt, set_interpreter i w).

(** The constructor, which calls [set_thread_count(tc)] on the fields
    [fifo(1024), node_count(0)]; the argument is converted to the
    parameter's type [thread_count_t] at the call.  The source leaves
    [used_helper_threads] without initial value, here it is the argument
    [indeterminate]. *)
Definition new_dsp_queue_interpreter (tc indeterminate : Z) : option dsp_queue_interpreter :=
  let tc := thread_count_t tc in
  if tc <? thread_count_max
  then Some (Interpreter None (Z.max 1 tc) indeterminate [] 0)
  else None.

(** [set_thread_count(i)]; the argument is converted to the parameter's
    type [thread_count_t] at the call. *)
Definition set_thread_count (i : Z) : M unit :=
  let i := thread_count_t i in
  assert (i <? thread_count_max) ;;;
  this <- get_interpreter ;;
  put_interpreter (set_thread_count_field (Z.max 1 i) this).

Definition get_thread_count : M Z :=
  this <- get_interpreter ;; ret (thread_count this).

Definition get_used_helper_threads : M Z :=
  this <- get_interpreter ;; ret (used_helper_threads this).

(** Prepares queue and queue interpreter for a dsp tick: true if the dsp
    queue is valid, false if no dsp queue is available or the queue is
    empty. *)
Definition init_tick : M bool :=
  this <- get_interpreter ;;
  match queue this with
  | None => ret false
  | Some q =>
      if total_node_count q =? 0 then ret false
      else
        n <- load_node_count ;;
        assert (n =? 0) ;;;
        e <- fifo_is_empty ;;
        assert e ;;;
        store_node_count (total_node_count q) ;;;
        foreach (initially_runnable_items q) mark_as_runnable ;;;
        ret true
  end.

Definition release_queue : M (option dsp_thread_queue) :=
  this <- get_interpreter ;;
  put_interpreter (set_queue None this) ;;;
  ret (queue this).

(** [reset_queue(new_queue)]; the caller's [new_queue] is left null, its
    graph now belongs to the interpreter. *)
Definition reset_queue (new_queue : option dsp_thread_queue) : M (option dsp_thread_queue) :=
  this <- get_interpreter ;;
  let ret_ := queue this in
  put_interpreter (set_queue new_queue this) ;;;
  match new_queue with
  | None => ret ret_
  | Some q =>
      reset_activation_counts q ;;;
      this <- get_interpreter ;;
      let thread_number :=
        Z.min (thread_count_t (Z.min (total_node_count q) (node_count_t thread_count_max)))
              (thread_count this) in
      put_interpreter (set_used_helper_threads (thread_count_t (thread_number - 1)) this) ;;;
      ret ret_
  end.

(** The [do ... while (item != NULL)] loop of [run_next_item]; returns
    [consumed]. *)
Fixpoint run_chain (fuel : nat) (p : ptr) (index consumed : Z) : M Z :=
  match fuel with
  | O => out_of_fuel
  | S fuel =>
      next <- run p (uint8_t index) ;;
      let consumed := node_count_t (consumed + 1) in
      match next with
      | Some p => run_chain fuel p index consumed
      | None => ret consumed
      end
  end.

Definition run_next_item (fuel : nat) (index : Z) : M run_state :=
  p <- fifo_dequeue ;;
  match p with
  | None => ret fifo_empty
  | Some p =>
      consumed <- run_chain fuel p index 0 ;;
      remaining <- fetch_sub_node_count consumed ;;
      assert (consumed <=? remaining) ;;;
      if remaining =? consumed then ret no_remaining_items else ret remaining_items
  end.

Fixpoint run_item (fuel : nat) (index : Z) : M unit :=
  match fuel with
  | O => out_of_fuel
  | S fuel' =>
      n <- load_node_count ;;
      if n =? 0 then ret tt
      else
        (* we still have some nodes to process *)
        state <- run_next_item fuel index ;;
        match state with
        | no_remaining_items => ret tt
        | _ => run_item fuel' index
        end
  end.

Definition tick (fuel : nat) (thread_index : Z) : M unit := run_item fuel thread_index.

(** Busy-wait for helper threads to finish. *)
Fixpoint wait_for_end (fuel : nat) : M unit :=
  match fuel with
  | O => out_of_fuel
  | S fuel => n <- load_node_count ;; if n =? 0 then ret tt else wait_for_end fuel
  end.

Definition run_item_master (fuel : nat) : M unit :=
  run_item fuel 0 ;;;
  wait_for_end fuel ;;;
  e <- fifo_is_empty ;;
  assert e.

Definition tick_master (fuel : nat) : M unit := run_item_master fuel.

End Methods.

(** ** Concrete graphs *)

(** The diamond A -> {B, C} -> D, freshly constructed: A at address 1, B at
    2, C at 3 and D at 4; the jobs carry no data. *)
Definition diamond_heap : gmap ptr (dsp_thread_queue_item unit) :=
  <[1%positive := new_dsp_thread_queue_item tt [2%positive; 3%positive] 0]>
  (<[2%positive := new_dsp_thread_queue_item tt [4%positive] 1]>
  (<[3%positive := new_dsp_thread_queue_item tt [4%positive] 1]>
  (<[4%positive := new_dsp_thread_queue_item tt [] 2]> ∅))).

Definition diamond_queue : dsp_thread_queue :=
  Queue 4 [1%positive] [1%positive; 2%positive; 3%positive; 4%positive].

(** A single node of in-degree 0 at address 5. *)
Definition single_queue : dsp_thread_queue := Queue 1 [5%positive] [5%positive].

(** An interpreter as its constructor leaves it, for [tc] threads. *)
Definition fresh_interpreter (tc : Z) : dsp_queue_interpreter :=
  Interpreter None tc 0 [] 0.

Definition diamond_world : world unit :=
  World (<[5%positive := new_dsp_thread_queue_item tt [] 0]> diamond_heap)
        (fresh_interpreter 2) [].

(** A node of in-degree 2 that a torn-down tick left with one predecessor
    still to complete. *)
Definition mid_state_world : world unit :=
  World {[ 1%positive := Item 1 tt [] 2 ]} (fresh_interpreter 1) [].

(** A graph as its construction leaves it in the heap [h]: every node is
    allocated, owned once, and has the counter the constructor gave it. *)
Definition freshly_built {runnable} (h : gmap ptr (dsp_thread_queue_item runnable))
    (q : dsp_thread_queue) : Prop :=
  total_node_count q = Z.of_nat (length (queue_items q)) /\
  NoDup (queue_items q) /\
  forall p, p ∈ queue_items q ->
    exists it, h !! p = Some it /\ activation_count it = 0.

(** ** [run] in the words of the specification *)

Section Specified.

Context `{Platform}.
Context {runnable : Type}.

Local Abbreviation M := (M runnable).

(** Each successor's counter is decremented once by a fetch-and-subtract,
    in the order of the list (a counter found at 0 is an invariant
    violation and fatal); the result lists the successors whose counter
    reached zero, in that order. *)
Fixpoint decrement_successors (succs : list ptr) : M (list ptr) :=
  match succs with
  | [] => ret []
  | s :: rest =>
      previous <- fetch_sub_activation_count s ;;
      assert (0 <? previous) ;;;
      ready <- decrement_successors rest ;;
      ret (if previous =? 1 then s :: ready else ready)
  end.

(** Precondition [activation_count == 0]; the job; the decrements; the
    first newly ready successor is the result and every further one is
    enqueued; the own counter is reset. *)
Definition run_as_specified (this : ptr) (thread_index : Z) : M (option ptr) :=
  count <- load_activation_count this ;;
  assert (count =? 0) ;;;
  call_job this thread_index ;;;
  it <- deref this ;;
  ready <- decrement_successors (successors it) ;;
  match ready with
  | [] => reset_activation_count this ;;; ret None
  | first :: further =>
      foreach further mark_as_runnable ;;;
      reset_activation_count this ;;;
      ret (Some first)
  end.

End Specified.

(** ** The diamond through its first tick, on the lp64 platform *)

Definition world_after {A} (m : M unit A) (w : world unit) : world unit :=
  match m w with
  | Returns (_, w') => w'
  | _ => w
  end.

(** The diamond installed in an interpreter with two threads. *)
Definition diamond_installed : world unit :=
  world_after (reset_queue (H := lp64_platform) (Some diamond_queue)) diamond_world.

(** After [init_tick]: A is in the FIFO. *)
Definition diamond_seeded : world unit :=
  world_after init_tick diamond_installed.

(** After A has been dequeued and run by the master: B is ready. *)
Definition diamond_after_A : world unit :=
  world_after (run (H := lp64_platform) 1%positive 0)
    (world_after fifo_dequeue diamond_seeded).

(** ** Worker threads *)

(** The places of a worker in [run_item] and in the methods called from it,
    each with the values of the local variables that are live there.  A
    worker is at a place when the shared access named in the comment is its
    next action. *)
Inductive position : Type :=
| AtLoop                               (* run_item: node_count.load() *)
| AtDequeue                            (* run_next_item: fifo.dequeue(&item) *)
| AtRun (item : ptr) (consumed : Z)    (* run: assert(activation_count == 0) *)
| AtJob (item : ptr) (consumed : Z)    (* run: job(thread_index) *)
| AtUpdate (item : ptr) (consumed : Z) (rest : list ptr) (next : option ptr)
    (* update_dependencies: the loop test and successors[i++]->dec_ref_count,
       where [rest] is successors[i..] and [next] is ptr.get() *)
| AtMark (item : ptr) (consumed : Z) (rest : list ptr) (next : option ptr) (s : ptr)
    (* dec_ref_count of s: interpreter.mark_as_runnable(s) *)
| AtResetAssert (item : ptr) (consumed : Z) (next : option ptr)
    (* reset_activation_count: assert(activation_count == 0) *)
| AtResetStore (item : ptr) (consumed : Z) (next : option ptr)
    (* reset_activation_count: activation_count.store(activation_limit) *)
| AtFetchSub (consumed : Z)            (* run_next_item: node_count.fetch_sub(consumed) *)
| AtWait                               (* wait_for_end: node_count.load() *)
| AtFifoAssert                         (* run_item_master: assert(fifo.empty()) *)
| Returned                             (* tick or tick_master has returned *)
| Aborted                              (* an assertion has failed *)
| Crashed.                             (* an address without item was dereferenced *)

(** A worker: the master runs [tick_master], a helper [tick(thread_index)]. *)
Record thread := Thread {
  master : bool;
  thread_index : Z;
  pos : position
}.

Definition set_pos (l : position) (t : thread) : thread :=
  Thread (master t) (thread_index t) l.

Section Workers.

Context `{Platform}.
Context {runnable : Type}.

Local Abbreviation M := (M runnable).

(** Where a worker is once [run_item] has returned. *)
Definition after_run_item (t : thread) : position :=
  if master t then AtWait else Returned.

(** The next action of a worker and the place it leads to. *)
Definition next_position (t : thread) : M position :=
  match pos t with
  | AtLoop =>
      n <- load_node_count ;;
      ret (if n =? 0 then after_run_item t else AtDequeue)
  | AtDequeue =>
      p <- fifo_dequeue ;;
      ret (match p with
           | None => AtLoop            (* fifo_empty: run_item loops *)
           | Some p => AtRun p 0
           end)
  | AtRun p c =>
      count <- load_activation_count p ;;
      assert (count =? 0) ;;;
      ret (AtJob p c)
  | AtJob p c =>
      call_job p (uint8_t (thread_index t)) ;;;
      it <- deref p ;;
      ret (AtUpdate p c (successors it) None)
  | AtUpdate p c [] next =>
      ret (AtResetAssert p c next)
  | AtUpdate p c (s :: rest) next =>
      current <- fetch_sub_activation_count s ;;
      assert (0 <? current) ;;;
      ret (if current =? 1 then
             match next with
             | None => AtUpdate p c rest (Some s)
             | Some _ => AtMark p c rest next s
             end
           else AtUpdate p c rest next)
  | AtMark p c rest next s =>
      mark_as_runnable s ;;;
      ret (AtUpdate p c rest next)
  | AtResetAssert p c next =>
      count <- load_activation_count p ;;
      assert (count =? 0) ;;;
      ret (AtResetStore p c next)
  | AtResetStore p c next =>
      it <- deref p ;;
      store_activation_count p (activation_limit it) ;;;
      let c := node_count_t (c + 1) in
      ret (match next with
           | Some n => AtRun n c
           | None => AtFetchSub c
           end)
  | AtFetchSub c =>
      remaining <- fetch_sub_node_count c ;;
      assert (c <=? remaining) ;;;
      ret (if remaining =? c then after_run_item t else AtLoop)
  | AtWait =>
      n <- load_node_count ;;
      ret (if n =? 0 then AtFifoAssert else AtWait)
  | AtFifoAssert =>
      e <- fifo_is_empty ;;
      assert e ;;;
      ret Returned
  | Returned => ret Returned
  | Aborted => ret Aborted
  | Crashed => ret Crashed
  end.

(** A worker that has returned or failed takes no step. *)
Definition can_step (l : position) : bool :=
  match l with
  | Returned | Aborted | Crashed => false
  | _ => true
  end.

(** One action of the worker [t] on the world [w]. *)
Definition thread_step (t : thread) (w : world runnable) : thread * world runnable :=
  match next_position t w with
  | Returns (l, w') => (set_pos l t, w')
  | AssertionFailed => (set_pos Aborted t, w)
  | Undefined => (set_pos Crashed t, w)
  | OutOfFuel => (set_pos Crashed t, w)
  end.

(** The world and the workers of a tick. *)
Record config := Config {
  shared : world runnable;
  threads : list thread
}.

(** Worker [i] takes its next action. *)
Definition step_of (i : nat) (c : config) : config :=
  match threads c !! i with
  | Some t =>
      if can_step (pos t)
      then Config (thread_step t (shared c)).2
                  (<[i := (thread_step t (shared c)).1]> (threads c))
      else c
  | None => c
  end.

(** Any interleaving: at each step some worker that can step does. *)
Inductive step : config -> config -> Prop :=
| step_thread c i t :
    threads c !! i = Some t ->
    can_step (pos t) = true ->
    step c (step_of i c).

(** The workers of the schedule [s] step in turn. *)
Definition schedule (s : list nat) (c : config) : config :=
  foldl (fun c i => step_of i c) c s.

(** The tick starts after [init_tick]: the master enters [tick_master],
    which runs the worker loop with index 0, and each helper enters [tick]
    with its index. *)
Definition start_tick (w : world runnable) (helpers : list Z) : config :=
  Config w (Thread true 0 AtLoop :: map (fun i => Thread false i AtLoop) helpers).

Definition master_returned (c : config) : Prop :=
  exists t, threads c !! 0%nat = Some t /\ pos t = Returned.

Definition failed (c : config) : Prop :=
  exists t, t ∈ threads c /\ (pos t = Aborted \/ pos t = Crashed).

End Workers.

Arguments config : clear implicits.

(** ** Graphs *)

(** How often [p] occurs in [l]. *)
Fixpoint occurrences (p : ptr) (l : list ptr) : nat :=
  match l with
  | [] => 0
  | x :: l => (if decide (x = p) then 1 else 0) + occurrences p l
  end.

Section Graph.

Context `{Platform}.
Context {runnable : Type}.

Local Abbreviation heap_t := (gmap ptr (dsp_thread_queue_item runnable)).

Definition successors_of (h : heap_t) (p : ptr) : list ptr :=
  match h !! p with
  | Some it => successors it
  | None => []
  end.

Definition limit_of (h : heap_t) (p : ptr) : Z :=
  match h !! p with
  | Some it => activation_limit it
  | None => 0
  end.

Definition count_of (h : heap_t) (p : ptr) : Z :=
  match h !! p with
  | Some it => activation_count it
  | None => 0
  end.

(** The in-degree of [v]: the number of entries of the successor lists of
    [nodes] that point to [v]. *)
Definition in_degree (h : heap_t) (nodes : list ptr) (v : ptr) : nat :=
  sum_list_with (fun u => occurrences v (successors_of h u)) nodes.

(** The graph of the data model: the graph owns its nodes, each once; the
    successors are nodes of the graph; [activation_limit] is the in-degree;
    the initially runnable nodes are the nodes of in-degree 0, each named
    once; the successor relation has no cycle. *)
Record well_formed (h : heap_t) (g : dsp_thread_queue) : Prop := {
  wf_total : total_node_count g = Z.of_nat (length (queue_items g));
  wf_total_range : total_node_count g < 2 ^ fast16_bits;
  wf_owned : NoDup (queue_items g);
  wf_allocated : forall p, p ∈ queue_items g -> is_Some (h !! p);
  wf_closed : forall p s,
    p ∈ queue_items g -> s ∈ successors_of h p -> s ∈ queue_items g;
  wf_limit : forall p,
    p ∈ queue_items g -> limit_of h p = Z.of_nat (in_degree h (queue_items g) p);
  wf_limit_range : forall p,
    p ∈ queue_items g -> limit_of h p < 2 ^ fast16_bits;
  wf_initial_once : NoDup (initially_runnable_items g);
  wf_initial : forall p,
    p ∈ initially_runnable_items g <-> p ∈ queue_items g /\ limit_of h p = 0;
  wf_acyclic : exists rank : ptr -> nat, forall p s,
    p ∈ queue_items g -> s ∈ successors_of h p -> (rank p < rank s)%nat
}.

(** Between ticks every counter is at its limit. *)
Definition counters_reset (h : heap_t) (g : dsp_thread_queue) : Prop :=
  forall p, p ∈ queue_items g -> count_of h p = limit_of h p.

(** How often the job of [p] has been called since the calls [calls0]. *)
Definition invocations (calls0 : list (ptr * Z)) (w : world runnable) (p : ptr) : nat :=
  occurrences p (map fst (drop (length calls0) (calls w))).

End Graph.

(** ** The state of a tick *)

(** Nodes that a worker at the given place has in hand as ready to run:
    their counter is 0 and their job has not been called. *)
Definition holds (l : position) : list ptr :=
  match l with
  | AtRun p _ | AtJob p _ => [p]
  | AtUpdate _ _ _ next => option_list next
  | AtMark _ _ _ next s => s :: option_list next
  | AtResetAssert _ _ next | AtResetStore _ _ next => option_list next
  | _ => []
  end.

(** The node whose job the worker has called and whose counter it has not
    reset yet. *)
Definition runs (l : position) : list ptr :=
  match l with
  | AtUpdate p _ _ _ | AtMark p _ _ _ _
  | AtResetAssert p _ _ | AtResetStore p _ _ => [p]
  | _ => []
  end.

(** The number of nodes whose job the worker has called and which it has
    not subtracted from [node_count] yet. *)
Definition in_flight (l : position) : Z :=
  match l with
  | AtRun _ c | AtJob _ c | AtFetchSub c => c
  | AtUpdate _ c _ _ | AtMark _ c _ _ _
  | AtResetAssert _ c _ | AtResetStore _ c _ => c + 1
  | _ => 0
  end.

Definition holders (ts : list thread) (p : ptr) : nat :=
  sum_list_with (fun t => occurrences p (holds (pos t))) ts.

Definition runners (ts : list thread) (p : ptr) : nat :=
  sum_list_with (fun t => occurrences p (runs (pos t))) ts.

Definition flights (ts : list thread) : Z :=
  foldr (fun t acc => in_flight (pos t) + acc) 0 ts.

(** With [k u] successors of each node [u] decremented: the number of
    decrements that [v] has received. *)
Definition edges_done (succs : ptr -> list ptr) (nodes : list ptr)
    (k : ptr -> nat) (v : ptr) : nat :=
  sum_list_with (fun u => occurrences v (take (k u) (succs u))) nodes.

(** [k] with the value [n] at [p]. *)
Definition advance (k : ptr -> nat) (p : ptr) (n : nat) : ptr -> nat :=
  fun u => if decide (u = p) then n else k u.

(** The four states of a node during a tick, in numbers: [T] tokens (in
    the FIFO or in the hand of a worker), [R] workers between its job and
    its reset, [L] calls of its job, [kp] of its [len] successors
    decremented, counter [cnt], limit [lim], [e] decrements received. *)
Definition node_ok (T R L kp len : nat) (cnt lim : Z) (e : nat) : Prop :=
  (* waiting for predecessors *)
  (T = 0%nat /\ R = 0%nat /\ L = 0%nat /\ kp = 0%nat /\
   cnt = lim - Z.of_nat e /\ 0 < cnt) \/
  (* ready *)
  (T = 1%nat /\ R = 0%nat /\ L = 0%nat /\ kp = 0%nat /\
   cnt = 0 /\ Z.of_nat e = lim) \/
  (* running *)
  (T = 0%nat /\ R = 1%nat /\ L = 1%nat /\ (kp <= len)%nat /\
   cnt = 0 /\ Z.of_nat e = lim) \/
  (* finished *)
  (T = 0%nat /\ R = 0%nat /\ L = 1%nat /\ kp = len /\
   cnt = lim /\ Z.of_nat e = lim).

(** What the place of a worker says about the progress [k] of its node and
    about [node_count]. *)
Definition position_ok (succs : ptr -> list ptr) (k : ptr -> nat) (nc : Z)
    (l : position) : Prop :=
  match l with
  | AtLoop | AtDequeue => True
  | AtRun _ c | AtJob _ c | AtFetchSub c => 0 <= c
  | AtUpdate p c rest _ | AtMark p c rest _ _ =>
      0 <= c /\ rest = drop (k p) (succs p)
  | AtResetAssert p c _ | AtResetStore p c _ =>
      0 <= c /\ k p = length (succs p)
  | AtWait | AtFifoAssert | Returned => nc = 0
  | Aborted | Crashed => False
  end.

(** What remains to do at a place, and for a node that has not been
    called. *)
Definition position_measure (l : position) : nat :=
  match l with
  | Returned | Aborted | Crashed => 0
  | AtFifoAssert => 1
  | AtWait => 2
  | AtJob _ _ => 3
  | AtRun _ _ => 4
  | AtLoop | AtDequeue => 5
  | AtFetchSub _ => 6
  | AtResetStore _ _ _ => 7
  | AtResetAssert _ _ _ => 8
  | AtUpdate _ _ rest _ => 9 + 2 * length rest
  | AtMark _ _ rest _ _ => 10 + 2 * length rest
  end.

Section Invariant.

Context `{Platform}.
Context {runnable : Type}.

(** The heap and the calls at the start of the tick, and the graph. *)
Variable h0 : gmap ptr (dsp_thread_queue_item runnable).
Variable calls0 : list (ptr * Z).
Variable g : dsp_thread_queue.

Definition tokens (c : config runnable) (p : ptr) : nat :=
  occurrences p (fifo (interpreter (shared c))) + holders (threads c) p.

(** The invariant of a tick, for the progress [k] and the calls [log] of
    the tick. *)
Record tick_invariant_at (k : ptr -> nat) (log : list (ptr * Z))
    (c : config runnable) : Prop := {
  inv_calls : calls (shared c) = calls0 ++ log;
  inv_queue : queue (interpreter (shared c)) = Some g;
  inv_static : forall p, p ∈ queue_items g ->
    exists it, heap (shared c) !! p = Some it /\
      successors it = successors_of h0 p /\
      activation_limit it = limit_of h0 p;
  inv_outside : forall p, p ∉ queue_items g ->
    tokens c p = 0%nat /\ runners (threads c) p = 0%nat /\
    occurrences p (map fst log) = 0%nat;
  inv_nodes : forall p, p ∈ queue_items g ->
    node_ok (tokens c p) (runners (threads c) p) (occurrences p (map fst log))
      (k p) (length (successors_of h0 p))
      (count_of (heap (shared c)) p) (limit_of h0 p)
      (edges_done (successors_of h0) (queue_items g) k p);
  inv_threads : forall t, t ∈ threads c ->
    position_ok (successors_of h0) k (node_count (interpreter (shared c))) (pos t);
  inv_count :
    node_count (interpreter (shared c)) =
      total_node_count g - Z.of_nat (length log) + flights (threads c);
  inv_count_le : node_count (interpreter (shared c)) <= total_node_count g
}.

Definition tick_invariant (c : config runnable) : Prop :=
  exists k log, tick_invariant_at k log c.

Definition weight (p : ptr) : nat := (7 + 2 * length (successors_of h0 p))%nat.

Definition measure (c : config runnable) : nat :=
  (sum_list_with
    (fun p => match invocations calls0 (shared c) p with
              | O => weight p
              | S _ => 0%nat
              end) (queue_items g)
  + sum_list_with (fun t => position_measure (pos t)) (threads c))%nat.

End Invariant.

(** A worker that is not idling: its next action brings the tick forward. *)
Definition productive {runnable} (w : world runnable) (l : position) : Prop :=
  match l with
  | AtLoop | AtWait => node_count (interpreter w) = 0
  | AtDequeue => fifo (interpreter w) <> []
  | Returned | Aborted | Crashed => False
  | _ => True
  end.

(** A worker that has a node in hand or runs one. *)
Definition busy (l : position) : bool :=
  match l with
  | AtRun _ _ | AtJob _ _ | AtUpdate _ _ _ _ | AtMark _ _ _ _ _
  | AtResetAssert _ _ _ | AtResetStore _ _ _ | AtFetchSub _ => true
  | _ => false
  end.

(** ** The remaining methods *)

Section Remaining.

Context `{Platform}.
Context {runnable : Type}.

Local Abbreviation M := (M runnable).

(** [dsp_thread_queue_item::get_job] *)
Definition get_job (this : ptr) : M runnable :=
  it <- deref this ;; ret (job it).

(** [dsp_thread_queue::get_total_node_count] *)
Definition get_total_node_count (q : dsp_thread_queue) : Z := total_node_count q.

(** [dsp_queue_interpreter::total_node_count]: it dereferences [queue]
    without test. *)
Definition interpreter_total_node_count : M Z :=
  this <- get_interpreter ;;
  match queue this with
  | Some q => ret (get_total_node_count q)
  | None => fun _ => Undefined
  end.

(** [delete p] of an item: its storage is given back; to delete what is
    not allocated (a second time, say) is undefined. *)
Definition delete_item (p : ptr) : M unit := fun w =>
  match heap w !! p with
  | Some _ => Returns (tt, set_heap (delete p (heap w)) w)
  | None => Undefined
  end.

(** [~dsp_thread_queue]: deletes [queue_items] from first to last. *)
Definition destroy_dsp_thread_queue (q : dsp_thread_queue) : M unit :=
  foreach (queue_items q) delete_item.

(** The end of a [dsp_thread_queue_ptr]: it destroys the graph it owns. *)
Definition destroy_dsp_thread_queue_ptr (q : option dsp_thread_queue) : M unit :=
  match q with
  | Some q => destroy_dsp_thread_queue q
  | None => ret tt
  end.

(** The calls of the tick: those after the calls [calls0]. *)
Definition tick_calls (calls0 : list (ptr * Z)) (w : world runnable) : list (ptr * Z) :=
  drop (length calls0) (calls w).

(** In the sequence [l] of called nodes, every predecessor of a node comes
    before the node. *)
Definition predecessors_first (succs : ptr -> list ptr) (nodes l : list ptr) : Prop :=
  forall l1 v l2 u,
    l = l1 ++ v :: l2 -> u ∈ nodes -> v ∈ succs u -> u ∈ l1.

(** Every worker has returned. *)
Definition all_returned (c : config runnable) : Prop :=
  forall t, t ∈ threads c -> pos t = Returned.

End Remaining.

(** A graph with two nodes on a cycle, installed with its counters at their
    limits: no node is initially runnable. *)
Definition cycle_queue : dsp_thread_queue :=
  Queue 2 [] [1%positive; 2%positive].

Definition cycle_world : world unit :=
  World (<[1%positive := Item 1 tt [2%positive] 1]>
        (<[2%positive := Item 1 tt [1%positive] 1]> ∅))
        (Interpreter (Some cycle_queue) 1 0 [] 0) [].

(** [c] is a state of a tick: the graph [g] of the data model is installed
    in [w0] with its counters reset, [init_tick] has returned true, and the
    master and the helpers [helpers] have run their worker loops,
    interleaved in some way, up to [c]. *)
Definition tick_state `{Platform} {runnable : Type}
    (w0 : world runnable) (g : dsp_thread_queue) (helpers : list Z)
    (c : config runnable) : Prop :=
  queue (interpreter w0) = Some g /\
  well_formed (heap w0) g /\
  counters_reset (heap w0) g /\
  exists w1, init_tick w0 = Returns (true, w1) /\ rtc step (start_tick w1 helpers) c.

(** The invariant of a tick with what it does not say about the calls:
    their order, and the thread indices they carry, which are those of the
    workers [indices]. *)
Definition ordered_invariant `{Platform} {runnable : Type}
    (h0 : gmap ptr (dsp_thread_queue_item runnable)) (calls0 : list (ptr * Z))
    (g : dsp_thread_queue) (indices : list Z) (c : config runnable) : Prop :=
  exists k log, tick_invariant_at h0 calls0 g k log c /\
    predecessors_first (successors_of h0) (queue_items g) (map fst log) /\
    map thread_index (threads c) = indices /\
    Forall (fun e => e.2 ∈ map uint8_t indices) log.

(** *** States of the first tick of the diamond with one helper *)

(** The master has run A and has B in hand; C is in the FIFO. *)
Definition diamond_mid : config unit :=
  schedule (H := lp64_platform) (repeat 0%nat 10) (start_tick diamond_seeded [1]).

(** The master has run the four nodes and has returned; the helper has not
    taken a step. *)
Definition diamond_master_end : config unit :=
  schedule (H := lp64_platform) (repeat 0%nat 40) (start_tick diamond_seeded [1]).

(** Master and helper have stepped in turn, and both have returned. *)
Definition diamond_end : config unit :=
  schedule (H := lp64_platform) (concat (repeat [0%nat; 1%nat] 30))
    (start_tick diamond_seeded [1]).

(** ** The successors that become ready

    The decrements of a [run], told from the counters before it. *)

(** The successors of [rest] whose counter reaches zero when every
    successor is decremented once in the order of the list, after the
    successors [seen] have been decremented: a successor is one of them
    where its counter before all decrements, [count], is the number of its
    decrements so far. *)
Fixpoint newly_ready_from (count : ptr -> Z) (seen rest : list ptr) : list ptr :=
  match rest with
  | [] => []
  | s :: rest =>
      let further := newly_ready_from count (seen ++ [s]) rest in
      if count s =? Z.of_nat (S (occurrences s seen)) then s :: further else further
  end.

Definition newly_ready (count : ptr -> Z) (succs : list ptr) : list ptr :=
  newly_ready_from count [] succs.

(** The heap [h] is the heap [h0] with each counter lowered once for each
    occurrence of its item in [seen]. *)
Definition decremented {runnable : Type}
    (h0 h : gmap ptr (dsp_thread_queue_item runnable)) (seen : list ptr) : Prop :=
  forall p,
    h !! p = (fun it => set_activation_count
                          (activation_count it - Z.of_nat (occurrences p seen)) it)
             <$> h0 !! p.

(** * Properties *)

Section Sequential.

Context `{Platform}.
Context {runnable : Type}.

Local Abbreviation item := (dsp_thread_queue_item runnable).
Local Abbreviation world := (world runnable).
Local Abbreviation M := (M runnable).

Implicit Types (w : world) (p this : ptr) (it : item).

(** ** Integer conversions *)

Lemma pow_fast16_pos : 0 < 2 ^ fast16_bits.
Proof. apply Z.pow_pos_nonneg; [lia | pose proof fast16_bits_min; lia]. Qed.

Lemma pow_fast8_pos : 0 < 2 ^ fast8_bits.
Proof. apply Z.pow_pos_nonneg; [lia | pose proof fast8_bits_min; lia]. Qed.

Lemma node_count_t_small z : 0 <= z < 2 ^ fast16_bits -> node_count_t z = z.
Proof. intros. unfold node_count_t. now apply Z.mod_small. Qed.

Lemma activation_limit_t_small z : 0 <= z < 2 ^ fast16_bits -> activation_limit_t z = z.
Proof. intros. unfold activation_limit_t. now apply Z.mod_small. Qed.

Lemma thread_count_t_small z : 0 <= z < 2 ^ fast8_bits -> thread_count_t z = z.
Proof. intros. unfold thread_count_t. now apply Z.mod_small. Qed.

Lemma node_count_t_range z : 0 <= node_count_t z < 2 ^ fast16_bits.
Proof. unfold node_count_t. apply Z.mod_pos_bound, pow_fast16_pos. Qed.

Lemma node_count_t_succ z : node_count_t (node_count_t z + 1) = node_count_t (z + 1).
Proof.
  unfold node_count_t. pose proof pow_fast16_pos.
  rewrite Zplus_mod_idemp_l. reflexivity.
Qed.

(** [min(total, node_count_t(max))] is the minimum with WORKER_MAX, even on
    a platform whose thread count type is wider than its node count type. *)
Lemma min_node_count_thread_count_max n :
  0 <= n < 2 ^ fast16_bits ->
  Z.min n (node_count_t thread_count_max) = Z.min n thread_count_max.
Proof.
  intros Hn. unfold node_count_t, thread_count_max.
  pose proof pow_fast16_pos as P16. pose proof pow_fast8_pos as P8.
  destruct (Z_le_gt_dec fast8_bits fast16_bits) as [Hle|Hgt].
  - assert (2 ^ fast8_bits <= 2 ^ fast16_bits) by (apply Z.pow_le_mono_r; lia).
    rewrite Z.mod_small by lia. reflexivity.
  - assert (Hsplit : 2 ^ fast8_bits = 2 ^ (fast8_bits - fast16_bits) * 2 ^ fast16_bits).
    { rewrite <- Z.pow_add_r; [f_equal; lia | lia |].
      pose proof fast16_bits_min. lia. }
    assert (0 < 2 ^ (fast8_bits - fast16_bits)) by (apply Z.pow_pos_nonneg; lia).
    assert (Hmod : (2 ^ fast8_bits - 1) mod 2 ^ fast16_bits = 2 ^ fast16_bits - 1).
    { symmetry. apply (Z.mod_unique _ _ (2 ^ (fast8_bits - fast16_bits) - 1)); [lia|].
      rewrite Hsplit. lia. }
    rewrite Hmod.
    assert (2 ^ fast16_bits <= 2 ^ fast8_bits) by (apply Z.pow_le_mono_r; lia).
    lia.
Qed.


(** ** Elementary facts about the operations *)

Lemma bind_returns {A B} (m : M A) (k : A -> M B) w b w' :
  (x <- m ;; k x) w = Returns (b, w') ->
  exists a w1, m w = Returns (a, w1) /\ k a w1 = Returns (b, w').
Proof.
  unfold bind. destruct (m w) as [[a w1]| | |]; try discriminate. eauto.
Qed.

Lemma assert_returns (b : bool) w u w' :
  assert (runnable := runnable) b w = Returns (u, w') -> b = true /\ w' = w.
Proof. unfold assert. destruct b; [|discriminate]. intros [= <- <-]. auto. Qed.

Lemma deref_returns this w it w' :
  deref this w = Returns (it, w') -> heap w !! this = Some it /\ w' = w.
Proof.
  unfold deref. destruct (heap w !! this); [|discriminate].
  intros [= <- <-]. auto.
Qed.

Lemma reset_activation_count_eq this w it :
  heap w !! this = Some it ->
  reset_activation_count this w =
    if activation_count it =? 0
    then Returns (tt, set_heap (<[this := set_activation_count (activation_limit it) it]>
                                  (heap w)) w)
    else AssertionFailed.
Proof.
  intros Hit.
  unfold reset_activation_count, load_activation_count, store_activation_count,
    deref, bind, ret, assert.
  rewrite Hit. cbn. destruct (activation_count it =? 0); [|reflexivity].
  cbn. rewrite Hit. cbn. rewrite Hit. reflexivity.
Qed.


(** ** Construction and reset of a node *)

(** C2 (as amended): the constructor initializes [activation_count] to 0
    and keeps the given [activation_limit]; the two agree only for a node
    of in-degree 0.  It is [reset_activation_count], called once when the
    queue is installed, that brings the counter of a constructed node to
    [activation_limit]. *)
Theorem constructor_activation_count (j : runnable) (succs : list ptr) (limit : Z) :
  let it := new_dsp_thread_queue_item j succs limit in
  activation_count it = 0 /\
  activation_limit it = limit /\
  successors it = succs /\
  (activation_count it = activation_limit it <-> limit = 0) /\
  (forall w this, heap w !! this = Some it ->
     reset_activation_count this w =
       Returns (tt, set_heap (<[this := Item limit j succs limit]> (heap w)) w)).
Proof.
  cbn. repeat split; try congruence.
  intros w this Hit. rewrite (reset_activation_count_eq _ _ _ Hit). reflexivity.
Qed.

(** C3 (as amended): [reset_activation_count] stores [activation_limit]
    into [activation_count] when the counter is 0 on entry; on a node with
    any other counter value its assertion fails. *)
Theorem reset_activation_count_spec this w it :
  heap w !! this = Some it ->
  (activation_count it = 0 ->
     reset_activation_count this w =
       Returns (tt, set_heap (<[this := set_activation_count (activation_limit it) it]>
                                (heap w)) w)) /\
  (activation_count it <> 0 -> reset_activation_count this w = AssertionFailed).
Proof.
  intros Hit. rewrite (reset_activation_count_eq _ _ _ Hit). split; intros Hc.
  - rewrite Hc. reflexivity.
  - destruct (Z.eqb_spec (activation_count it) 0); [contradiction | reflexivity].
Qed.


(** ** The interpreter as constructed *)

Lemma thread_count_t_range z : 0 <= thread_count_t z < 2 ^ fast8_bits.
Proof. unfold thread_count_t. apply Z.mod_pos_bound, pow_fast8_pos. Qed.

Lemma set_thread_count_returns n w u w' :
  set_thread_count n w = Returns (u, w') ->
  thread_count_t n < thread_count_max /\
  w' = set_interpreter
         (set_thread_count_field (Z.max 1 (thread_count_t n)) (interpreter w)) w /\
  1 <= thread_count (interpreter w') < thread_count_max.
Proof.
  unfold set_thread_count, get_interpreter, put_interpreter. cbv zeta. intros Hr.
  apply bind_returns in Hr as ([] & w1 & Ha & Hr).
  apply assert_returns in Ha as [Hlt ->]. apply Z.ltb_lt in Hlt.
  injection Hr as <- <-. cbn. repeat split; [exact Hlt | lia |].
  unfold thread_count_max in *.
  assert (2 ^ 8 <= 2 ^ fast8_bits)
    by (apply Z.pow_le_mono_r; [lia | apply fast8_bits_min]).
  lia.
Qed.

(** The constructor leaves no graph, an empty FIFO, [node_count] 0 and at
    least one thread. *)
Lemma new_dsp_queue_interpreter_state tc indeterminate (i : dsp_queue_interpreter) :
  new_dsp_queue_interpreter tc indeterminate = Some i ->
  queue i = None /\ fifo i = [] /\ node_count i = 0 /\
  1 <= thread_count i < thread_count_max.
Proof.
  unfold new_dsp_queue_interpreter. cbv zeta.
  destruct (Z.ltb_spec (thread_count_t tc) thread_count_max) as [Hlt|];
    [|discriminate].
  intros [= <-]. cbn. repeat split; try lia.
  unfold thread_count_max in *.
  assert (2 ^ 8 <= 2 ^ fast8_bits)
    by (apply Z.pow_le_mono_r; [lia | apply fast8_bits_min]).
  lia.
Qed.

(** ** Install and release *)

Lemma reset_activation_count_none this w :
  heap w !! this = None -> reset_activation_count this w = Undefined.
Proof.
  intros Hn. unfold reset_activation_count, load_activation_count, deref, bind.
  rewrite Hn. reflexivity.
Qed.

Lemma reset_activation_count_set_interpreter this i w :
  reset_activation_count this (set_interpreter i w) =
    match reset_activation_count this w with
    | Returns (u, w1) => Returns (u, set_interpreter i w1)
    | AssertionFailed => AssertionFailed
    | Undefined => Undefined
    | OutOfFuel => OutOfFuel
    end.
Proof.
  destruct (heap w !! this) as [it|] eqn:Hit.
  - rewrite (reset_activation_count_eq this (set_interpreter i w) it) by exact Hit.
    rewrite (reset_activation_count_eq this w it) by exact Hit.
    destruct (activation_count it =? 0); reflexivity.
  - rewrite !reset_activation_count_none; auto.
Qed.

Lemma foreach_reset_set_interpreter (l : list ptr) i w :
  foreach l reset_activation_count (set_interpreter i w) =
    match foreach l reset_activation_count w with
    | Returns (u, w1) => Returns (u, set_interpreter i w1)
    | AssertionFailed => AssertionFailed
    | Undefined => Undefined
    | OutOfFuel => OutOfFuel
    end.
Proof.
  revert w. induction l as [|x l IH]; intros w; [reflexivity|].
  cbn. unfold bind. rewrite reset_activation_count_set_interpreter.
  destruct (reset_activation_count x w) as [[u w1]| | |]; auto.
Qed.

Lemma reset_activation_counts_set_interpreter q i w :
  reset_activation_counts q (set_interpreter i w) =
    match reset_activation_counts q w with
    | Returns (u, w1) => Returns (u, set_interpreter i w1)
    | AssertionFailed => AssertionFailed
    | Undefined => Undefined
    | OutOfFuel => OutOfFuel
    end.
Proof.
  unfold reset_activation_counts, bind, assert.
  destruct (total_node_count q =? Z.of_nat (length (queue_items q))); [|reflexivity].
  apply foreach_reset_set_interpreter.
Qed.

(** Resetting the counters changes nothing but the heap. *)
Lemma foreach_reset_frame (l : list ptr) w u w1 :
  foreach l reset_activation_count w = Returns (u, w1) ->
  interpreter w1 = interpreter w /\ calls w1 = calls w.
Proof.
  revert w. induction l as [|x l IH]; intros w.
  - cbn. intros [= <- <-]. auto.
  - cbn. intros Hb. apply bind_returns in Hb as (u' & w' & Hx & Hl).
    apply IH in Hl as [-> ->].
    destruct (heap w !! x) as [it|] eqn:Hit.
    + rewrite (reset_activation_count_eq _ _ _ Hit) in Hx.
      destruct (activation_count it =? 0); [|discriminate].
      injection Hx as <- <-. auto.
    + rewrite reset_activation_count_none in Hx by exact Hit. discriminate.
Qed.

Lemma reset_activation_counts_frame q w u w1 :
  reset_activation_counts q w = Returns (u, w1) ->
  interpreter w1 = interpreter w /\ calls w1 = calls w.
Proof.
  unfold reset_activation_counts. intros Hb.
  apply bind_returns in Hb as (u' & w' & Ha & Hl).
  apply assert_returns in Ha as [_ ->]. eapply foreach_reset_frame; eauto.
Qed.

(** [reset_queue] with a graph, in one equation. *)
Lemma reset_queue_some w q w1 :
  reset_activation_counts q w = Returns (tt, w1) ->
  let i := interpreter w in
  reset_queue (Some q) w =
    Returns (queue i,
             World (heap w1)
               (Interpreter (Some q) (thread_count i)
                  (thread_count_t
                     (Z.min (thread_count_t
                               (Z.min (total_node_count q) (node_count_t thread_count_max)))
                            (thread_count i) - 1))
                  (fifo i) (node_count i))
               (calls w)).
Proof.
  intros Hr i.
  pose proof (reset_activation_counts_frame _ _ _ _ Hr) as [Hi Hc].
  unfold reset_queue, get_interpreter, put_interpreter, bind. cbn.
  rewrite reset_activation_counts_set_interpreter, Hr. cbn.
  unfold set_interpreter, set_used_helper_threads. cbn. rewrite Hc. reflexivity.
Qed.

(** C7: [reset_queue] with a graph that has nodes returns the graph
    installed before (possibly none), installs the new graph with the
    counters that [reset_activation_counts] gives it, and sets
    [used_helper_threads] to
    [min(thread_count, min(total_node_count, WORKER_MAX)) - 1]. *)
Theorem reset_queue_installs w q w1 :
  1 <= total_node_count q < 2 ^ fast16_bits ->
  1 <= thread_count (interpreter w) ->
  reset_activation_counts q w = Returns (tt, w1) ->
  let i := interpreter w in
  reset_queue (Some q) w =
    Returns (queue i,
             World (heap w1)
               (Interpreter (Some q) (thread_count i)
                  (Z.min (thread_count i) (Z.min (total_node_count q) thread_count_max) - 1)
                  (fifo i) (node_count i))
               (calls w)) /\
  (forall r w', reset_queue (Some q) w = Returns (r, w') ->
     get_used_helper_threads w' =
       Returns (Z.min (thread_count i) (Z.min (total_node_count q) thread_count_max) - 1, w')).
Proof.
  intros Hn Htc Hr i.
  assert (Heq : thread_count_t
                  (Z.min (thread_count_t
                            (Z.min (total_node_count q) (node_count_t thread_count_max)))
                         (thread_count i) - 1)
                = Z.min (thread_count i) (Z.min (total_node_count q) thread_count_max) - 1).
  { rewrite min_node_count_thread_count_max by lia.
    pose proof pow_fast8_pos. unfold thread_count_max.
    assert (2 ^ 8 <= 2 ^ fast8_bits)
      by (apply Z.pow_le_mono_r; [lia | apply fast8_bits_min]).
    rewrite (thread_count_t_small (Z.min _ _)) by lia.
    rewrite thread_count_t_small by (fold i in Htc; lia). lia. }
  rewrite (reset_queue_some _ _ _ Hr). fold i. rewrite Heq. split; [reflexivity|].
  intros r w' [= <- <-]. reflexivity.
Qed.

(** C10: [reset_queue] with a null pointer returns the graph installed
    before and installs none; [thread_count] and [used_helper_threads] keep
    their values, so [get_used_helper_threads] still reports the number
    computed for the graph that was installed before. *)
Theorem reset_queue_null w :
  let i := interpreter w in
  let w' := set_interpreter (set_queue None i) w in
  reset_queue None w = Returns (queue i, w') /\
  queue (interpreter w') = None /\
  thread_count (interpreter w') = thread_count i /\
  used_helper_threads (interpreter w') = used_helper_threads i /\
  get_used_helper_threads w' = Returns (used_helper_threads i, w').
Proof. cbn. repeat split. Qed.


(** On a freshly built graph [reset_activation_counts] returns; it sets the
    counter of every node of the graph to its limit and leaves every other
    item alone. *)
Lemma foreach_reset_fresh (l : list ptr) w :
  NoDup l ->
  (forall p, p ∈ l -> exists it, heap w !! p = Some it /\ activation_count it = 0) ->
  exists w1, foreach l reset_activation_count w = Returns (tt, w1) /\
    (forall p, p ∉ l -> heap w1 !! p = heap w !! p) /\
    (forall p it, p ∈ l -> heap w !! p = Some it ->
       heap w1 !! p = Some (set_activation_count (activation_limit it) it)).
Proof.
  revert w. induction l as [|x l IH]; intros w Hnd Hall.
  - exists w. split; [reflexivity|]. split; [auto|]. intros p it Hp. inversion Hp.
  - apply NoDup_cons in Hnd as [Hx Hnd].
    destruct (Hall x) as (itx & Hitx & Hcx); [left|].
    set (w' := set_heap (<[x := set_activation_count (activation_limit itx) itx]> (heap w)) w).
    destruct (IH w' Hnd) as (w1 & Hrun & Hout & Hin).
    { intros p Hp. destruct (Hall p) as (it & Hit & Hc); [by right|].
      exists it. split; [|exact Hc]. cbn.
      rewrite lookup_insert_ne; [exact Hit | intros ->; contradiction]. }
    exists w1. split; [|split].
    + cbn. unfold bind. rewrite (reset_activation_count_eq _ _ _ Hitx), Hcx. cbn.
      exact Hrun.
    + intros p Hp. rewrite not_elem_of_cons in Hp. destruct Hp as [Hne Hp].
      rewrite (Hout p Hp). cbn. by rewrite lookup_insert_ne.
    + intros p it Hp Hit. apply elem_of_cons in Hp as [->|Hp].
      * rewrite (Hout x Hx). cbn. rewrite lookup_insert_eq. congruence.
      * apply Hin; [exact Hp|]. cbn.
        rewrite lookup_insert_ne; [exact Hit | intros ->; contradiction].
Qed.

Lemma reset_activation_counts_fresh q w :
  freshly_built (heap w) q ->
  exists w1, reset_activation_counts q w = Returns (tt, w1) /\
    interpreter w1 = interpreter w /\ calls w1 = calls w /\
    (forall p, p ∉ queue_items q -> heap w1 !! p = heap w !! p).
Proof.
  intros (Htot & Hnd & Hall).
  destruct (foreach_reset_fresh _ w Hnd Hall) as (w1 & Hrun & Hout & _).
  assert (Hr : reset_activation_counts q w = Returns (tt, w1)).
  { unfold reset_activation_counts, bind, assert.
    rewrite Htot, Z.eqb_refl. exact Hrun. }
  exists w1. split; [exact Hr|].
  destruct (reset_activation_counts_frame _ _ _ _ Hr) as [Hi Hc]. auto.
Qed.

(** C9: on an interpreter without graph, with empty FIFO and [node_count]
    0, installing graph A, installing graph B and releasing returns no
    graph, then A, then B, and leaves the interpreter without graph, with
    empty FIFO and [node_count] 0, as it was before the first install. *)
Theorem install_install_release w (A B : dsp_thread_queue) :
  queue (interpreter w) = None ->
  fifo (interpreter w) = [] ->
  node_count (interpreter w) = 0 ->
  freshly_built (heap w) A ->
  freshly_built (heap w) B ->
  (forall p, p ∈ queue_items A -> p ∉ queue_items B) ->
  exists w3,
    (r1 <- reset_queue (Some A) ;;
     r2 <- reset_queue (Some B) ;;
     r3 <- release_queue ;;
     ret (r1, r2, r3)) w = Returns ((None, Some A, Some B), w3) /\
    queue (interpreter w3) = None /\
    fifo (interpreter w3) = [] /\
    node_count (interpreter w3) = 0 /\
    thread_count (interpreter w3) = thread_count (interpreter w).
Proof.
  intros Hq Hf Hn HA HB Hdisj.
  destruct (reset_activation_counts_fresh A w HA) as (w1 & HrA & HiA & HcA & HoutA).
  pose proof (reset_queue_some _ _ _ HrA) as HqA. cbv zeta in HqA.
  set (wA := World (heap w1) _ (calls w)) in HqA.
  assert (HB' : freshly_built (heap wA) B).
  { destruct HB as (Htot & Hnd & Hall). split; [exact Htot|]. split; [exact Hnd|].
    intros p Hp. cbn. rewrite HoutA; [auto|]. intros HpA. exact (Hdisj p HpA Hp). }
  destruct (reset_activation_counts_fresh B wA HB') as (w2 & HrB & HiB & HcB & HoutB).
  pose proof (reset_queue_some _ _ _ HrB) as HqB. cbv zeta in HqB.
  eexists. split.
  - unfold bind at 1. rewrite HqA. unfold bind at 1. rewrite HqB.
    unfold release_queue, get_interpreter, put_interpreter, bind, ret. cbn.
    rewrite Hq. reflexivity.
  - cbn. auto.
Qed.

(** ** The start of a tick *)

Lemma foreach_mark_as_runnable (l : list ptr) w :
  foreach l mark_as_runnable w =
    Returns (tt, set_interpreter (set_fifo (fifo (interpreter w) ++ l) (interpreter w)) w).
Proof.
  revert w. induction l as [|x l IH]; intros w.
  - cbn. unfold ret. rewrite app_nil_r. destruct w as [h [q tc u f n] c]; reflexivity.
  - cbn. unfold bind, mark_as_runnable, fifo_enqueue. rewrite IH. cbn.
    rewrite <- app_assoc. reflexivity.
Qed.

(** What [init_tick] has found and done when it returns true. *)
Lemma init_tick_true w w' :
  init_tick w = Returns (true, w') ->
  exists q,
    queue (interpreter w) = Some q /\
    total_node_count q <> 0 /\
    node_count (interpreter w) = 0 /\
    fifo (interpreter w) = [] /\
    w' = set_interpreter
           (set_fifo (initially_runnable_items q)
              (set_node_count (total_node_count q) (interpreter w))) w.
Proof.
  unfold init_tick, get_interpreter, bind. cbn.
  destruct (queue (interpreter w)) as [q|] eqn:Hq; [|discriminate].
  destruct (Z.eqb_spec (total_node_count q) 0) as [|Hne]; [discriminate|].
  unfold load_node_count, fifo_is_empty, store_node_count, assert. cbn.
  destruct (Z.eqb_spec (node_count (interpreter w)) 0) as [Hn|]; [|discriminate]. cbn.
  destruct (fifo (interpreter w)) eqn:Hf; [|discriminate]. cbn.
  rewrite foreach_mark_as_runnable. cbn. rewrite Hf. intros [= <-].
  exists q. repeat split; auto.
Qed.

(** C6: [init_tick] returns false exactly when no graph is installed or the
    installed graph has no node, and then leaves the world as it is;
    otherwise, called in the quiescent state that it asserts, it stores
    [total_node_count] into [node_count], enqueues the initially runnable
    nodes in the order of the graph and returns true. *)
Theorem init_tick_spec w :
  let i := interpreter w in
  let empty := queue i = None \/ exists q, queue i = Some q /\ total_node_count q = 0 in
  (empty -> init_tick w = Returns (false, w)) /\
  (forall q, queue i = Some q -> total_node_count q <> 0 ->
     node_count i = 0 -> fifo i = [] ->
     init_tick w =
       Returns (true,
                set_interpreter
                  (set_fifo (initially_runnable_items q)
                     (set_node_count (total_node_count q) i)) w)) /\
  (forall b w', init_tick w = Returns (b, w') -> (b = false <-> empty)).
Proof.
  intros i empty. unfold init_tick, get_interpreter, bind. cbn. fold i.
  split; [|split].
  - intros [Hq | (q & Hq & H0)]; rewrite Hq; [reflexivity|].
    rewrite H0. reflexivity.
  - intros q Hq Hne Hn Hf. rewrite Hq.
    destruct (Z.eqb_spec (total_node_count q) 0) as [|_]; [contradiction|].
    unfold load_node_count, fifo_is_empty, store_node_count, assert. cbn. fold i.
    rewrite Hn. cbn. fold i. rewrite Hf. cbn.
    rewrite foreach_mark_as_runnable. cbn. fold i. rewrite Hf. reflexivity.
  - intros b w' Hr. unfold empty. destruct (queue i) as [q|] eqn:Hq.
    + destruct (Z.eqb_spec (total_node_count q) 0) as [H0|Hne].
      * injection Hr as <- <-. split; eauto.
      * split.
        -- intros ->. exfalso. revert Hr.
           unfold load_node_count, fifo_is_empty, store_node_count, assert. cbn.
           destruct (node_count (interpreter w) =? 0); [|discriminate]. cbn.
           destruct (fifo (interpreter w)); [|discriminate]. cbn.
           rewrite foreach_mark_as_runnable. discriminate.
        -- intros [Hnone | (q' & [= <-] & H0)]; [discriminate | contradiction].
    + injection Hr as <- <-. split; auto.
Qed.


(** ** The run of a node *)

Lemma fetch_sub_activation_count_set_interpreter this i w :
  fetch_sub_activation_count this (set_interpreter i w) =
    match fetch_sub_activation_count this w with
    | Returns (r, w1) => Returns (r, set_interpreter i w1)
    | AssertionFailed => AssertionFailed
    | Undefined => Undefined
    | OutOfFuel => OutOfFuel
    end.
Proof.
  unfold fetch_sub_activation_count. cbn. destruct (heap w !! this); reflexivity.
Qed.

Lemma decrement_successors_set_interpreter (l : list ptr) i w :
  decrement_successors l (set_interpreter i w) =
    match decrement_successors l w with
    | Returns (r, w1) => Returns (r, set_interpreter i w1)
    | AssertionFailed => AssertionFailed
    | Undefined => Undefined
    | OutOfFuel => OutOfFuel
    end.
Proof.
  revert w. induction l as [|s l IH]; intros w; [reflexivity|].
  cbn [decrement_successors]. unfold bind.
  rewrite fetch_sub_activation_count_set_interpreter.
  destruct (fetch_sub_activation_count s w) as [[prev w1]| | |]; try reflexivity.
  unfold assert. destruct (0 <? prev); [|reflexivity].
  rewrite IH. destruct (decrement_successors l w1) as [[r w2]| | |]; reflexivity.
Qed.

(** The decrements change nothing but the heap, and in the heap nothing but
    counters. *)
Lemma decrement_successors_frame (l : list ptr) w r w1 :
  decrement_successors l w = Returns (r, w1) ->
  interpreter w1 = interpreter w /\ calls w1 = calls w /\
  forall p it, heap w !! p = Some it ->
    exists c, heap w1 !! p = Some (set_activation_count c it).
Proof.
  revert w r. induction l as [|s l IH]; intros w r.
  - cbn. intros [= <- <-]. repeat split. intros p it Hit. exists (activation_count it).
    rewrite Hit. by destruct it.
  - cbn. intros Hb. apply bind_returns in Hb as (prev & w2 & Hf & Hb).
    apply bind_returns in Hb as (u & w3 & Ha & Hb).
    apply assert_returns in Ha as [_ ->].
    apply bind_returns in Hb as (r' & w4 & Hd & Hb). injection Hb as <- <-.
    apply IH in Hd as (Hi & Hc & Hh).
    unfold fetch_sub_activation_count in Hf.
    destruct (heap w !! s) as [its|] eqn:Hs; [|discriminate].
    injection Hf as <- <-. cbn in *. repeat split; auto.
    intros p it Hit. destruct (decide (p = s)) as [->|Hne].
    + destruct (Hh s (set_activation_count
                        (activation_limit_t (activation_count its - 1)) its))
        as [c Hc']; [by rewrite lookup_insert_eq|].
      exists c. rewrite Hc'. rewrite Hs in Hit. injection Hit as ->. reflexivity.
    + apply Hh. by rewrite lookup_insert_ne.
Qed.

Lemma update_remaining_eq (l : list ptr) w :
  update_remaining l w =
    (ready <- decrement_successors l ;; foreach ready mark_as_runnable) w.
Proof.
  unfold update_remaining. revert w. induction l as [|s l IH]; intros w; [reflexivity|].
  cbn [foreach decrement_successors]. unfold dec_ref_count, bind.
  destruct (fetch_sub_activation_count s w) as [[prev w1]| | |]; try reflexivity.
  unfold assert. destruct (0 <? prev); [|reflexivity].
  destruct (prev =? 1).
  - unfold mark_as_runnable at 1, fifo_enqueue. rewrite IH. unfold bind.
    rewrite decrement_successors_set_interpreter.
    destruct (decrement_successors l w1) as [[r w2]| | |] eqn:Hd; try reflexivity.
    apply decrement_successors_frame in Hd as (Hi & _).
    unfold ret. rewrite !foreach_mark_as_runnable. cbn. rewrite Hi, <- app_assoc.
    reflexivity.
  - unfold ret at 1. rewrite IH. unfold bind.
    destruct (decrement_successors l w1) as [[r w2]| | |]; reflexivity.
Qed.

Lemma update_from_eq (l : list ptr) w :
  update_from l w =
    (ready <- decrement_successors l ;;
     match ready with
     | [] => ret None
     | first :: further => foreach further mark_as_runnable ;;; ret (Some first)
     end) w.
Proof.
  revert w. induction l as [|s l IH]; intros w; [reflexivity|].
  cbn [update_from decrement_successors]. unfold dec_ref_count_ptr, bind.
  destruct (fetch_sub_activation_count s w) as [[prev w1]| | |]; try reflexivity.
  unfold assert. destruct (0 <? prev); [|reflexivity].
  destruct (prev =? 1).
  - unfold ret at 1. rewrite update_remaining_eq. unfold bind.
    destruct (decrement_successors l w1) as [[r w2]| | |]; reflexivity.
  - unfold ret at 1. rewrite IH. unfold bind.
    destruct (decrement_successors l w1) as [[r w2]| | |]; reflexivity.
Qed.

Lemma run_eq this thread_index w :
  run this thread_index w = run_as_specified this thread_index w.
Proof.
  unfold run, run_as_specified, update_dependencies, bind.
  destruct (load_activation_count this w) as [[count w1]| | |]; try reflexivity.
  destruct (assert (count =? 0) w1) as [[u w2]| | |]; try reflexivity.
  destruct (call_job this thread_index w2) as [[u' w3]| | |]; try reflexivity.
  destruct (deref this w3) as [[it w4]| | |]; try reflexivity.
  rewrite update_from_eq. unfold bind.
  destruct (decrement_successors (successors it) w4) as [[ready w5]| | |]; try reflexivity.
  destruct ready as [|first further]; [reflexivity|].
  destruct (foreach further mark_as_runnable w5) as [[u2 w6]| | |]; reflexivity.
Qed.

(** What a returning [run] has done to its own node and to the record of
    calls. *)
Lemma run_returns this thread_index w next w' :
  run this thread_index w = Returns (next, w') ->
  exists it,
    heap w !! this = Some it /\ activation_count it = 0 /\
    heap w' !! this = Some (set_activation_count (activation_limit it) it) /\
    calls w' = calls w ++ [(this, thread_index)].
Proof.
  rewrite run_eq. unfold run_as_specified. intros Hr.
  apply bind_returns in Hr as (count & w1 & Hload & Hr).
  apply bind_returns in Hload as (it & w0 & Hderef & Hret).
  apply deref_returns in Hderef as [Hit ->]. injection Hret as <- <-.
  apply bind_returns in Hr as (u & w2 & Ha & Hr).
  apply assert_returns in Ha as [Hc ->]. apply Z.eqb_eq in Hc.
  apply bind_returns in Hr as (u1 & w3 & Hjob & Hr).
  injection Hjob as <- <-.
  apply bind_returns in Hr as (it' & w4 & Hderef & Hr).
  apply deref_returns in Hderef as [Hit' ->]. cbn in Hit'.
  assert (it' = it) as -> by congruence.
  apply bind_returns in Hr as (ready & w5 & Hdec & Hr).
  apply decrement_successors_frame in Hdec as (Hi5 & Hc5 & Hh5).
  destruct (Hh5 this it Hit) as [c Hthis]. cbn in Hc5.
  assert (Hreset : forall w6 u6 w7,
            heap w6 = heap w5 -> calls w6 = calls w5 ->
            reset_activation_count this w6 = Returns (u6, w7) ->
            heap w7 !! this = Some (set_activation_count (activation_limit it) it) /\
            calls w7 = calls w ++ [(this, thread_index)]).
  { intros w6 u6 w7 Hh6 Hc6 Hrs.
    rewrite (reset_activation_count_eq this w6 (set_activation_count c it)) in Hrs
      by (rewrite Hh6; exact Hthis).
    destruct (activation_count (set_activation_count c it) =? 0); [|discriminate].
    injection Hrs as <- <-. cbn. rewrite lookup_insert_eq, Hc6, Hc5. auto. }
  exists it. split; [exact Hit|]. split; [exact Hc|].
  destruct ready as [|first further].
  - apply bind_returns in Hr as (u6 & w7 & Hrs & Hr). injection Hr as <- <-.
    eapply Hreset; [| | exact Hrs]; reflexivity.
  - apply bind_returns in Hr as (u5 & w6 & Hen & Hr).
    rewrite foreach_mark_as_runnable in Hen. injection Hen as <- <-.
    apply bind_returns in Hr as (u6 & w7 & Hrs & Hr). injection Hr as <- <-.
    eapply Hreset; [| | exact Hrs]; reflexivity.
Qed.

(** C5: when [run] returns, the counter of the node it ran on equals the
    node's [activation_limit], which is the limit the node had before. *)
Theorem run_resets_activation_count this thread_index w it next w' :
  heap w !! this = Some it ->
  run this thread_index w = Returns (next, w') ->
  exists it',
    heap w' !! this = Some it' /\
    activation_count it' = activation_limit it' /\
    activation_limit it' = activation_limit it.
Proof.
  intros Hit Hr. apply run_returns in Hr as (it0 & Hit0 & _ & Hit' & _).
  assert (it0 = it) as -> by congruence.
  eexists. split; [exact Hit'|]. split; reflexivity.
Qed.

(** ** The worker loop *)

Lemma node_count_t_add_l a b : node_count_t (node_count_t a + b) = node_count_t (a + b).
Proof.
  unfold node_count_t. pose proof pow_fast16_pos. apply Zplus_mod_idemp_l.
Qed.

(** A chain that ends has called the job of the dequeued node and of each
    node that a [run] returned; [consumed] has counted them. *)
Lemma run_chain_returns fuel p index c w c' w' :
  run_chain fuel p index c w = Returns (c', w') ->
  exists chain,
    calls w' = calls w ++ map (fun q => (q, uint8_t index)) (p :: chain) /\
    c' = node_count_t (c + Z.of_nat (length (p :: chain))).
Proof.
  revert p c w. induction fuel as [|fuel IH]; intros p c w; [discriminate|].
  cbn [run_chain]. intros Hr.
  apply bind_returns in Hr as (next & w1 & Hrun & Hr).
  apply run_returns in Hrun as (it & _ & _ & _ & Hcalls).
  destruct next as [q|].
  - apply IH in Hr as (chain & Hc & ->). exists (q :: chain). split.
    + rewrite Hc, Hcalls, <- app_assoc. reflexivity.
    + rewrite node_count_t_add_l. f_equal. cbn [length]. lia.
  - injection Hr as <- <-. exists []. split; [exact Hcalls|]. reflexivity.
Qed.

(** C8: when the chain that starts at the dequeued node has ended,
    [consumed] is the number of nodes run in it; [run_next_item] subtracts
    [consumed] from [node_count] in one fetch-and-subtract and reports
    [no_remaining_items] exactly when the value before the subtraction was
    [consumed]; on that report [run_item] returns, otherwise it goes through
    its loop again. *)
Theorem run_next_item_accounts fuel index w p w1 consumed w2 :
  fifo_dequeue w = Returns (Some p, w1) ->
  run_chain (S fuel) p index 0 w1 = Returns (consumed, w2) ->
  let remaining := node_count (interpreter w2) in
  let w3 := set_interpreter
              (set_node_count (node_count_t (remaining - consumed)) (interpreter w2)) w2 in
  (exists chain,
     calls w2 = calls w1 ++ map (fun q => (q, uint8_t index)) (p :: chain) /\
     consumed = node_count_t (Z.of_nat (length (p :: chain)))) /\
  run_next_item (S fuel) index w =
    (if consumed <=? remaining
     then Returns (if remaining =? consumed then no_remaining_items else remaining_items, w3)
     else AssertionFailed) /\
  (node_count (interpreter w) <> 0 -> consumed <= remaining ->
   run_item (S fuel) index w =
     if remaining =? consumed then Returns (tt, w3) else run_item fuel index w3).
Proof.
  intros Hdeq Hchain remaining w3.
  assert (Hnext : run_next_item (S fuel) index w =
            if consumed <=? remaining
            then Returns (if remaining =? consumed
                          then no_remaining_items else remaining_items, w3)
            else AssertionFailed).
  { unfold run_next_item, bind. rewrite Hdeq, Hchain.
    unfold fetch_sub_node_count, assert. fold remaining. fold w3.
    destruct (consumed <=? remaining); [|reflexivity].
    destruct (remaining =? consumed); reflexivity. }
  split; [|split].
  - apply run_chain_returns in Hchain as (chain & Hc & Hn). eauto.
  - exact Hnext.
  - intros Hnz Hle. cbn [run_item]. unfold bind, load_node_count.
    destruct (Z.eqb_spec (node_count (interpreter w)) 0) as [|_]; [contradiction|].
    rewrite Hnext. destruct (Z.leb_spec consumed remaining) as [_|]; [|lia].
    destruct (remaining =? consumed); reflexivity.
Qed.

End Sequential.

(** C2, at a node of in-degree 1: the constructed counter is not the
    limit. *)
Lemma constructor_activation_count_differs :
  activation_count (new_dsp_thread_queue_item tt [] 1)
  <> activation_limit (new_dsp_thread_queue_item tt [] 1).
Proof. cbn. discriminate. Qed.

Lemma constructor_activation_count_witness :
  reset_activation_count 4%positive diamond_world =
    Returns (tt, set_heap (<[4%positive := Item 2 tt [] 2]> (heap diamond_world))
                   diamond_world).
Proof.
  apply (constructor_activation_count tt [] 2). reflexivity.
Defined.

(** C3, at a node in mid-state: the assertion of
    [reset_activation_count] fails. *)
Lemma reset_activation_count_mid_state :
  heap mid_state_world !! 1%positive = Some (Item 1 tt [] 2) /\
  reset_activation_count 1%positive mid_state_world = AssertionFailed.
Proof. split; reflexivity. Qed.

Lemma reset_activation_count_spec_witness :
  reset_activation_count 4%positive diamond_world =
    Returns (tt, set_heap (<[4%positive := Item 2 tt [] 2]> (heap diamond_world))
                   diamond_world)
  /\ reset_activation_count 1%positive mid_state_world = AssertionFailed.
Proof.
  split.
  - apply (reset_activation_count_spec 4%positive diamond_world
             (new_dsp_thread_queue_item tt [] 2)); reflexivity.
  - apply (reset_activation_count_spec 1%positive mid_state_world (Item 1 tt [] 2));
      [reflexivity | cbn; discriminate].
Defined.

(** ** The lifecycle on the diamond *)

Lemma diamond_freshly_built : freshly_built (heap diamond_world) diamond_queue.
Proof.
  split; [reflexivity|]. split.
  - apply (bool_decide_unpack _). vm_compute. exact I.
  - intros p Hp. cbn in Hp.
    repeat (apply elem_of_cons in Hp as [->|Hp]); try (eexists; split; reflexivity).
    inversion Hp.
Defined.

Lemma single_freshly_built : freshly_built (heap diamond_world) single_queue.
Proof.
  split; [reflexivity|]. split.
  - apply (bool_decide_unpack _). vm_compute. exact I.
  - intros p Hp. cbn in Hp.
    repeat (apply elem_of_cons in Hp as [->|Hp]); try (eexists; split; reflexivity).
    inversion Hp.
Defined.

Lemma reset_queue_installs_witness :
  exists w',
    reset_queue (H := narrow_platform) (Some diamond_queue) diamond_world
    = Returns (None, w') /\
    used_helper_threads (interpreter w') = 1.
Proof.
  eexists. split.
  - eapply (reset_queue_installs (H := narrow_platform) diamond_world diamond_queue).
    + vm_compute. split; [discriminate | reflexivity].
    + vm_compute. discriminate.
    + vm_compute. reflexivity.
  - reflexivity.
Defined.

Lemma install_install_release_witness :
  exists w3,
    (r1 <- reset_queue (H := lp64_platform) (Some diamond_queue) ;;
     r2 <- reset_queue (H := lp64_platform) (Some single_queue) ;;
     r3 <- release_queue ;;
     ret (r1, r2, r3)) diamond_world
    = Returns ((None, Some diamond_queue, Some single_queue), w3) /\
    queue (interpreter w3) = None /\
    fifo (interpreter w3) = [] /\
    node_count (interpreter w3) = 0 /\
    thread_count (interpreter w3) = 2.
Proof.
  apply (install_install_release (H := lp64_platform) diamond_world
           diamond_queue single_queue);
    try reflexivity.
  - exact diamond_freshly_built.
  - exact single_freshly_built.
  - intros p Hp Hq. cbn in Hp, Hq.
    apply list_elem_of_singleton in Hq as ->.
    repeat (apply elem_of_cons in Hp as [Hp|Hp]; [discriminate|]).
    inversion Hp.
Defined.

Lemma init_tick_spec_witness :
  init_tick diamond_world = Returns (false, diamond_world) /\
  init_tick diamond_installed =
    Returns (true,
             set_interpreter
               (set_fifo [1%positive] (set_node_count 4 (interpreter diamond_installed)))
               diamond_installed) /\
  (false = false <->
   queue (interpreter diamond_world) = None \/
   exists q, queue (interpreter diamond_world) = Some q /\ total_node_count q = 0).
Proof.
  split; [|split].
  - apply (init_tick_spec diamond_world). left. reflexivity.
  - apply (proj1 (proj2 (init_tick_spec diamond_installed)) diamond_queue);
      [reflexivity | discriminate | reflexivity | reflexivity].
  - apply (proj2 (proj2 (init_tick_spec diamond_world)) false diamond_world).
    reflexivity.
Defined.

Lemma run_resets_activation_count_witness :
  exists next w' it',
    run (H := lp64_platform) 2%positive 0 diamond_after_A = Returns (next, w') /\
    heap w' !! 2%positive = Some it' /\
    activation_count it' = activation_limit it' /\
    activation_limit it' = 1.
Proof.
  eexists _, _.
  assert (Hrun : run (H := lp64_platform) 2%positive 0 diamond_after_A
                 = Returns (None, world_after (run (H := lp64_platform) 2%positive 0)
                                    diamond_after_A))
    by (vm_compute; reflexivity).
  destruct (run_resets_activation_count (H := lp64_platform) 2%positive 0
              diamond_after_A (Item 0 tt [4%positive] 1) _ _ eq_refl Hrun)
    as (it' & Hit' & Hc & Hl).
  exists it'. split; [exact Hrun|]. split; [exact Hit'|]. split; [exact Hc | exact Hl].
Defined.

Lemma run_next_item_accounts_witness :
  exists w3,
    run_next_item (H := lp64_platform) 3 0 diamond_seeded = Returns (remaining_items, w3) /\
    node_count (interpreter w3) = 2.
Proof.
  edestruct (run_next_item_accounts (H := lp64_platform) 2 0 diamond_seeded)
    as (_ & Hnext & _).
  - vm_compute. reflexivity.
  - vm_compute. reflexivity.
  - eexists. split; [exact Hnext | reflexivity].
Defined.

(** *** The diamond, built and run by one thread *)

(** The graph is what [add_queue_item] and [add_initially_runnable] build. *)
Example diamond_queue_built :
  (q1 ← add_queue_item (H := lp64_platform) 1%positive new_dsp_thread_queue;
   q2 ← add_queue_item (H := lp64_platform) 2%positive q1;
   q3 ← add_queue_item (H := lp64_platform) 3%positive q2;
   q4 ← add_queue_item (H := lp64_platform) 4%positive q3;
   Some (add_initially_runnable 1%positive q4)) = Some diamond_queue.
Proof. reflexivity. Qed.

(** The interpreter of [diamond_world] is the constructed one. *)
Example diamond_interpreter_constructed :
  new_dsp_queue_interpreter (H := lp64_platform) 2 0 = Some (interpreter diamond_world).
Proof. reflexivity. Qed.

(** Install, [init_tick] and [tick_master] without helpers: A, then B by
    the direct chain, then C from the FIFO and D by the direct chain; the
    counters are back at their limits. *)
Example diamond_single_thread :
  exists w,
    (reset_queue (H := lp64_platform) (Some diamond_queue) ;;;
     ok <- init_tick ;;
     tick_master (H := lp64_platform) 4 ;;;
     ret ok) diamond_world = Returns (true, w) /\
    calls w = [(1%positive, 0); (2%positive, 0); (3%positive, 0); (4%positive, 0)] /\
    node_count (interpreter w) = 0 /\ fifo (interpreter w) = [] /\
    activation_count <$> heap w !! 4%positive = Some 2.
Proof. eexists. split; [vm_compute; reflexivity|]. repeat split. Qed.

(** In the second tick every job is called once more. *)
Example diamond_two_ticks :
  exists w,
    (reset_queue (H := lp64_platform) (Some diamond_queue) ;;;
     init_tick ;;; tick_master (H := lp64_platform) 4 ;;;
     init_tick ;;; tick_master (H := lp64_platform) 4) diamond_world = Returns (tt, w) /\
    map fst (calls w)
    = [1%positive; 2%positive; 3%positive; 4%positive;
       1%positive; 2%positive; 3%positive; 4%positive].
Proof. eexists. split; [vm_compute; reflexivity|]. reflexivity. Qed.

(** ** Counting *)

Section Counting.

Implicit Types (p x : ptr) (l : list ptr).

Lemma occurrences_app p l1 l2 :
  occurrences p (l1 ++ l2) = (occurrences p l1 + occurrences p l2)%nat.
Proof. induction l1 as [|x l1 IH]; cbn; [reflexivity|]. rewrite IH. lia. Qed.

Lemma occurrences_zero p l : occurrences p l = 0%nat <-> p ∉ l.
Proof.
  induction l as [|x l IH]; cbn.
  - split; [intros _ Hin; inversion Hin | reflexivity].
  - rewrite not_elem_of_cons. case_decide; subst.
    + split; [lia | intros [Hne _]; contradiction].
    + rewrite <- IH. split; [intros; split; [congruence | lia] | intros [_ ?]; lia].
Qed.

Lemma occurrences_pos p l : (0 < occurrences p l)%nat <-> p ∈ l.
Proof.
  destruct (decide (p ∈ l)) as [Hin|Hnin].
  - split; [auto|]. intros _.
    destruct (occurrences p l) eqn:E; [|lia].
    apply occurrences_zero in E. contradiction.
  - apply occurrences_zero in Hnin as E. rewrite E. split; [lia | contradiction].
Qed.

Lemma occurrences_option_list p (o : option ptr) :
  occurrences p (option_list o) =
    match o with Some x => if decide (x = p) then 1%nat else 0%nat | None => 0%nat end.
Proof. destruct o; cbn; [lia | reflexivity]. Qed.

Lemma occurrences_take_le p l n : (occurrences p (take n l) <= occurrences p l)%nat.
Proof.
  rewrite <- (take_drop n l) at 2. rewrite occurrences_app. lia.
Qed.

Lemma occurrences_take_S p l n x :
  l !! n = Some x ->
  occurrences p (take (S n) l) =
    (occurrences p (take n l) + if decide (x = p) then 1 else 0)%nat.
Proof.
  intros Hx. rewrite (take_S_r _ _ _ Hx), occurrences_app. cbn. lia.
Qed.

Lemma occurrences_take_lt l n x :
  l !! n = Some x -> (occurrences x (take n l) < occurrences x l)%nat.
Proof.
  intros Hx. pose proof (occurrences_take_le x l (S n)) as Hle.
  rewrite (occurrences_take_S _ _ _ _ Hx) in Hle.
  rewrite decide_True in Hle by reflexivity. lia.
Qed.

Lemma occurrences_NoDup l : (forall p, (occurrences p l <= 1)%nat) -> NoDup l.
Proof.
  induction l as [|x l IH]; intros Hocc; [constructor|].
  constructor.
  - apply occurrences_zero. specialize (Hocc x). cbn in Hocc.
    rewrite decide_True in Hocc by reflexivity. lia.
  - apply IH. intros p. specialize (Hocc p). cbn in Hocc. lia.
Qed.

Lemma NoDup_occurrences l p : NoDup l -> (occurrences p l <= 1)%nat.
Proof.
  induction 1 as [|x l Hx _ IH]; cbn; [lia|].
  case_decide; [|lia]. subst. apply occurrences_zero in Hx. lia.
Qed.

(** Sums over a list of which one summand changes. *)
Lemma sum_list_with_insert {A} (f : A -> nat) (ts : list A) i t t' :
  ts !! i = Some t ->
  (sum_list_with f (<[i := t']> ts) + f t = sum_list_with f ts + f t')%nat.
Proof.
  revert i. induction ts as [|a ts IH]; intros [|i] Hi; try discriminate; simpl in *.
  - injection Hi as ->. lia.
  - specialize (IH i Hi). lia.
Qed.

Lemma sum_list_with_two {A} (f : A -> nat) (ts : list A) i j a b :
  ts !! i = Some a -> ts !! j = Some b -> i <> j ->
  (f a + f b <= sum_list_with f ts)%nat.
Proof.
  revert i j. induction ts as [|c ts IH]; intros [|i] [|j] Hi Hj Hne;
    try discriminate; try contradiction; cbn in *.
  - injection Hi as ->.
    pose proof (sum_list_with_in b f ts (list_elem_of_lookup_2 _ _ _ Hj)). lia.
  - injection Hj as ->.
    pose proof (sum_list_with_in a f ts (list_elem_of_lookup_2 _ _ _ Hi)). lia.
  - assert (i <> j) by congruence. specialize (IH i j Hi Hj). lia.
Qed.

Lemma sum_list_with_ext_in {A} (f f' : A -> nat) (l : list A) :
  (forall u, u ∈ l -> f' u = f u) -> sum_list_with f' l = sum_list_with f l.
Proof.
  induction l as [|a l IH]; intros Hext; cbn; [reflexivity|].
  rewrite Hext by left. rewrite IH; [reflexivity|].
  intros u Hu. apply Hext. by right.
Qed.

Lemma sum_list_with_le {A} (f f' : A -> nat) (l : list A) :
  (forall u, u ∈ l -> (f u <= f' u)%nat) -> (sum_list_with f l <= sum_list_with f' l)%nat.
Proof.
  induction l as [|a l IH]; intros Hle; cbn; [lia|].
  pose proof (Hle a ltac:(left)). 
  assert (sum_list_with f l <= sum_list_with f' l)%nat
    by (apply IH; intros u Hu; apply Hle; by right).
  lia.
Qed.

Lemma sum_list_with_lt {A} (f f' : A -> nat) (l : list A) a :
  a ∈ l -> (f a < f' a)%nat ->
  (forall u, u ∈ l -> (f u <= f' u)%nat) -> (sum_list_with f l < sum_list_with f' l)%nat.
Proof.
  induction l as [|b l IH]; intros Ha Hlt Hle; [inversion Ha|]. cbn.
  assert (Hrest : (sum_list_with f l <= sum_list_with f' l)%nat)
    by (apply sum_list_with_le; intros u Hu; apply Hle; by right).
  apply elem_of_cons in Ha as [->|Ha].
  - lia.
  - pose proof (Hle b ltac:(left)).
    assert (sum_list_with f l < sum_list_with f' l)%nat
      by (apply IH; auto; intros u Hu; apply Hle; by right).
    lia.
Qed.

(** A sum over a list without repetition, of which the summand at [p]
    changes. *)
Lemma sum_list_with_update (f f' : ptr -> nat) l p :
  NoDup l -> p ∈ l -> (forall u, u <> p -> f' u = f u) ->
  (sum_list_with f' l + f p = sum_list_with f l + f' p)%nat.
Proof.
  intros Hnd Hp Hext. induction Hnd as [|x l Hx Hnd IH]; [inversion Hp|]. cbn.
  apply elem_of_cons in Hp as [->|Hp].
  - rewrite (sum_list_with_ext_in f f' l); [lia|].
    intros u Hu. apply Hext. intros ->. contradiction.
  - rewrite (Hext x) by (intros ->; contradiction). specialize (IH Hp). lia.
Qed.

(** An element of least rank. *)
Lemma least_rank (rank : ptr -> nat) l :
  l <> [] -> exists x, x ∈ l /\ forall y, y ∈ l -> (rank x <= rank y)%nat.
Proof.
  induction l as [|a l IH]; intros Hne; [contradiction|].
  destruct l as [|b l].
  - exists a. split; [left|]. intros y Hy. apply list_elem_of_singleton in Hy as ->. lia.
  - destruct IH as (x & Hx & Hmin); [discriminate|].
    destruct (le_lt_dec (rank a) (rank x)).
    + exists a. split; [left|]. intros y Hy.
      apply elem_of_cons in Hy as [->|Hy]; [lia|]. specialize (Hmin y Hy). lia.
    + exists x. split; [by right|]. intros y Hy.
      apply elem_of_cons in Hy as [->|Hy]; [lia | auto].
Qed.

(** Sums of the numbers in flight. *)
Lemma flights_cons (t : thread) (ts : list thread) :
  flights (t :: ts) = in_flight (pos t) + flights ts.
Proof. reflexivity. Qed.

Lemma flights_insert (ts : list thread) i t t' :
  ts !! i = Some t ->
  flights (<[i := t']> ts) + in_flight (pos t) = flights ts + in_flight (pos t').
Proof.
  revert i. induction ts as [|a ts IH]; intros [|i] Hi; try discriminate.
  - injection Hi as ->. change (<[0%nat := t']> (t :: ts)) with (t' :: ts).
    rewrite !flights_cons. lia.
  - change (<[S i := t']> (a :: ts)) with (a :: <[i := t']> ts).
    rewrite !flights_cons. specialize (IH i Hi). lia.
Qed.

Lemma flights_nonneg (ts : list thread) :
  (forall u, u ∈ ts -> 0 <= in_flight (pos u)) -> 0 <= flights ts.
Proof.
  induction ts as [|a ts IH]; intros Hpos; [reflexivity|].
  rewrite flights_cons. pose proof (Hpos a ltac:(left)).
  assert (0 <= flights ts) by (apply IH; intros u Hu; apply Hpos; by right).
  lia.
Qed.

Lemma flights_lookup_le (ts : list thread) i t :
  (forall u, u ∈ ts -> 0 <= in_flight (pos u)) ->
  ts !! i = Some t -> in_flight (pos t) <= flights ts.
Proof.
  revert i. induction ts as [|a ts IH]; intros [|i] Hpos Hi; try discriminate;
    rewrite flights_cons.
  - injection Hi as ->.
    assert (0 <= flights ts)
      by (apply flights_nonneg; intros u Hu; apply Hpos; by right).
    lia.
  - pose proof (Hpos a ltac:(left)).
    assert (in_flight (pos t) <= flights ts)
      by (apply (IH i); auto; intros u Hu; apply Hpos; by right).
    lia.
Qed.

End Counting.

(** ** The invariant of a tick *)

Section Tick.

Context `{Platform}.
Context {runnable : Type}.

Variable h0 : gmap ptr (dsp_thread_queue_item runnable).
Variable calls0 : list (ptr * Z).
Variable g : dsp_thread_queue.

Hypothesis Hwf : well_formed h0 g.

Local Abbreviation nodes := (queue_items g).
Local Abbreviation succs := (successors_of h0).
Local Abbreviation lim := (limit_of h0).
Local Abbreviation done := (edges_done (successors_of h0) (queue_items g)).
Local Abbreviation inv := (tick_invariant_at h0 calls0 g).

Implicit Types (k : ptr -> nat) (c : config runnable) (t : thread)
  (p s v : ptr) (w : world runnable) (l : position).

(** The state of a node, case by case. *)
Ltac split_node H :=
  unfold node_ok in H; destruct H as [H|[H|[H|H]]].

Ltac same_node H :=
  split_node H;
  [left | right; left | right; right; left | right; right; right]; lia.

(** *** Decrements received *)

Lemma edges_done_le k v : (done k v <= in_degree h0 nodes v)%nat.
Proof.
  apply sum_list_with_le. intros u _. apply occurrences_take_le.
Qed.

Lemma edges_done_lt k p s :
  p ∈ nodes -> succs p !! k p = Some s -> (done k s < in_degree h0 nodes s)%nat.
Proof.
  intros Hp Hs. apply (sum_list_with_lt _ _ _ p); [exact Hp | |].
  - by apply occurrences_take_lt.
  - intros u _. apply occurrences_take_le.
Qed.

Lemma edges_done_advance k p s v :
  p ∈ nodes -> succs p !! k p = Some s ->
  done (advance k p (S (k p))) v = (done k v + if decide (s = v) then 1 else 0)%nat.
Proof.
  intros Hp Hs. unfold edges_done.
  set (f := fun u => occurrences v (take (k u) (succs u))).
  set (f' := fun u => occurrences v (take (advance k p (S (k p)) u) (succs u))).
  assert (Hext : forall u, u <> p -> f' u = f u).
  { intros u Hu. unfold f', f, advance. by rewrite decide_False. }
  assert (Hp' : f' p = (f p + if decide (s = v) then 1 else 0)%nat).
  { unfold f', f, advance. rewrite decide_True by reflexivity.
    apply occurrences_take_S, Hs. }
  pose proof (sum_list_with_update f f' nodes p (wf_owned _ _ Hwf) Hp Hext). lia.
Qed.

Lemma edges_done_none k v :
  (forall u, u ∈ nodes -> k u = 0%nat) -> done k v = 0%nat.
Proof.
  intros Hk. unfold edges_done.
  rewrite (sum_list_with_ext_in (fun _ => 0%nat)).
  - generalize nodes. intros l. induction l as [|a l IH]; [reflexivity | exact IH].
  - intros u Hu. rewrite (Hk u Hu). reflexivity.
Qed.

Lemma edges_done_all k v :
  (forall u, u ∈ nodes -> v ∈ succs u -> k u = length (succs u)) ->
  done k v = in_degree h0 nodes v.
Proof.
  intros Hk. unfold edges_done, in_degree. apply sum_list_with_ext_in.
  intros u Hu. destruct (decide (v ∈ succs u)) as [Hin|Hnin].
  - rewrite (Hk u Hu Hin), firstn_all. reflexivity.
  - apply occurrences_zero in Hnin as E. rewrite E.
    pose proof (occurrences_take_le v (succs u) (k u)). lia.
Qed.

(** *** One worker steps *)

Lemma step_of_returns c i t l w :
  threads c !! i = Some t ->
  can_step (pos t) = true ->
  next_position t (shared c) = Returns (l, w) ->
  step_of i c = Config w (<[i := set_pos l t]> (threads c)).
Proof.
  intros Hi Hcan Hnext. unfold step_of, thread_step.
  rewrite Hi, Hcan, Hnext. reflexivity.
Qed.

Lemma tokens_step c i t l w p :
  threads c !! i = Some t ->
  (tokens (Config w (<[i := set_pos l t]> (threads c))) p
   + occurrences p (fifo (interpreter (shared c))) + occurrences p (holds (pos t))
   = tokens c p + occurrences p (fifo (interpreter w)) + occurrences p (holds l))%nat.
Proof.
  intros Hi. unfold tokens, holders. cbn [shared threads].
  pose proof (sum_list_with_insert (fun t => occurrences p (holds (pos t)))
                (threads c) i t (set_pos l t) Hi) as Hs.
  cbn [pos set_pos] in Hs. lia.
Qed.

Lemma runners_step (ts : list thread) i t l p :
  ts !! i = Some t ->
  (runners (<[i := set_pos l t]> ts) p + occurrences p (runs (pos t))
   = runners ts p + occurrences p (runs l))%nat.
Proof.
  intros Hi. unfold runners.
  pose proof (sum_list_with_insert (fun t => occurrences p (runs (pos t)))
                ts i t (set_pos l t) Hi) as Hs.
  cbn [pos set_pos] in Hs. lia.
Qed.

Lemma flights_step (ts : list thread) i t l :
  ts !! i = Some t ->
  flights (<[i := set_pos l t]> ts) + in_flight (pos t) = flights ts + in_flight l.
Proof. intros Hi. apply (flights_insert ts i t (set_pos l t) Hi). Qed.

Lemma threads_step (P : thread -> Prop) (ts : list thread) i t' :
  (forall j u, ts !! j = Some u -> j <> i -> P u) ->
  P t' ->
  forall u, u ∈ <[i := t']> ts -> P u.
Proof.
  intros Hother Ht' u Hu. apply list_elem_of_lookup in Hu as [j Hj].
  destruct (decide (i = j)) as [->|Hne].
  - destruct (decide (j < length ts)%nat) as [Hlt|Hge].
    + rewrite list_lookup_insert_eq in Hj by exact Hlt. by injection Hj as <-.
    + rewrite list_insert_ge in Hj by lia.
      apply lookup_lt_Some in Hj. lia.
  - rewrite list_lookup_insert_ne in Hj by exact Hne. eapply Hother; eauto.
Qed.

(** A worker that runs a node is the only one. *)
Lemma runner_unique k log c i j t u p :
  inv k log c -> threads c !! i = Some t -> threads c !! j = Some u -> i <> j ->
  p ∈ runs (pos t) -> p ∉ runs (pos u).
Proof.
  intros Hinv Hi Hj Hne Hp Hq.
  apply occurrences_pos in Hp. apply occurrences_pos in Hq.
  pose proof (sum_list_with_two (fun t => occurrences p (runs (pos t)))
                (threads c) i j t u Hi Hj Hne) as Hsum.
  cbv beta in Hsum. fold (runners (threads c) p) in Hsum.
  destruct (decide (p ∈ nodes)) as [Hin|Hout].
  - pose proof (inv_nodes _ _ _ _ _ _ Hinv p Hin) as Hn. split_node Hn; lia.
  - pose proof (inv_outside _ _ _ _ _ _ Hinv p Hout). lia.
Qed.

(** A node in the hand of a worker, or run by one, is a node of the
    graph. *)
Lemma held_is_node k log c i t p :
  inv k log c -> threads c !! i = Some t -> p ∈ holds (pos t) -> p ∈ nodes.
Proof.
  intros Hinv Hi Hp. destruct (decide (p ∈ nodes)) as [|Hout]; [assumption|].
  exfalso. pose proof (inv_outside _ _ _ _ _ _ Hinv p Hout) as (HT & _).
  apply occurrences_pos in Hp. unfold tokens, holders in HT.
  pose proof (sum_list_with_in t (fun t => occurrences p (holds (pos t)))
                (threads c) (list_elem_of_lookup_2 _ _ _ Hi)). cbv beta in *. lia.
Qed.

Lemma run_is_node k log c i t p :
  inv k log c -> threads c !! i = Some t -> p ∈ runs (pos t) -> p ∈ nodes.
Proof.
  intros Hinv Hi Hp. destruct (decide (p ∈ nodes)) as [|Hout]; [assumption|].
  exfalso. pose proof (inv_outside _ _ _ _ _ _ Hinv p Hout) as (_ & HR & _).
  apply occurrences_pos in Hp. unfold runners in HR.
  pose proof (sum_list_with_in t (fun t => occurrences p (runs (pos t)))
                (threads c) (list_elem_of_lookup_2 _ _ _ Hi)). cbv beta in *. lia.
Qed.

Lemma held_count k log c i t p :
  inv k log c -> threads c !! i = Some t -> p ∈ holds (pos t) ->
  (1 <= tokens c p)%nat.
Proof.
  intros Hinv Hi Hp. apply occurrences_pos in Hp. unfold tokens, holders.
  pose proof (sum_list_with_in t (fun t => occurrences p (holds (pos t)))
                (threads c) (list_elem_of_lookup_2 _ _ _ Hi)). cbv beta in *. lia.
Qed.

Lemma run_count k log c i t p :
  inv k log c -> threads c !! i = Some t -> p ∈ runs (pos t) ->
  (1 <= runners (threads c) p)%nat.
Proof.
  intros Hinv Hi Hp. apply occurrences_pos in Hp. unfold runners.
  pose proof (sum_list_with_in t (fun t => occurrences p (runs (pos t)))
                (threads c) (list_elem_of_lookup_2 _ _ _ Hi)). cbv beta in *. lia.
Qed.


(** *** What the invariant says about the whole tick *)

Lemma log_at_most_once k log c p :
  inv k log c -> (occurrences p (map fst log) <= 1)%nat.
Proof.
  intros Hinv. destruct (decide (p ∈ nodes)) as [Hin|Hout].
  - pose proof (inv_nodes _ _ _ _ _ _ Hinv p Hin) as Hn. split_node Hn; lia.
  - pose proof (inv_outside _ _ _ _ _ _ Hinv p Hout). lia.
Qed.

Lemma log_of_nodes k log c p :
  inv k log c -> p ∈ map fst log -> p ∈ nodes.
Proof.
  intros Hinv Hp. destruct (decide (p ∈ nodes)) as [|Hout]; [assumption|].
  pose proof (inv_outside _ _ _ _ _ _ Hinv p Hout) as (_ & _ & HL).
  apply occurrences_zero in HL. contradiction.
Qed.

Lemma log_submseteq k log c : inv k log c -> map fst log ⊆+ nodes.
Proof.
  intros Hinv. apply NoDup_submseteq.
  - apply occurrences_NoDup. intros p. eapply log_at_most_once, Hinv.
  - intros p. eapply log_of_nodes, Hinv.
Qed.

Lemma log_length_le k log c :
  inv k log c -> Z.of_nat (length log) <= total_node_count g.
Proof.
  intros Hinv. rewrite (wf_total _ _ Hwf).
  pose proof (submseteq_length _ _ (log_submseteq _ _ _ Hinv)) as Hle.
  rewrite List.length_map in Hle. lia.
Qed.

Lemma in_flight_nonneg k nc l : position_ok succs k nc l -> 0 <= in_flight l.
Proof. destruct l; cbn; try lia; tauto. Qed.

Lemma flights_inv_nonneg k log c : inv k log c -> 0 <= flights (threads c).
Proof.
  intros Hinv. apply flights_nonneg. intros u Hu.
  eapply in_flight_nonneg, (inv_threads _ _ _ _ _ _ Hinv), Hu.
Qed.

Lemma node_count_nonneg k log c :
  inv k log c -> 0 <= node_count (interpreter (shared c)).
Proof.
  intros Hinv. rewrite (inv_count _ _ _ _ _ _ Hinv).
  pose proof (log_length_le _ _ _ Hinv). pose proof (flights_inv_nonneg _ _ _ Hinv). lia.
Qed.

(** When [node_count] is 0 the job of every node has been called, once,
    and no node is ready to run. *)
Lemma all_called k log c p :
  inv k log c -> node_count (interpreter (shared c)) = 0 ->
  p ∈ nodes -> occurrences p (map fst log) = 1%nat.
Proof.
  intros Hinv Hnc Hp.
  pose proof (log_length_le _ _ _ Hinv) as Hle.
  pose proof (flights_inv_nonneg _ _ _ Hinv) as Hfl.
  pose proof (inv_count _ _ _ _ _ _ Hinv) as Hcount. rewrite Hnc in Hcount.
  assert (Hlen : (length nodes <= length (map fst log))%nat).
  { rewrite List.length_map. pose proof (wf_total _ _ Hwf). lia. }
  pose proof (submseteq_length_Permutation _ _ (log_submseteq _ _ _ Hinv) Hlen) as Hperm.
  assert (Hin : p ∈ map fst log) by (rewrite Hperm; exact Hp).
  apply occurrences_pos in Hin. pose proof (log_at_most_once _ _ _ p Hinv). lia.
Qed.

Lemma no_token_at_end k log c p :
  inv k log c -> node_count (interpreter (shared c)) = 0 -> tokens c p = 0%nat.
Proof.
  intros Hinv Hnc. destruct (decide (p ∈ nodes)) as [Hin|Hout].
  - pose proof (all_called _ _ _ p Hinv Hnc Hin) as HL.
    pose proof (inv_nodes _ _ _ _ _ _ Hinv p Hin) as Hn. split_node Hn; lia.
  - by pose proof (inv_outside _ _ _ _ _ _ Hinv p Hout) as (HT & _).
Qed.

Lemma fifo_empty_at_end k log c :
  inv k log c -> node_count (interpreter (shared c)) = 0 ->
  fifo (interpreter (shared c)) = [].
Proof.
  intros Hinv Hnc. destruct (fifo (interpreter (shared c))) as [|x rest] eqn:Hf;
    [reflexivity|].
  pose proof (no_token_at_end _ _ _ x Hinv Hnc) as HT. unfold tokens in HT.
  rewrite Hf in HT. cbn in HT. rewrite decide_True in HT by reflexivity. lia.
Qed.

Lemma position_ok_node_count k nc nc' l :
  0 <= nc' <= nc -> position_ok succs k nc l -> position_ok succs k nc' l.
Proof. intros Hle. destruct l; cbn; auto; lia. Qed.

(** *** Steps that move no node from one state to another *)

Lemma invariant_frame k log c i t l w :
  inv k log c -> threads c !! i = Some t ->
  heap w = heap (shared c) ->
  calls w = calls (shared c) ->
  queue (interpreter w) = queue (interpreter (shared c)) ->
  0 <= node_count (interpreter w) <= node_count (interpreter (shared c)) ->
  node_count (interpreter w) - in_flight l
    = node_count (interpreter (shared c)) - in_flight (pos t) ->
  (forall p, (occurrences p (fifo (interpreter w)) + occurrences p (holds l)
              = occurrences p (fifo (interpreter (shared c)))
                + occurrences p (holds (pos t)))%nat) ->
  runs l = runs (pos t) ->
  position_ok succs k (node_count (interpreter w)) l ->
  inv k log (Config w (<[i := set_pos l t]> (threads c))).
Proof.
  intros Hinv Hi Hheap Hcalls Hqueue Hnc Hfl Hfifo Hruns Hpos.
  assert (HT : forall p, tokens (Config w (<[i := set_pos l t]> (threads c))) p
                         = tokens c p).
  { intros p. pose proof (tokens_step c i t l w p Hi). specialize (Hfifo p). lia. }
  assert (HR : forall p, runners (<[i := set_pos l t]> (threads c)) p
                         = runners (threads c) p).
  { intros p. pose proof (runners_step (threads c) i t l p Hi) as Hr.
    rewrite Hruns in Hr. lia. }
  constructor; cbn [shared threads].
  - rewrite Hcalls. apply Hinv.
  - rewrite Hqueue. apply Hinv.
  - rewrite Hheap. apply Hinv.
  - intros p Hp. rewrite HT, HR. by apply Hinv.
  - intros p Hp. rewrite HT, HR, Hheap. by apply Hinv.
  - apply threads_step.
    + intros j u Hj _. apply (position_ok_node_count _ _ _ _ Hnc).
      apply (inv_threads _ _ _ _ _ _ Hinv), (list_elem_of_lookup_2 _ _ _ Hj).
    + exact Hpos.
  - pose proof (flights_step (threads c) i t l Hi).
    pose proof (inv_count _ _ _ _ _ _ Hinv). lia.
  - pose proof (inv_count_le _ _ _ _ _ _ Hinv). lia.
Qed.

(** The frame conditions on the world when the step leaves it as it is. *)
Lemma same_node_count k log c :
  inv k log c ->
  0 <= node_count (interpreter (shared c)) <= node_count (interpreter (shared c)).
Proof. intros Hinv. pose proof (node_count_nonneg _ _ _ Hinv). lia. Qed.

Lemma position_ok_at k log c i t :
  inv k log c -> threads c !! i = Some t ->
  position_ok succs k (node_count (interpreter (shared c))) (pos t).
Proof.
  intros Hinv Hi. apply (inv_threads _ _ _ _ _ _ Hinv), (list_elem_of_lookup_2 _ _ _ Hi).
Qed.

Lemma step_AtLoop k log c i t :
  inv k log c -> threads c !! i = Some t -> pos t = AtLoop ->
  inv k log (step_of i c).
Proof.
  intros Hinv Hi Hpos.
  set (n := node_count (interpreter (shared c))).
  rewrite (step_of_returns c i t (if n =? 0 then after_run_item t else AtDequeue)
             (shared c) Hi).
  - apply invariant_frame; auto; rewrite ?Hpos.
    + apply (same_node_count _ _ _ Hinv).
    + destruct (n =? 0); [unfold after_run_item; destruct (master t)|]; reflexivity.
    + intros p. destruct (n =? 0); [unfold after_run_item; destruct (master t)|];
        reflexivity.
    + destruct (n =? 0); [unfold after_run_item; destruct (master t)|]; reflexivity.
    + destruct (Z.eqb_spec n 0) as [Hn|Hn]; [|exact I].
      unfold after_run_item. destruct (master t); exact Hn.
  - rewrite Hpos. reflexivity.
  - unfold next_position. rewrite Hpos. reflexivity.
Qed.

Lemma step_AtDequeue k log c i t :
  inv k log c -> threads c !! i = Some t -> pos t = AtDequeue ->
  inv k log (step_of i c).
Proof.
  intros Hinv Hi Hpos.
  destruct (fifo (interpreter (shared c))) as [|p rest] eqn:Hfifo.
  - rewrite (step_of_returns c i t AtLoop (shared c) Hi).
    + apply invariant_frame; auto; rewrite ?Hpos;
        try (reflexivity || exact I).
      apply (same_node_count _ _ _ Hinv).
    + rewrite Hpos. reflexivity.
    + unfold next_position, bind, fifo_dequeue. rewrite Hpos, Hfifo. reflexivity.
  - rewrite (step_of_returns c i t (AtRun p 0)
               (set_interpreter (set_fifo rest (interpreter (shared c))) (shared c)) Hi).
    + apply invariant_frame; auto; rewrite ?Hpos, ?Hfifo; try reflexivity.
      * cbn. apply (same_node_count _ _ _ Hinv).
      * intros q. cbn. lia.
      * cbn. lia.
    + rewrite Hpos. reflexivity.
    + unfold next_position, bind, fifo_dequeue. rewrite Hpos, Hfifo. reflexivity.
Qed.

Lemma count_of_lookup (h : gmap ptr (dsp_thread_queue_item runnable)) p it :
  h !! p = Some it -> count_of h p = activation_count it.
Proof. intros Hp. unfold count_of. by rewrite Hp. Qed.

Lemma step_AtRun k log c i t p cn :
  inv k log c -> threads c !! i = Some t -> pos t = AtRun p cn ->
  inv k log (step_of i c).
Proof.
  intros Hinv Hi Hpos.
  assert (Hheld : p ∈ holds (pos t)) by (rewrite Hpos; left).
  pose proof (held_is_node _ _ _ _ _ _ Hinv Hi Hheld) as Hp.
  pose proof (held_count _ _ _ _ _ _ Hinv Hi Hheld) as HT.
  pose proof (inv_nodes _ _ _ _ _ _ Hinv p Hp) as Hn.
  destruct (inv_static _ _ _ _ _ _ Hinv p Hp) as (it & Hit & _).
  rewrite (count_of_lookup _ _ _ Hit) in Hn.
  assert (Hc : activation_count it = 0) by (split_node Hn; lia).
  rewrite (step_of_returns c i t (AtJob p cn) (shared c) Hi).
  - apply invariant_frame; auto; rewrite ?Hpos; try reflexivity.
    { apply (same_node_count _ _ _ Hinv). }
    pose proof (position_ok_at _ _ _ _ _ Hinv Hi) as Hok. rewrite Hpos in Hok. exact Hok.
  - rewrite Hpos. reflexivity.
  - unfold next_position, bind, load_activation_count, deref, bind, ret, assert.
    rewrite Hpos, Hit, Hc. reflexivity.
Qed.


Lemma running_node k log c i t p :
  inv k log c -> threads c !! i = Some t -> p ∈ runs (pos t) ->
  p ∈ nodes /\
  (k p <= length (succs p))%nat /\
  count_of (heap (shared c)) p = 0 /\
  Z.of_nat (done k p) = lim p /\
  tokens c p = 0%nat /\ runners (threads c) p = 1%nat /\
  occurrences p (map fst log) = 1%nat.
Proof.
  intros Hinv Hi Hrun.
  pose proof (run_is_node _ _ _ _ _ _ Hinv Hi Hrun) as Hp.
  pose proof (run_count _ _ _ _ _ _ Hinv Hi Hrun) as HR.
  pose proof (inv_nodes _ _ _ _ _ _ Hinv p Hp) as Hn.
  split; [exact Hp|]. split_node Hn; lia.
Qed.

Lemma ready_node k log c i t p :
  inv k log c -> threads c !! i = Some t -> p ∈ holds (pos t) ->
  p ∈ nodes /\
  k p = 0%nat /\
  count_of (heap (shared c)) p = 0 /\
  Z.of_nat (done k p) = lim p /\
  tokens c p = 1%nat /\ runners (threads c) p = 0%nat /\
  occurrences p (map fst log) = 0%nat.
Proof.
  intros Hinv Hi Hheld.
  pose proof (held_is_node _ _ _ _ _ _ Hinv Hi Hheld) as Hp.
  pose proof (held_count _ _ _ _ _ _ Hinv Hi Hheld) as HT.
  pose proof (inv_nodes _ _ _ _ _ _ Hinv p Hp) as Hn.
  split; [exact Hp|]. split_node Hn; lia.
Qed.

Lemma step_AtUpdate_nil k log c i t p cn next :
  inv k log c -> threads c !! i = Some t -> pos t = AtUpdate p cn [] next ->
  inv k log (step_of i c).
Proof.
  intros Hinv Hi Hpos.
  assert (Hrun : p ∈ runs (pos t)) by (rewrite Hpos; left).
  destruct (running_node _ _ _ _ _ _ Hinv Hi Hrun) as (Hp & Hk & _).
  pose proof (position_ok_at _ _ _ _ _ Hinv Hi) as Hok. rewrite Hpos in Hok.
  destruct Hok as [Hcn Hrest].
  assert (Hlen : k p = length (succs p)).
  { pose proof (length_drop (succs p) (k p)) as Hd. rewrite <- Hrest in Hd.
    cbn in Hd. lia. }
  rewrite (step_of_returns c i t (AtResetAssert p cn next) (shared c) Hi).
  - apply invariant_frame; auto; rewrite ?Hpos; try reflexivity.
    + apply (same_node_count _ _ _ Hinv).
    + split; assumption.
  - rewrite Hpos. reflexivity.
  - unfold next_position. rewrite Hpos. reflexivity.
Qed.

Lemma step_AtMark k log c i t p cn rest next s :
  inv k log c -> threads c !! i = Some t -> pos t = AtMark p cn rest next s ->
  inv k log (step_of i c).
Proof.
  intros Hinv Hi Hpos.
  pose proof (position_ok_at _ _ _ _ _ Hinv Hi) as Hok. rewrite Hpos in Hok.
  rewrite (step_of_returns c i t (AtUpdate p cn rest next)
             (set_interpreter
                (set_fifo (fifo (interpreter (shared c)) ++ [s]) (interpreter (shared c)))
                (shared c)) Hi).
  - apply invariant_frame; auto; rewrite ?Hpos; try reflexivity;
      try apply (same_node_count _ _ _ Hinv).
    intros q. cbn. rewrite occurrences_app. cbn. lia.
  - rewrite Hpos. reflexivity.
  - unfold next_position. rewrite Hpos. reflexivity.
Qed.

Lemma step_AtResetAssert k log c i t p cn next :
  inv k log c -> threads c !! i = Some t -> pos t = AtResetAssert p cn next ->
  inv k log (step_of i c).
Proof.
  intros Hinv Hi Hpos.
  assert (Hrun : p ∈ runs (pos t)) by (rewrite Hpos; left).
  destruct (running_node _ _ _ _ _ _ Hinv Hi Hrun) as (Hp & _ & Hc & _).
  destruct (inv_static _ _ _ _ _ _ Hinv p Hp) as (it & Hit & _).
  rewrite (count_of_lookup _ _ _ Hit) in Hc.
  pose proof (position_ok_at _ _ _ _ _ Hinv Hi) as Hok. rewrite Hpos in Hok.
  rewrite (step_of_returns c i t (AtResetStore p cn next) (shared c) Hi).
  - apply invariant_frame; auto; rewrite ?Hpos; try reflexivity;
      try apply (same_node_count _ _ _ Hinv); try exact Hok.
  - rewrite Hpos. reflexivity.
  - unfold next_position, bind, load_activation_count, deref, bind, ret, assert.
    rewrite Hpos, Hit, Hc. reflexivity.
Qed.

Lemma step_AtFetchSub k log c i t cn :
  inv k log c -> threads c !! i = Some t -> pos t = AtFetchSub cn ->
  inv k log (step_of i c).
Proof.
  intros Hinv Hi Hpos.
  set (nc := node_count (interpreter (shared c))).
  pose proof (position_ok_at _ _ _ _ _ Hinv Hi) as Hok. rewrite Hpos in Hok.
  cbn in Hok.
  assert (Hle : cn <= nc).
  { pose proof (flights_lookup_le (threads c) i t) as Hfl. rewrite Hpos in Hfl.
    cbn in Hfl. specialize (Hfl ltac:(intros u Hu; eapply in_flight_nonneg,
                                       (inv_threads _ _ _ _ _ _ Hinv), Hu) Hi).
    pose proof (inv_count _ _ _ _ _ _ Hinv). pose proof (log_length_le _ _ _ Hinv).
    unfold nc. lia. }
  assert (Hsmall : node_count_t (nc - cn) = nc - cn).
  { apply node_count_t_small. pose proof (inv_count_le _ _ _ _ _ _ Hinv).
    pose proof (wf_total_range _ _ Hwf). unfold nc. lia. }
  rewrite (step_of_returns c i t (if nc =? cn then after_run_item t else AtLoop)
             (set_interpreter (set_node_count (nc - cn) (interpreter (shared c)))
                (shared c)) Hi).
  - apply invariant_frame; auto; rewrite ?Hpos; cbn; fold nc.
    + lia.
    + destruct (nc =? cn); [unfold after_run_item; destruct (master t)|]; cbn; lia.
    + intros q. destruct (nc =? cn); [unfold after_run_item; destruct (master t)|];
        reflexivity.
    + destruct (nc =? cn); [unfold after_run_item; destruct (master t)|]; reflexivity.
    + destruct (Z.eqb_spec nc cn) as [Heq|Hne]; [|exact I].
      unfold after_run_item. destruct (master t); cbn; lia.
  - rewrite Hpos. reflexivity.
  - unfold next_position, bind, fetch_sub_node_count, assert, ret.
    rewrite Hpos. fold nc. rewrite Hsmall.
    destruct (Z.leb_spec cn nc) as [_|]; [reflexivity | lia].
Qed.

Lemma step_AtWait k log c i t :
  inv k log c -> threads c !! i = Some t -> pos t = AtWait ->
  inv k log (step_of i c).
Proof.
  intros Hinv Hi Hpos.
  set (n := node_count (interpreter (shared c))).
  pose proof (position_ok_at _ _ _ _ _ Hinv Hi) as Hok. rewrite Hpos in Hok.
  rewrite (step_of_returns c i t (if n =? 0 then AtFifoAssert else AtWait)
             (shared c) Hi).
  - apply invariant_frame; auto; rewrite ?Hpos.
    + apply (same_node_count _ _ _ Hinv).
    + destruct (n =? 0); reflexivity.
    + intros q. destruct (n =? 0); reflexivity.
    + destruct (n =? 0); reflexivity.
    + destruct (n =? 0); exact Hok.
  - rewrite Hpos. reflexivity.
  - unfold next_position. rewrite Hpos. reflexivity.
Qed.

Lemma step_AtFifoAssert k log c i t :
  inv k log c -> threads c !! i = Some t -> pos t = AtFifoAssert ->
  inv k log (step_of i c).
Proof.
  intros Hinv Hi Hpos.
  pose proof (position_ok_at _ _ _ _ _ Hinv Hi) as Hok. rewrite Hpos in Hok.
  pose proof (fifo_empty_at_end _ _ _ Hinv Hok) as Hfifo.
  rewrite (step_of_returns c i t Returned (shared c) Hi).
  - apply invariant_frame; auto; rewrite ?Hpos; try reflexivity;
      try apply (same_node_count _ _ _ Hinv); try exact Hok.
  - rewrite Hpos. reflexivity.
  - unfold next_position, bind, fifo_is_empty, assert, ret. rewrite Hpos, Hfifo.
    reflexivity.
Qed.


(** *** Steps that move a node to its next state *)

Lemma count_of_insert (h : gmap ptr (dsp_thread_queue_item runnable)) s its n v :
  count_of (<[s := set_activation_count n its]> h) v
  = if decide (v = s) then n else count_of h v.
Proof.
  unfold count_of. case_decide as Hv.
  - subst. by rewrite lookup_insert_eq.
  - by rewrite lookup_insert_ne.
Qed.

Lemma static_insert (h : gmap ptr (dsp_thread_queue_item runnable)) s its n :
  h !! s = Some its ->
  (forall p, p ∈ nodes ->
     exists it, h !! p = Some it /\ successors it = succs p /\ activation_limit it = lim p) ->
  forall p, p ∈ nodes ->
    exists it, <[s := set_activation_count n its]> h !! p = Some it /\
      successors it = succs p /\ activation_limit it = lim p.
Proof.
  intros Hs Hstatic p Hp. destruct (Hstatic p Hp) as (it & Hit & Hsucc & Hlim).
  destruct (decide (p = s)) as [->|Hne].
  - rewrite lookup_insert_eq. eexists. split; [reflexivity|].
    assert (it = its) as -> by congruence. auto.
  - rewrite lookup_insert_ne by congruence. eauto.
Qed.

Lemma step_AtJob k log c i t p cn :
  inv k log c -> threads c !! i = Some t -> pos t = AtJob p cn ->
  inv k (log ++ [(p, uint8_t (thread_index t))]) (step_of i c).
Proof.
  intros Hinv Hi Hpos.
  assert (Hheld : p ∈ holds (pos t)) by (rewrite Hpos; left).
  destruct (ready_node _ _ _ _ _ _ Hinv Hi Hheld) as (Hp & Hk & Hc & Hd & HT & HR & HL).
  destruct (inv_static _ _ _ _ _ _ Hinv p Hp) as (it & Hit & Hsucc & _).
  pose proof (position_ok_at _ _ _ _ _ Hinv Hi) as Hok. rewrite Hpos in Hok.
  cbn in Hok.
  set (e := (p, uint8_t (thread_index t))).
  set (w' := World (heap (shared c)) (interpreter (shared c)) (calls (shared c) ++ [e])).
  set (l' := AtUpdate p cn (succs p) None).
  rewrite (step_of_returns c i t l' w' Hi).
  2: { rewrite Hpos. reflexivity. }
  2: { unfold next_position, bind, call_job, deref, ret. rewrite Hpos. cbn.
       rewrite Hit, Hsucc. reflexivity. }
  assert (Hocc : forall v, occurrences v (map fst (log ++ [e]))
                 = (occurrences v (map fst log) + if decide (p = v) then 1 else 0)%nat).
  { intros v. rewrite map_app, occurrences_app. cbn. lia. }
  assert (HT' : forall v,
            (tokens (Config w' (<[i := set_pos l' t]> (threads c))) v
             + (if decide (p = v) then 1 else 0) = tokens c v)%nat).
  { intros v. pose proof (tokens_step c i t l' w' v Hi) as Hs.
    rewrite Hpos in Hs. cbn in Hs. lia. }
  assert (HR' : forall v,
            runners (<[i := set_pos l' t]> (threads c)) v
            = (runners (threads c) v + if decide (p = v) then 1 else 0)%nat).
  { intros v. pose proof (runners_step (threads c) i t l' v Hi) as Hs.
    rewrite Hpos in Hs. cbn in Hs. lia. }
  constructor; cbn [shared threads].
  - cbn. rewrite (inv_calls _ _ _ _ _ _ Hinv), app_assoc. reflexivity.
  - apply Hinv.
  - apply Hinv.
  - intros v Hv. destruct (inv_outside _ _ _ _ _ _ Hinv v Hv) as (HTv & HRv & HLv).
    specialize (HT' v). rewrite HR', Hocc.
    rewrite decide_False in * by (intros ->; contradiction). lia.
  - intros v Hv. pose proof (inv_nodes _ _ _ _ _ _ Hinv v Hv) as Hn.
    specialize (HT' v). rewrite HR', Hocc. cbn [heap w'].
    destruct (decide (p = v)) as [<-|Hne].
    + right; right; left. lia.
    + same_node Hn.
  - apply threads_step.
    + intros j u Hj _.
      apply (inv_threads _ _ _ _ _ _ Hinv), (list_elem_of_lookup_2 _ _ _ Hj).
    + cbn. split; [exact Hok|]. rewrite Hk. reflexivity.
  - cbn [interpreter w']. pose proof (flights_step (threads c) i t l' Hi) as Hf.
    rewrite Hpos in Hf. cbn in Hf. rewrite length_app. cbn [length].
    pose proof (inv_count _ _ _ _ _ _ Hinv). lia.
  - apply Hinv.
Qed.


Lemma in_flight_small k log c i t :
  inv k log c -> threads c !! i = Some t ->
  in_flight (pos t) < 2 ^ fast16_bits.
Proof.
  intros Hinv Hi.
  pose proof (flights_lookup_le (threads c) i t
                ltac:(intros u Hu; eapply in_flight_nonneg,
                        (inv_threads _ _ _ _ _ _ Hinv), Hu) Hi).
  pose proof (inv_count _ _ _ _ _ _ Hinv). pose proof (inv_count_le _ _ _ _ _ _ Hinv).
  pose proof (log_length_le _ _ _ Hinv). pose proof (wf_total_range _ _ Hwf). lia.
Qed.

Lemma step_AtResetStore k log c i t p cn next :
  inv k log c -> threads c !! i = Some t -> pos t = AtResetStore p cn next ->
  inv k log (step_of i c).
Proof.
  intros Hinv Hi Hpos.
  assert (Hrun : p ∈ runs (pos t)) by (rewrite Hpos; left).
  destruct (running_node _ _ _ _ _ _ Hinv Hi Hrun) as (Hp & _ & Hc & Hd & HT & HR & HL).
  destruct (inv_static _ _ _ _ _ _ Hinv p Hp) as (it & Hit & _ & Hlim).
  pose proof (position_ok_at _ _ _ _ _ Hinv Hi) as Hok. rewrite Hpos in Hok.
  cbn in Hok. destruct Hok as [Hcn Hk].
  pose proof (in_flight_small _ _ _ _ _ Hinv Hi) as Hsmall. rewrite Hpos in Hsmall.
  cbn in Hsmall.
  assert (Hc' : node_count_t (cn + 1) = cn + 1) by (apply node_count_t_small; lia).
  set (w' := set_heap (<[p := set_activation_count (activation_limit it) it]>
                         (heap (shared c))) (shared c)).
  set (l' := match next with Some n => AtRun n (cn + 1) | None => AtFetchSub (cn + 1) end).
  rewrite (step_of_returns c i t l' w' Hi).
  2: { rewrite Hpos. reflexivity. }
  2: { unfold next_position, bind, deref, store_activation_count, ret. rewrite Hpos.
       cbn. rewrite Hit. cbn. rewrite Hit, Hc'. reflexivity. }
  assert (HT' : forall v, tokens (Config w' (<[i := set_pos l' t]> (threads c))) v
                          = tokens c v).
  { intros v. pose proof (tokens_step c i t l' w' v Hi) as Hs.
    assert (Hh : occurrences v (holds l') = occurrences v (holds (pos t)))
      by (rewrite Hpos; unfold l'; destruct next; reflexivity).
    rewrite Hh in Hs. cbn [w' set_heap interpreter] in Hs. lia. }
  assert (HR' : forall v,
            (runners (<[i := set_pos l' t]> (threads c)) v
             + (if decide (p = v) then 1 else 0) = runners (threads c) v)%nat).
  { intros v. pose proof (runners_step (threads c) i t l' v Hi) as Hs.
    assert (Hr : runs l' = []) by (unfold l'; destruct next; reflexivity).
    rewrite Hpos, Hr in Hs. cbn in Hs. lia. }
  constructor; cbn [shared threads].
  - apply Hinv.
  - apply Hinv.
  - apply (static_insert _ _ _ _ Hit), Hinv.
  - intros v Hv. destruct (inv_outside _ _ _ _ _ _ Hinv v Hv) as (HTv & HRv & HLv).
    specialize (HR' v). rewrite HT'.
    rewrite decide_False in * by (intros ->; contradiction). lia.
  - intros v Hv. pose proof (inv_nodes _ _ _ _ _ _ Hinv v Hv) as Hn.
    specialize (HR' v). rewrite HT'. cbn [heap w' set_heap].
    rewrite count_of_insert.
    destruct (decide (p = v)) as [<-|Hne].
    + rewrite decide_True by reflexivity. right; right; right. lia.
    + rewrite decide_False by congruence. same_node Hn.
  - apply threads_step.
    + intros j u Hj _.
      apply (inv_threads _ _ _ _ _ _ Hinv), (list_elem_of_lookup_2 _ _ _ Hj).
    + unfold l'. destruct next; cbn; lia.
  - cbn [interpreter w' set_heap]. pose proof (flights_step (threads c) i t l' Hi) as Hf.
    assert (Hfl : in_flight l' = cn + 1) by (unfold l'; destruct next; reflexivity).
    rewrite Hpos, Hfl in Hf. cbn in Hf.
    pose proof (inv_count _ _ _ _ _ _ Hinv). lia.
  - apply Hinv.
Qed.

Lemma step_AtUpdate_cons k log c i t p cn s rest next :
  inv k log c -> threads c !! i = Some t -> pos t = AtUpdate p cn (s :: rest) next ->
  inv (advance k p (S (k p))) log (step_of i c).
Proof.
  intros Hinv Hi Hpos.
  assert (Hrun : p ∈ runs (pos t)) by (rewrite Hpos; left).
  destruct (running_node _ _ _ _ _ _ Hinv Hi Hrun) as (Hp & _ & Hcp & Hdp & HTp & HRp & HLp).
  pose proof (position_ok_at _ _ _ _ _ Hinv Hi) as Hok. rewrite Hpos in Hok.
  cbn in Hok. destruct Hok as [Hcn Hdrop].
  assert (Hs : succs p !! k p = Some s).
  { pose proof (lookup_drop (succs p) (k p) 0) as Hl. rewrite <- Hdrop in Hl.
    rewrite Nat.add_0_r in Hl. cbn in Hl. congruence. }
  assert (Hrest : rest = drop (S (k p)) (succs p)).
  { rewrite (drop_S _ _ _ Hs) in Hdrop. congruence. }
  assert (Hlt : (k p < length (succs p))%nat) by (eapply lookup_lt_Some, Hs).
  assert (Hsn : s ∈ nodes).
  { eapply (wf_closed _ _ Hwf); [exact Hp|]. eapply list_elem_of_lookup_2, Hs. }
  pose proof (edges_done_lt k p s Hp Hs) as Hedge.
  pose proof (wf_limit _ _ Hwf s Hsn) as Hlims.
  pose proof (wf_limit_range _ _ Hwf s Hsn) as Hrange.
  pose proof (inv_nodes _ _ _ _ _ _ Hinv s Hsn) as Hns.
  destruct (inv_static _ _ _ _ _ _ Hinv s Hsn) as (its & Hits & _).
  rewrite (count_of_lookup _ _ _ Hits) in Hns.
  set (cs := activation_count its) in *.
  assert (Hwait : tokens c s = 0%nat /\ runners (threads c) s = 0%nat /\
                  occurrences s (map fst log) = 0%nat /\ k s = 0%nat /\
                  cs = lim s - Z.of_nat (done k s) /\ 0 < cs)
    by (split_node Hns; lia).
  destruct Hwait as (HTs & HRs & HLs & Hks & Hcs & Hpos_cs).
  assert (Hne : s <> p) by (intros ->; lia).
  assert (Hsmall : activation_limit_t (cs - 1) = cs - 1)
    by (apply activation_limit_t_small; lia).
  set (w' := set_heap (<[s := set_activation_count (cs - 1) its]> (heap (shared c)))
               (shared c)).
  set (l' := if cs =? 1 then
               match next with
               | None => AtUpdate p cn rest (Some s)
               | Some _ => AtMark p cn rest next s
               end
             else AtUpdate p cn rest next).
  rewrite (step_of_returns c i t l' w' Hi).
  2: { rewrite Hpos. reflexivity. }
  2: { unfold next_position, bind, fetch_sub_activation_count, assert, ret.
       rewrite Hpos, Hits. fold cs. rewrite Hsmall.
       destruct (Z.ltb_spec 0 cs) as [_|]; [reflexivity | lia]. }
  set (k' := advance k p (S (k p))).
  assert (Hdone : forall v, done k' v = (done k v + if decide (s = v) then 1 else 0)%nat)
    by (intros v; apply edges_done_advance; assumption).
  assert (Hholds : forall v,
            occurrences v (holds l')
            = (occurrences v (holds (pos t))
               + if decide (s = v) then (if (cs =? 1)%Z then 1 else 0) else 0)%nat).
  { intros v. rewrite Hpos. unfold l'.
    destruct (cs =? 1); [destruct next|]; cbn; repeat case_decide; lia. }
  assert (Hruns : runs l' = runs (pos t)).
  { rewrite Hpos. unfold l'. destruct (cs =? 1); [destruct next|]; reflexivity. }
  assert (Hfl : in_flight l' = in_flight (pos t)).
  { rewrite Hpos. unfold l'. destruct (cs =? 1); [destruct next|]; reflexivity. }
  assert (HT' : forall v,
            tokens (Config w' (<[i := set_pos l' t]> (threads c))) v
            = (tokens c v + if decide (s = v) then (if (cs =? 1)%Z then 1 else 0) else 0)%nat).
  { intros v. pose proof (tokens_step c i t l' w' v Hi) as Hs'.
    rewrite Hholds in Hs'. cbn [w' set_heap interpreter] in Hs'. lia. }
  assert (HR' : forall v, runners (<[i := set_pos l' t]> (threads c)) v
                          = runners (threads c) v).
  { intros v. pose proof (runners_step (threads c) i t l' v Hi) as Hs'.
    rewrite Hruns in Hs'. lia. }
  constructor; cbn [shared threads].
  - apply Hinv.
  - apply Hinv.
  - apply (static_insert _ _ _ _ Hits), Hinv.
  - intros v Hv. destruct (inv_outside _ _ _ _ _ _ Hinv v Hv) as (HTv & HRv & HLv).
    rewrite HT', HR'. rewrite decide_False by (intros ->; contradiction). lia.
  - intros v Hv. pose proof (inv_nodes _ _ _ _ _ _ Hinv v Hv) as Hn.
    rewrite HT', HR', Hdone. cbn [heap w' set_heap]. rewrite count_of_insert.
    unfold k', advance.
    destruct (decide (s = v)) as [<-|Hsv].
    + rewrite !(decide_True (P := s = s)) by reflexivity.
      rewrite (decide_False (P := s = p)) by exact Hne.
      destruct (Z.eqb_spec cs 1); [right; left | left]; lia.
    + rewrite (decide_False (P := v = s)) by congruence.
      destruct (decide (v = p)) as [->|Hvp]; [right; right; left; lia|].
      same_node Hn.
  - apply threads_step.
    + intros j u Hj Hji.
      pose proof (inv_threads _ _ _ _ _ _ Hinv u (list_elem_of_lookup_2 _ _ _ Hj)) as Hu.
      assert (Hnr : p ∉ runs (pos u))
        by (eapply (runner_unique _ _ _ i j); eauto).
      cbn [interpreter w' set_heap].
      destruct (pos u); cbn in *; auto; unfold k', advance;
        rewrite decide_False; auto; intros ->; apply Hnr; left.
    + cbn [interpreter w' set_heap pos set_pos]. unfold l', k', advance.
      destruct (cs =? 1); [destruct next|]; cbn;
        rewrite decide_True by reflexivity; auto.
  - cbn [interpreter w' set_heap]. pose proof (flights_step (threads c) i t l' Hi) as Hf.
    pose proof (inv_count _ _ _ _ _ _ Hinv). lia.
  - apply Hinv.
Qed.

(** The invariant holds after every step. *)
Lemma invariant_step_of c i t :
  tick_invariant h0 calls0 g c ->
  threads c !! i = Some t -> can_step (pos t) = true ->
  tick_invariant h0 calls0 g (step_of i c).
Proof.
  intros (k & log & Hinv) Hi Hcan.
  destruct (pos t) eqn:Hpos; try discriminate.
  - exists k, log. eapply step_AtLoop; eauto.
  - exists k, log. eapply step_AtDequeue; eauto.
  - exists k, log. eapply step_AtRun; eauto.
  - eexists k, _. eapply step_AtJob; eauto.
  - destruct rest as [|s rest].
    + exists k, log. eapply step_AtUpdate_nil; eauto.
    + eexists _, log. eapply step_AtUpdate_cons; eauto.
  - exists k, log. eapply step_AtMark; eauto.
  - exists k, log. eapply step_AtResetAssert; eauto.
  - exists k, log. eapply step_AtResetStore; eauto.
  - exists k, log. eapply step_AtFetchSub; eauto.
  - exists k, log. eapply step_AtWait; eauto.
  - exists k, log. eapply step_AtFifoAssert; eauto.
Qed.

Lemma invariant_step c c' :
  tick_invariant h0 calls0 g c -> step c c' -> tick_invariant h0 calls0 g c'.
Proof.
  intros Hinv Hstep. destruct Hstep as [c i t Hi Hcan].
  eapply invariant_step_of; eauto.
Qed.

Lemma invariant_steps c c' :
  tick_invariant h0 calls0 g c -> rtc step c c' -> tick_invariant h0 calls0 g c'.
Proof.
  intros Hinv Hsteps. induction Hsteps as [|c c1 c2 Hstep _ IH]; [exact Hinv|].
  apply IH. eapply invariant_step; eauto.
Qed.


(** *** The start of the tick *)

Lemma holders_start (helpers : list Z) p :
  holders (map (fun i => Thread false i AtLoop) helpers) p = 0%nat.
Proof. induction helpers as [|i helpers IH]; [reflexivity | exact IH]. Qed.

Lemma runners_start (helpers : list Z) p :
  runners (map (fun i => Thread false i AtLoop) helpers) p = 0%nat.
Proof. induction helpers as [|i helpers IH]; [reflexivity | exact IH]. Qed.

Lemma flights_start (helpers : list Z) :
  flights (map (fun i => Thread false i AtLoop) helpers) = 0.
Proof.
  induction helpers as [|i helpers IH]; [reflexivity|].
  cbn [map]. rewrite flights_cons, IH. reflexivity.
Qed.

Lemma invariant_start w0 w1 helpers :
  heap w0 = h0 -> calls w0 = calls0 ->
  queue (interpreter w0) = Some g ->
  counters_reset h0 g ->
  init_tick w0 = Returns (true, w1) ->
  inv (fun _ => 0%nat) [] (start_tick w1 helpers).
Proof.
  intros Hh Hc Hq Hreset Hinit.
  apply init_tick_true in Hinit as (q & Hq' & Hne & Hn & Hf & ->).
  assert (q = g) as -> by congruence.
  constructor; unfold tokens;
    cbn [shared threads start_tick set_interpreter heap calls interpreter
           set_fifo set_node_count fifo node_count queue].
  - rewrite app_nil_r. exact Hc.
  - exact Hq.
  - rewrite Hh. intros p Hp.
    destruct (wf_allocated _ _ Hwf p Hp) as [it Hit]. exists it.
    unfold successors_of, limit_of. rewrite Hit. auto.
  - intros p Hp.
    assert (Hni : p ∉ initially_runnable_items g).
    { intros Hi. apply (wf_initial _ _ Hwf) in Hi as [Hi _]. contradiction. }
    apply occurrences_zero in Hni. rewrite Hni.
    change (holders (?t :: ?ts) p) with (0 + holders ts p)%nat.
    change (runners (?t :: ?ts) p) with (0 + runners ts p)%nat.
    rewrite holders_start, runners_start. auto.
  - intros p Hp.
    change (holders (?t :: ?ts) p) with (0 + holders ts p)%nat.
    change (runners (?t :: ?ts) p) with (0 + runners ts p)%nat.
    rewrite holders_start, runners_start, edges_done_none by auto.
    rewrite Hh, (Hreset p Hp). cbn [map occurrences].
    pose proof (wf_limit _ _ Hwf p Hp) as Hlim.
    pose proof (wf_initial _ _ Hwf p) as Hinit.
    pose proof (NoDup_occurrences _ p (wf_initial_once _ _ Hwf)) as Honce.
    destruct (decide (p ∈ initially_runnable_items g)) as [Hi|Hi].
    + apply occurrences_pos in Hi as Hpos.
      apply Hinit in Hi as [_ H0]. right; left. lia.
    + apply occurrences_zero in Hi as Hzero.
      assert (lim p <> 0) by tauto. left. lia.
  - intros t Ht. apply elem_of_cons in Ht as [->|Ht]; [exact I|].
    apply list_elem_of_fmap in Ht as (i & -> & _). exact I.
  - rewrite flights_cons, flights_start. cbn. lia.
  - lia.
Qed.

(** *** What a tick guarantees *)

Lemma invocations_log k log c p :
  inv k log c -> invocations calls0 (shared c) p = occurrences p (map fst log).
Proof.
  intros Hinv. unfold invocations.
  rewrite (inv_calls _ _ _ _ _ _ Hinv), drop_app_length. reflexivity.
Qed.

Lemma tick_never_fails c : tick_invariant h0 calls0 g c -> ~ failed c.
Proof.
  intros (k & log & Hinv) (t & Ht & Hpos).
  pose proof (inv_threads _ _ _ _ _ _ Hinv t Ht) as Hok.
  destruct Hpos as [Hpos|Hpos]; rewrite Hpos in Hok; exact Hok.
Qed.

Lemma tick_at_most_once c p :
  tick_invariant h0 calls0 g c -> (invocations calls0 (shared c) p <= 1)%nat.
Proof.
  intros (k & log & Hinv). rewrite (invocations_log _ _ _ _ Hinv).
  eapply log_at_most_once, Hinv.
Qed.

Lemma master_returned_node_count c :
  tick_invariant h0 calls0 g c -> master_returned c ->
  node_count (interpreter (shared c)) = 0.
Proof.
  intros (k & log & Hinv) (t & Ht & Hpos).
  pose proof (position_ok_at _ _ _ _ _ Hinv Ht) as Hok. rewrite Hpos in Hok. exact Hok.
Qed.

Lemma tick_exactly_once c p :
  tick_invariant h0 calls0 g c -> master_returned c ->
  invocations calls0 (shared c) p = if decide (p ∈ nodes) then 1%nat else 0%nat.
Proof.
  intros Hinv Hret. pose proof (master_returned_node_count _ Hinv Hret) as Hnc.
  destruct Hinv as (k & log & Hinv). rewrite (invocations_log _ _ _ _ Hinv).
  case_decide as Hp.
  - eapply all_called; eauto.
  - by pose proof (inv_outside _ _ _ _ _ _ Hinv p Hp) as (_ & _ & HL).
Qed.

Lemma tick_ends_quiescent c :
  tick_invariant h0 calls0 g c -> master_returned c ->
  node_count (interpreter (shared c)) = 0 /\ fifo (interpreter (shared c)) = [].
Proof.
  intros Hinv Hret. pose proof (master_returned_node_count _ Hinv Hret) as Hnc.
  destruct Hinv as (k & log & Hinv). split; [exact Hnc|].
  eapply fifo_empty_at_end; eauto.
Qed.


(** *** The tick leaves the graph as the next tick needs it *)

Lemma runner_thread (ts : list thread) p :
  (0 < runners ts p)%nat -> exists i t, ts !! i = Some t /\ p ∈ runs (pos t).
Proof.
  induction ts as [|a ts IH]; [cbn; lia|].
  change (runners (a :: ts) p) with (occurrences p (runs (pos a)) + runners ts p)%nat.
  intros Hpos. destruct (decide (p ∈ runs (pos a))) as [Hin|Hnin].
  - exists 0%nat, a. auto.
  - apply occurrences_zero in Hnin. destruct IH as (i & t & Hi & Hrun); [lia|].
    exists (S i), t. auto.
Qed.

Lemma no_runner_at_end k log c p :
  inv k log c -> node_count (interpreter (shared c)) = 0 ->
  runners (threads c) p = 0%nat.
Proof.
  intros Hinv Hnc. destruct (runners (threads c) p) eqn:HR; [reflexivity|]. exfalso.
  destruct (runner_thread (threads c) p) as (i & t & Hi & Hrun); [lia|].
  pose proof (position_ok_at _ _ _ _ _ Hinv Hi) as Hok.
  assert (Hfl : 1 <= in_flight (pos t)).
  { destruct (pos t); cbn in *; try (inversion Hrun; fail); lia. }
  pose proof (flights_lookup_le (threads c) i t
                ltac:(intros u Hu; eapply in_flight_nonneg,
                        (inv_threads _ _ _ _ _ _ Hinv), Hu) Hi).
  pose proof (inv_count _ _ _ _ _ _ Hinv). pose proof (log_length_le _ _ _ Hinv). lia.
Qed.

Lemma counter_reset_at_end k log c p :
  inv k log c -> node_count (interpreter (shared c)) = 0 -> p ∈ nodes ->
  count_of (heap (shared c)) p = lim p.
Proof.
  intros Hinv Hnc Hp.
  pose proof (all_called _ _ _ p Hinv Hnc Hp) as HL.
  pose proof (no_runner_at_end _ _ _ p Hinv Hnc) as HR.
  pose proof (inv_nodes _ _ _ _ _ _ Hinv p Hp) as Hn. split_node Hn; lia.
Qed.

(** A heap that differs from [h0] in counters only holds the same graph. *)
Lemma well_formed_static (h : gmap ptr (dsp_thread_queue_item runnable)) :
  (forall p, p ∈ nodes ->
     exists it, h !! p = Some it /\ successors it = succs p /\ activation_limit it = lim p) ->
  well_formed h g.
Proof.
  intros Hstatic.
  assert (Hsucc : forall p, p ∈ nodes -> successors_of h p = succs p).
  { intros p Hp. destruct (Hstatic p Hp) as (it & Hit & Hs & _).
    unfold successors_of at 1. by rewrite Hit. }
  assert (Hlim : forall p, p ∈ nodes -> limit_of h p = lim p).
  { intros p Hp. destruct (Hstatic p Hp) as (it & Hit & _ & Hl).
    unfold limit_of at 1. by rewrite Hit. }
  assert (Hdeg : forall v, in_degree h nodes v = in_degree h0 nodes v).
  { intros v. unfold in_degree. apply sum_list_with_ext_in.
    intros u Hu. by rewrite Hsucc. }
  destruct Hwf as [Ht Htr Ho Ha Hc Hl Hlr Hio Hi Hac]. constructor; auto.
  - intros p Hp. destruct (Hstatic p Hp) as (it & Hit & _). eauto.
  - intros p s Hp. rewrite Hsucc by exact Hp. by apply Hc.
  - intros p Hp. rewrite Hlim, Hdeg by exact Hp. by apply Hl.
  - intros p Hp. rewrite Hlim by exact Hp. by apply Hlr.
  - intros p. rewrite Hi. split; intros [Hp H0]; (split; [exact Hp|]).
    + by rewrite Hlim.
    + by rewrite <- Hlim.
  - destruct Hac as [rank Hrank]. exists rank. intros p s Hp.
    rewrite Hsucc by exact Hp. by apply Hrank.
Qed.

Lemma tick_leaves_ready c :
  tick_invariant h0 calls0 g c -> master_returned c ->
  queue (interpreter (shared c)) = Some g /\
  node_count (interpreter (shared c)) = 0 /\
  fifo (interpreter (shared c)) = [] /\
  well_formed (heap (shared c)) g /\
  counters_reset (heap (shared c)) g.
Proof.
  intros Hinv Hret. pose proof (master_returned_node_count _ Hinv Hret) as Hnc.
  destruct Hinv as (k & log & Hinv).
  split; [apply Hinv|]. split; [exact Hnc|].
  split; [eapply fifo_empty_at_end; eauto|].
  split; [apply well_formed_static, Hinv|].
  intros p Hp. rewrite (counter_reset_at_end _ _ _ p Hinv Hnc Hp).
  destruct (inv_static _ _ _ _ _ _ Hinv p Hp) as (it & Hit & _ & Hl).
  unfold limit_of at 2. by rewrite Hit.
Qed.

End Tick.

(** ** The tick comes to its end *)

Section Progress.

Context `{Platform}.
Context {runnable : Type}.

Implicit Types (c : config runnable) (t : thread)
  (p s v : ptr) (w : world runnable) (l : position).

(** Apart from the call of a job, an action of a worker leaves the calls
    as they are and does not raise the measure of its place; an action
    of a worker that is not idling lowers it. *)
Lemma thread_step_measure t w :
  can_step (pos t) = true ->
  (forall p cn, pos t <> AtJob p cn) ->
  calls (thread_step t w).2 = calls w /\
  (position_measure (pos (thread_step t w).1) <= position_measure (pos t))%nat /\
  (productive w (pos t) ->
   (position_measure (pos (thread_step t w).1) < position_measure (pos t))%nat).
Proof.
  intros Hcan Hjob. unfold thread_step, next_position.
  destruct (pos t) as [| |p cn|p cn|p cn rest next|p cn rest next s|p cn next
                      |p cn next|cn| | | | |] eqn:Hpos; try discriminate.
  - unfold bind, load_node_count, ret, after_run_item. cbn.
    destruct (Z.eqb_spec (node_count (interpreter w)) 0), (master t); cbn;
      repeat split; try lia; intros; lia.
  - unfold bind, fifo_dequeue, ret. cbn.
    destruct (fifo (interpreter w)); cbn; repeat split; try lia; intros; congruence.
  - unfold load_activation_count, deref, bind, ret, assert. cbn.
    destruct (heap w !! p) as [it|]; cbn; [|repeat split; lia].
    destruct (activation_count it =? 0); cbn; repeat split; lia.
  - exfalso. eapply Hjob; reflexivity.
  - destruct rest as [|s rest].
    + cbn. repeat split; lia.
    + unfold bind, fetch_sub_activation_count, ret, assert. cbn.
      destruct (heap w !! s) as [it|]; cbn; [|repeat split; lia].
      destruct (0 <? activation_count it); cbn; [|repeat split; lia].
      destruct (activation_count it =? 1); [destruct next|]; cbn; repeat split; lia.
  - cbn. repeat split; lia.
  - unfold load_activation_count, deref, bind, ret, assert. cbn.
    destruct (heap w !! p) as [it|]; cbn; [|repeat split; lia].
    destruct (activation_count it =? 0); cbn; repeat split; lia.
  - unfold deref, store_activation_count, bind, ret. cbn.
    destruct (heap w !! p) as [it|] eqn:Hit; cbn; [|repeat split; lia].
    rewrite Hit. cbn. destruct next; cbn; repeat split; lia.
  - unfold bind, fetch_sub_node_count, ret, assert, after_run_item. cbn.
    destruct (cn <=? node_count (interpreter w)); cbn; [|repeat split; lia].
    destruct (node_count (interpreter w) =? cn); [destruct (master t)|]; cbn;
      repeat split; lia.
  - unfold bind, load_node_count, ret. cbn.
    destruct (Z.eqb_spec (node_count (interpreter w)) 0); cbn;
      repeat split; try lia; intros; lia.
  - unfold bind, fifo_is_empty, ret, assert. cbn.
    destruct (fifo (interpreter w)); cbn; repeat split; lia.
Qed.


Lemma step_of_eq c i t :
  threads c !! i = Some t -> can_step (pos t) = true ->
  step_of i c = Config (thread_step t (shared c)).2
                       (<[i := (thread_step t (shared c)).1]> (threads c)).
Proof. intros Hi Hcan. unfold step_of. rewrite Hi, Hcan. reflexivity. Qed.

Lemma step_of_length i c : length (threads (step_of i c)) = length (threads c).
Proof.
  unfold step_of. destruct (threads c !! i) as [t|]; [|reflexivity].
  destruct (can_step (pos t)); [|reflexivity]. cbn. apply length_insert.
Qed.

Lemma steps_length c c' :
  rtc step c c' -> length (threads c') = length (threads c).
Proof.
  induction 1 as [|c c1 c2 Hstep _ IH]; [reflexivity|].
  rewrite IH. destruct Hstep. apply step_of_length.
Qed.

(** Each worker either is busy or holds and runs nothing. *)
Lemma busy_or_idle (ts : list thread) :
  (exists j t, ts !! j = Some t /\ busy (pos t) = true) \/
  (forall t, t ∈ ts -> busy (pos t) = false).
Proof.
  induction ts as [|a ts IH].
  - right. intros t Ht. inversion Ht.
  - destruct (busy (pos a)) eqn:Ha.
    + left. exists 0%nat, a. auto.
    + destruct IH as [(j & t & Hj & Hb)|Hidle].
      * left. exists (S j), t. auto.
      * right. intros t Ht. apply elem_of_cons in Ht as [->|Ht]; auto.
Qed.

Lemma idle_sums (ts : list thread) p :
  (forall t, t ∈ ts -> busy (pos t) = false) ->
  holders ts p = 0%nat /\ runners ts p = 0%nat /\ flights ts = 0.
Proof.
  induction ts as [|a ts IH]; intros Hidle; [auto|].
  destruct IH as (Hh & Hr & Hf); [intros t Ht; apply Hidle; by right|].
  pose proof (Hidle a ltac:(left)) as Ha.
  unfold holders, runners in *. rewrite flights_cons. cbn [sum_list_with].
  rewrite Hh, Hr, Hf. destruct (pos a); try discriminate; cbn; auto.
Qed.

Section Measure.

Variable h0 : gmap ptr (dsp_thread_queue_item runnable).
Variable calls0 : list (ptr * Z).
Variable g : dsp_thread_queue.

Hypothesis Hwf : well_formed h0 g.

Local Abbreviation nodes := (queue_items g).
Local Abbreviation succs := (successors_of h0).
Local Abbreviation lim := (limit_of h0).
Local Abbreviation done := (edges_done (successors_of h0) (queue_items g)).
Local Abbreviation inv := (tick_invariant_at h0 calls0 g).
Local Abbreviation size := (measure h0 calls0 g).

Implicit Types (k : ptr -> nat).

Lemma measure_step_plain c i t :
  threads c !! i = Some t -> can_step (pos t) = true ->
  (forall p cn, pos t <> AtJob p cn) ->
  (size (step_of i c) <= size c)%nat /\
  (productive (shared c) (pos t) -> (size (step_of i c) < size c)%nat).
Proof.
  intros Hi Hcan Hjob. rewrite (step_of_eq _ _ _ Hi Hcan).
  destruct (thread_step_measure t (shared c) Hcan Hjob) as (Hcalls & Hle & Hlt).
  unfold measure, invocations. cbn [shared threads]. rewrite Hcalls.
  pose proof (sum_list_with_insert (fun t => position_measure (pos t))
                (threads c) i t (thread_step t (shared c)).1 Hi) as Hsum.
  cbv beta in Hsum. split; [lia|]. intros Hp. specialize (Hlt Hp). lia.
Qed.

Lemma measure_step_job k log c i t p cn :
  inv k log c -> threads c !! i = Some t -> pos t = AtJob p cn ->
  (size (step_of i c) < size c)%nat.
Proof.
  intros Hinv Hi Hpos.
  assert (Hinv' : inv k (log ++ [(p, uint8_t (thread_index t))]) (step_of i c))
    by (eapply step_AtJob; eauto).
  assert (Hheld : p ∈ holds (pos t)) by (rewrite Hpos; left).
  destruct (ready_node _ _ _ _ _ _ _ _ _ Hinv Hi Hheld)
    as (Hp & _ & _ & _ & _ & _ & HL).
  destruct (inv_static _ _ _ _ _ _ Hinv p Hp) as (it & Hit & Hsucc & _).
  set (e := (p, uint8_t (thread_index t))) in *.
  set (w' := World (heap (shared c)) (interpreter (shared c)) (calls (shared c) ++ [e])).
  set (l' := AtUpdate p cn (succs p) None).
  assert (Hstep : step_of i c = Config w' (<[i := set_pos l' t]> (threads c))).
  { apply step_of_returns; [exact Hi | rewrite Hpos; reflexivity |].
    unfold next_position, call_job, deref, bind, ret. rewrite Hpos. cbn.
    rewrite Hit, Hsucc. reflexivity. }
  rewrite Hstep in Hinv' |- *.
  unfold measure. cbn [shared threads].
  pose proof (sum_list_with_insert (fun t => position_measure (pos t))
                (threads c) i t (set_pos l' t) Hi) as Hsum.
  cbv beta in Hsum. rewrite Hpos in Hsum. cbn [pos set_pos l' position_measure] in Hsum.
  set (f := fun v => match invocations calls0 (shared c) v with
                     | O => weight h0 v | S _ => 0%nat end).
  set (f' := fun v => match invocations calls0 w' v with
                      | O => weight h0 v | S _ => 0%nat end).
  assert (Hlog : forall v, invocations calls0 (shared c) v = occurrences v (map fst log))
    by (intros v; eapply invocations_log; eauto).
  assert (Hlog' : forall v, invocations calls0 w' v
                            = occurrences v (map fst (log ++ [e])))
    by (intros v; eapply (invocations_log _ _ _ _ _ (Config w' _)); eauto).
  assert (Hinv_w' : forall v, invocations calls0 w' v
            = (invocations calls0 (shared c) v + if decide (p = v) then 1 else 0)%nat).
  { intros v. rewrite Hlog, Hlog', map_app, occurrences_app. cbn. lia. }
  assert (Hext : forall u, u <> p -> f' u = f u).
  { intros u Hu. unfold f', f. rewrite Hinv_w', decide_False by congruence.
    rewrite Nat.add_0_r. reflexivity. }
  assert (Hfp : f p = weight h0 p).
  { unfold f. rewrite Hlog, HL. reflexivity. }
  assert (Hf'p : f' p = 0%nat).
  { unfold f'. rewrite Hinv_w', decide_True by reflexivity.
    rewrite Nat.add_1_r. reflexivity. }
  pose proof (sum_list_with_update f f' nodes p (wf_owned _ _ Hwf) Hp Hext) as Hnode.
  rewrite Hfp, Hf'p in Hnode. unfold weight in Hnode. lia.
Qed.

(** A step of a worker that is not idling lowers the measure. *)
Lemma measure_step_productive c i t :
  tick_invariant h0 calls0 g c ->
  threads c !! i = Some t -> productive (shared c) (pos t) ->
  step c (step_of i c) /\ (size (step_of i c) < size c)%nat.
Proof.
  intros (k & log & Hinv) Hi Hprod.
  assert (Hcan : can_step (pos t) = true)
    by (destruct (pos t); try reflexivity; contradiction).
  split; [by eapply step_thread|].
  assert (Hcase : (exists p cn, pos t = AtJob p cn) \/ (forall p cn, pos t <> AtJob p cn)).
  { destruct (pos t); try (right; discriminate). left; eauto. }
  destruct Hcase as [(p & cn & Hpos)|Hjob].
  - eapply measure_step_job; eauto.
  - by apply (measure_step_plain c i t Hi Hcan Hjob).
Qed.


(** While [node_count] is not 0 and the FIFO is empty, some worker has a
    node in hand or runs one: otherwise a node of least rank among those
    not yet called would have all its predecessors finished and so be
    ready. *)
Lemma some_thread_busy k log c :
  inv k log c ->
  node_count (interpreter (shared c)) <> 0 ->
  fifo (interpreter (shared c)) = [] ->
  exists j t, threads c !! j = Some t /\ busy (pos t) = true.
Proof.
  intros Hinv Hnc Hfifo.
  destruct (busy_or_idle (threads c)) as [Hbusy|Hidle]; [exact Hbusy|]. exfalso.
  assert (Hsums : forall p, tokens c p = 0%nat /\ runners (threads c) p = 0%nat).
  { intros p. destruct (idle_sums (threads c) p Hidle) as (Hh & Hr & _).
    unfold tokens. rewrite Hfifo, Hh. auto. }
  assert (Hfl : flights (threads c) = 0)
    by (destruct (idle_sums (threads c) 1%positive Hidle) as (_ & _ & Hf); exact Hf).
  pose proof (inv_count _ _ _ _ _ _ Hinv) as Hcount. rewrite Hfl in Hcount.
  pose proof (wf_total _ _ Hwf) as Htotal.
  set (uncalled := filter (fun v => occurrences v (map fst log) = 0%nat) nodes).
  assert (Hne : uncalled <> []).
  { intros Hnil.
    assert (Hall : forall v, v ∈ nodes -> v ∈ map fst log).
    { intros v Hv. apply occurrences_pos.
      destruct (occurrences v (map fst log)) eqn:E; [|lia].
      assert (v ∈ uncalled) as Hin by (apply list_elem_of_filter; auto).
      rewrite Hnil in Hin. inversion Hin. }
    pose proof (submseteq_length _ _
                  (NoDup_submseteq _ _ (wf_owned _ _ Hwf) Hall)) as Hlen.
    rewrite List.length_map in Hlen.
    pose proof (log_length_le _ _ _ Hwf _ _ _ Hinv). lia. }
  destruct (wf_acyclic _ _ Hwf) as [rank Hrank].
  destruct (least_rank rank uncalled Hne) as (v & Hv & Hmin).
  apply list_elem_of_filter in Hv as [HLv Hvn].
  destruct (Hsums v) as [HTv HRv].
  pose proof (inv_nodes _ _ _ _ _ _ Hinv v Hvn) as Hnv.
  assert (Hdone : done k v = in_degree h0 nodes v).
  { apply edges_done_all. intros u Hu Hin.
    pose proof (Hrank u v Hu Hin) as Hlt.
    destruct (Hsums u) as [HTu HRu].
    pose proof (inv_nodes _ _ _ _ _ _ Hinv u Hu) as Hnu.
    destruct (occurrences u (map fst log)) eqn:HLu.
    - assert (u ∈ uncalled) as Hin' by (apply list_elem_of_filter; auto).
      specialize (Hmin u Hin'). lia.
    - unfold node_ok in Hnu. destruct Hnu as [Hnu|[Hnu|[Hnu|Hnu]]]; lia. }
  pose proof (wf_limit _ _ Hwf v Hvn) as Hlim.
  unfold node_ok in Hnv. destruct Hnv as [Hnv|[Hnv|[Hnv|Hnv]]]; lia.
Qed.

Lemma step_of_idle_loop c i t :
  threads c !! i = Some t -> pos t = AtLoop ->
  node_count (interpreter (shared c)) <> 0 ->
  step_of i c = Config (shared c) (<[i := set_pos AtDequeue t]> (threads c)).
Proof.
  intros Hi Hpos Hnc. apply step_of_returns; [exact Hi | rewrite Hpos; reflexivity |].
  unfold next_position, load_node_count, bind, ret. rewrite Hpos.
  destruct (Z.eqb_spec (node_count (interpreter (shared c))) 0); [contradiction|].
  reflexivity.
Qed.

Lemma step_of_idle_dequeue c i t :
  threads c !! i = Some t -> pos t = AtDequeue ->
  fifo (interpreter (shared c)) = [] ->
  step_of i c = Config (shared c) (<[i := set_pos AtLoop t]> (threads c)).
Proof.
  intros Hi Hpos Hf. apply step_of_returns; [exact Hi | rewrite Hpos; reflexivity |].
  unfold next_position, fifo_dequeue, bind, ret. rewrite Hpos, Hf. reflexivity.
Qed.

(** Until the master has returned, the tick can be brought forward. *)
Lemma progress c t0 :
  tick_invariant h0 calls0 g c ->
  threads c !! 0%nat = Some t0 -> pos t0 <> Returned ->
  exists c', rtc step c c' /\ (size c' < size c)%nat.
Proof.
  intros Hinv H0 Hnot.
  assert (Hgo : forall i t, threads c !! i = Some t -> productive (shared c) (pos t) ->
                exists c', rtc step c c' /\ (size c' < size c)%nat).
  { intros i t Hi Hp. exists (step_of i c).
    destruct (measure_step_productive c i t Hinv Hi Hp) as [Hstep Hlt].
    split; [by apply rtc_once | exact Hlt]. }
  destruct (busy_or_idle (threads c)) as [(j & t & Hj & Hb)|Hidle].
  { apply (Hgo j t Hj). destruct (pos t); try discriminate; exact I. }
  destruct Hinv as (k & log & Hinv).
  pose proof (position_ok_at _ _ _ _ _ _ _ _ Hinv H0) as Hok.
  destruct (pos t0) eqn:Hpos; try contradiction;
    try (apply (Hgo 0%nat t0 H0); rewrite Hpos; cbn; auto; fail);
    try (pose proof (Hidle t0 (list_elem_of_lookup_2 _ _ _ H0)) as Hb;
         rewrite Hpos in Hb; discriminate).
  - (* AtLoop *)
    destruct (decide (node_count (interpreter (shared c)) = 0)) as [Hnc|Hnc].
    { apply (Hgo 0%nat t0 H0). rewrite Hpos. exact Hnc. }
    destruct (fifo (interpreter (shared c))) as [|x rest] eqn:Hfifo.
    { destruct (some_thread_busy _ _ _ Hinv Hnc Hfifo) as (j & t & Hj & Hb).
      rewrite (Hidle t (list_elem_of_lookup_2 _ _ _ Hj)) in Hb. discriminate. }
    assert (Hstep1 : step c (step_of 0 c))
      by (eapply step_thread; eauto; rewrite Hpos; reflexivity).
    assert (Hinv1 : tick_invariant h0 calls0 g (step_of 0 c))
      by (eapply invariant_step; eauto; exists k, log; exact Hinv).
    destruct (measure_step_plain c 0%nat t0 H0) as [Hle _];
      [rewrite Hpos; reflexivity | rewrite Hpos; discriminate |].
    rewrite (step_of_idle_loop c 0%nat t0 H0 Hpos Hnc) in *.
    set (c1 := Config (shared c) (<[0%nat := set_pos AtDequeue t0]> (threads c))) in *.
    assert (H1 : threads c1 !! 0%nat = Some (set_pos AtDequeue t0)).
    { cbn. apply list_lookup_insert_eq. eapply lookup_lt_Some, H0. }
    destruct (measure_step_productive c1 0%nat _ Hinv1 H1) as [Hstep2 Hlt].
    { cbn. rewrite Hfifo. discriminate. }
    exists (step_of 0 c1). split; [|lia].
    eapply rtc_l; [exact Hstep1|]. by apply rtc_once.
  - (* AtDequeue *)
    destruct (fifo (interpreter (shared c))) as [|x rest] eqn:Hfifo.
    2: { apply (Hgo 0%nat t0 H0). rewrite Hpos. cbn. rewrite Hfifo. discriminate. }
    destruct (decide (node_count (interpreter (shared c)) = 0)) as [Hnc|Hnc].
    2: { destruct (some_thread_busy _ _ _ Hinv Hnc Hfifo) as (j & t & Hj & Hb).
         rewrite (Hidle t (list_elem_of_lookup_2 _ _ _ Hj)) in Hb. discriminate. }
    assert (Hstep1 : step c (step_of 0 c))
      by (eapply step_thread; eauto; rewrite Hpos; reflexivity).
    assert (Hinv1 : tick_invariant h0 calls0 g (step_of 0 c))
      by (eapply invariant_step; eauto; exists k, log; exact Hinv).
    destruct (measure_step_plain c 0%nat t0 H0) as [Hle _];
      [rewrite Hpos; reflexivity | rewrite Hpos; discriminate |].
    rewrite (step_of_idle_dequeue c 0%nat t0 H0 Hpos Hfifo) in *.
    set (c1 := Config (shared c) (<[0%nat := set_pos AtLoop t0]> (threads c))) in *.
    assert (H1 : threads c1 !! 0%nat = Some (set_pos AtLoop t0)).
    { cbn. apply list_lookup_insert_eq. eapply lookup_lt_Some, H0. }
    destruct (measure_step_productive c1 0%nat _ Hinv1 H1) as [Hstep2 Hlt].
    { cbn. exact Hnc. }
    exists (step_of 0 c1). split; [|lia].
    eapply rtc_l; [exact Hstep1|]. by apply rtc_once.
Qed.

(** From every state of the tick an interleaving leads to the return of
    the master. *)
Lemma tick_can_return c :
  tick_invariant h0 calls0 g c -> is_Some (threads c !! 0%nat) ->
  exists c', rtc step c c' /\ master_returned c'.
Proof.
  remember (size c) as n eqn:Hn. revert c Hn.
  induction n as [n IH] using lt_wf_ind. intros c Hn Hinv [t0 H0].
  assert (Hcase : pos t0 = Returned \/ pos t0 <> Returned)
    by (destruct (pos t0); (left; reflexivity) || (right; discriminate)).
  destruct Hcase as [Hret|Hnot].
  - exists c. split; [reflexivity|]. exists t0. auto.
  - destruct (progress c t0 Hinv H0 Hnot) as (c1 & Hsteps & Hlt).
    destruct (IH (size c1) ltac:(lia) c1 eq_refl) as (c2 & Hsteps2 & Hret).
    + eapply invariant_steps; eauto.
    + apply lookup_lt_is_Some. rewrite (steps_length _ _ Hsteps).
      eapply lookup_lt_Some, H0.
    + exists c2. split; [|exact Hret]. by etransitivity.
Qed.

End Measure.

End Progress.

(** ** A worker alone

    Run by a single worker, the places of the worker go through the
    methods as the sequential functions compute them. *)

Section Alone.

Context `{Platform}.
Context {runnable : Type}.

Implicit Types (w : world runnable) (m : bool) (i cn : Z) (p : ptr).

(** The next action at a given place. *)
Ltac at_place :=
  unfold next_position; cbn [pos thread_index master];
  unfold after_run_item, bind, assert, ret; cbn [master].

Lemma alone_step m i l w l' w' :
  can_step l = true ->
  next_position (Thread m i l) w = Returns (l', w') ->
  step (Config w [Thread m i l]) (Config w' [Thread m i l']).
Proof.
  intros Hcan Hnext.
  pose proof (step_thread (Config w [Thread m i l]) 0 (Thread m i l) eq_refl Hcan) as Hs.
  rewrite (step_of_returns (Config w [Thread m i l]) 0 (Thread m i l) l' w'
             eq_refl Hcan Hnext) in Hs.
  exact Hs.
Qed.

Lemma alone_update_remaining m i p cn n rest w w' :
  update_remaining rest w = Returns (tt, w') ->
  rtc step (Config w [Thread m i (AtUpdate p cn rest (Some n))])
           (Config w' [Thread m i (AtUpdate p cn [] (Some n))]).
Proof.
  revert w. induction rest as [|s rest IH]; intros w Hr.
  - injection Hr as <-. reflexivity.
  - unfold update_remaining in Hr. cbn [foreach] in Hr.
    apply bind_returns in Hr as ([] & w1 & Hdec & Hrest).
    unfold dec_ref_count in Hdec.
    apply bind_returns in Hdec as (cur & w0 & Hfs & Hdec).
    apply bind_returns in Hdec as ([] & w0' & Ha & Hdec).
    apply assert_returns in Ha as [Hpos ->].
    destruct (cur =? 1) eqn:Hcur.
    + eapply rtc_l.
      { apply (alone_step m i _ w (AtMark p cn rest (Some n) s) w0); [reflexivity|].
        at_place. rewrite Hfs, Hpos, Hcur.
        reflexivity. }
      eapply rtc_l.
      { apply (alone_step m i _ w0 (AtUpdate p cn rest (Some n)) w1); [reflexivity|].
        at_place. rewrite Hdec. reflexivity. }
      apply IH, Hrest.
    + injection Hdec as <-. eapply rtc_l.
      { apply (alone_step m i _ w (AtUpdate p cn rest (Some n)) w0); [reflexivity|].
        at_place. rewrite Hfs, Hpos, Hcur.
        reflexivity. }
      apply IH, Hrest.
Qed.

Lemma alone_update_from m i p cn rest w next w' :
  update_from rest w = Returns (next, w') ->
  rtc step (Config w [Thread m i (AtUpdate p cn rest None)])
           (Config w' [Thread m i (AtUpdate p cn [] next)]).
Proof.
  revert w. induction rest as [|s rest IH]; intros w Hr.
  - injection Hr as <- <-. reflexivity.
  - cbn [update_from] in Hr.
    apply bind_returns in Hr as (ptr' & w1 & Hdec & Hrest).
    unfold dec_ref_count_ptr in Hdec.
    apply bind_returns in Hdec as (cur & w0 & Hfs & Hdec).
    apply bind_returns in Hdec as ([] & w0' & Ha & Hdec).
    apply assert_returns in Ha as [Hpos ->].
    destruct (cur =? 1) eqn:Hcur.
    + injection Hdec as <- <-.
      apply bind_returns in Hrest as ([] & w2 & Hrem & Hret). injection Hret as <- <-.
      eapply rtc_l.
      { apply (alone_step m i _ w (AtUpdate p cn rest (Some s)) w0); [reflexivity|].
        at_place. rewrite Hfs, Hpos, Hcur.
        reflexivity. }
      apply alone_update_remaining, Hrem.
    + injection Hdec as <- <-. eapply rtc_l.
      { apply (alone_step m i _ w (AtUpdate p cn rest None) w0); [reflexivity|].
        at_place. rewrite Hfs, Hpos, Hcur.
        reflexivity. }
      apply IH, Hrest.
Qed.

(** [run] of the node in hand: from the entry of [run] to the entry of the
    next [run] of the chain, or to the end of the chain. *)
Lemma alone_run m i p cn w next w' :
  run p (uint8_t i) w = Returns (next, w') ->
  rtc step (Config w [Thread m i (AtRun p cn)])
           (Config w' [Thread m i (match next with
                                   | Some q => AtRun q (node_count_t (cn + 1))
                                   | None => AtFetchSub (node_count_t (cn + 1))
                                   end)]).
Proof.
  unfold run. intros Hr.
  apply bind_returns in Hr as (count & w1 & Hload & Hr).
  apply bind_returns in Hr as ([] & w1' & Ha & Hr).
  apply assert_returns in Ha as [Hzero ->].
  assert (w1 = w) as ->.
  { unfold load_activation_count in Hload.
    apply bind_returns in Hload as (it & w2 & Hd & Hret).
    apply deref_returns in Hd as [_ ->]. by injection Hret. }
  apply bind_returns in Hr as ([] & w2 & Hjob & Hr).
  apply bind_returns in Hr as (next' & w3 & Hupd & Hr).
  apply bind_returns in Hr as ([] & w4 & Hreset & Hret). injection Hret as -> ->.
  unfold update_dependencies in Hupd.
  apply bind_returns in Hupd as (it & w2' & Hd & Hfrom).
  pose proof Hd as Hd'. apply deref_returns in Hd' as [_ ->].
  unfold reset_activation_count in Hreset.
  apply bind_returns in Hreset as (count' & w3' & Hload' & Hreset).
  apply bind_returns in Hreset as ([] & w3'' & Ha' & Hstore).
  apply assert_returns in Ha' as [Hzero' ->].
  assert (w3' = w3) as ->.
  { unfold load_activation_count in Hload'.
    apply bind_returns in Hload' as (it' & w5 & Hd' & Hret).
    apply deref_returns in Hd' as [_ ->]. by injection Hret. }
  eapply rtc_l.
  { apply (alone_step m i _ w (AtJob p cn) w); [reflexivity|].
    at_place. rewrite Hload, Hzero. reflexivity. }
  eapply rtc_l.
  { apply (alone_step m i _ w (AtUpdate p cn (successors it) None) w2); [reflexivity|].
    at_place. rewrite Hjob, Hd. reflexivity. }
  etransitivity; [apply alone_update_from, Hfrom|].
  eapply rtc_l.
  { apply (alone_step m i _ w3 (AtResetAssert p cn next) w3); reflexivity. }
  eapply rtc_l.
  { apply (alone_step m i _ w3 (AtResetStore p cn next) w3); [reflexivity|].
    at_place. rewrite Hload', Hzero'. reflexivity. }
  apply rtc_once. apply alone_step; [reflexivity|].
  at_place. unfold bind in Hstore.
  destruct (deref p w3) as [[it' w6]| | |]; try discriminate.
  destruct (store_activation_count p (activation_limit it') w6) as [[[] w7]| | |];
    try discriminate.
  injection Hstore as <-. reflexivity.
Qed.

Lemma alone_run_chain fuel m i p cn w consumed w' :
  run_chain fuel p i cn w = Returns (consumed, w') ->
  rtc step (Config w [Thread m i (AtRun p cn)])
           (Config w' [Thread m i (AtFetchSub consumed)]).
Proof.
  revert p cn w. induction fuel as [|fuel IH]; intros p cn w Hr; [discriminate|].
  cbn [run_chain] in Hr. apply bind_returns in Hr as (next & w1 & Hrun & Hr).
  etransitivity; [apply (alone_run m i p cn), Hrun|].
  destruct next as [q|].
  - apply IH, Hr.
  - injection Hr as <- <-. reflexivity.
Qed.

Lemma alone_run_next_item fuel m i w state w' :
  run_next_item fuel i w = Returns (state, w') ->
  rtc step (Config w [Thread m i AtDequeue])
           (Config w' [Thread m i (match state with
                                   | no_remaining_items => if m then AtWait else Returned
                                   | _ => AtLoop
                                   end)]).
Proof.
  unfold run_next_item. intros Hr.
  apply bind_returns in Hr as (item & w1 & Hdeq & Hr).
  destruct item as [p|].
  - apply bind_returns in Hr as (consumed & w2 & Hchain & Hr).
    apply bind_returns in Hr as (remaining & w3 & Hsub & Hr).
    apply bind_returns in Hr as ([] & w3' & Ha & Hr).
    apply assert_returns in Ha as [Hle ->].
    eapply rtc_l.
    { apply (alone_step m i _ w (AtRun p 0) w1); [reflexivity|].
      at_place. rewrite Hdeq. reflexivity. }
    etransitivity; [eapply alone_run_chain, Hchain|].
    apply rtc_once. apply alone_step; [reflexivity|].
    at_place. rewrite Hsub, Hle.
    destruct (remaining =? consumed); injection Hr as <- <-; reflexivity.
  - injection Hr as <- <-. apply rtc_once. apply alone_step; [reflexivity|].
    at_place. rewrite Hdeq. reflexivity.
Qed.

Lemma alone_run_item fuel m i w w' :
  run_item fuel i w = Returns (tt, w') ->
  rtc step (Config w [Thread m i AtLoop])
           (Config w' [Thread m i (if m then AtWait else Returned)]).
Proof.
  revert w. induction fuel as [|fuel IH]; intros w Hr; [discriminate|].
  cbn [run_item] in Hr. unfold bind at 1, load_node_count in Hr.
  destruct (node_count (interpreter w) =? 0) eqn:Hn.
  - injection Hr as <-. apply rtc_once. apply alone_step; [reflexivity|].
    at_place. unfold load_node_count.
    rewrite Hn. reflexivity.
  - apply bind_returns in Hr as (state & w1 & Hnext & Hr).
    eapply rtc_l.
    { apply (alone_step m i _ w AtDequeue w); [reflexivity|].
      at_place. unfold load_node_count. rewrite Hn. reflexivity. }
    etransitivity; [eapply alone_run_next_item, Hnext|].
    destruct state; [injection Hr as <-; reflexivity | apply IH, Hr | apply IH, Hr].
Qed.

Lemma alone_wait_for_end fuel i w w' :
  wait_for_end fuel w = Returns (tt, w') ->
  rtc step (Config w [Thread true i AtWait]) (Config w' [Thread true i AtFifoAssert]).
Proof.
  induction fuel as [|fuel IH]; intros Hr; [discriminate|].
  cbn [wait_for_end] in Hr. unfold bind, load_node_count in Hr.
  destruct (node_count (interpreter w) =? 0) eqn:Hn.
  - injection Hr as <-. apply rtc_once. apply alone_step; [reflexivity|].
    at_place. unfold load_node_count. rewrite Hn. reflexivity.
  - apply IH, Hr.
Qed.

(** A helper alone: [tick] returns as its worker does. *)
Lemma alone_tick fuel i w w' :
  tick fuel i w = Returns (tt, w') ->
  rtc step (Config w [Thread false i AtLoop]) (Config w' [Thread false i Returned]).
Proof. apply (alone_run_item fuel false). Qed.

(** The master without helpers: [tick_master] returns as its worker does. *)
Lemma alone_tick_master fuel w w' :
  tick_master fuel w = Returns (tt, w') ->
  rtc step (start_tick w []) (Config w' [Thread true 0 Returned]).
Proof.
  unfold tick_master, run_item_master, start_tick. intros Hr.
  apply bind_returns in Hr as ([] & w1 & Hrun & Hr).
  apply bind_returns in Hr as ([] & w2 & Hwait & Hr).
  apply bind_returns in Hr as (e & w3 & Hempty & Ha).
  apply assert_returns in Ha as [-> ->].
  etransitivity; [apply (alone_run_item fuel true), Hrun|].
  etransitivity; [eapply alone_wait_for_end, Hwait|].
  apply rtc_once. apply alone_step; [reflexivity|].
  at_place. rewrite Hempty. reflexivity.
Qed.

End Alone.

(** ** Every node runs exactly once per tick *)

Section Once.

Context `{Platform}.
Context {runnable : Type}.

Lemma step_of_steps i (c : config runnable) : rtc step c (step_of i c).
Proof.
  destruct (threads c !! i) as [t|] eqn:Hi.
  - destruct (can_step (pos t)) eqn:Hcan.
    + apply rtc_once. by eapply step_thread.
    + unfold step_of. rewrite Hi, Hcan. reflexivity.
  - unfold step_of. rewrite Hi. reflexivity.
Qed.

Lemma schedule_steps s (c : config runnable) : rtc step c (schedule s c).
Proof.
  revert c. induction s as [|i s IH]; intros c; [reflexivity|].
  cbn. etransitivity; [apply step_of_steps | apply IH].
Qed.

(** X18: installing a freshly built graph of the data model leaves it as
    a tick needs it: [reset_queue] returns the graph installed before, the
    new graph is installed and still a graph of the data model, every
    counter is at its limit, and the FIFO, [node_count] and the record of
    calls are untouched. *)
Lemma reset_queue_prepares_tick (w : world runnable) (g : dsp_thread_queue) :
  freshly_built (heap w) g ->
  well_formed (heap w) g ->
  exists w1,
    reset_queue (Some g) w = Returns (queue (interpreter w), w1) /\
    queue (interpreter w1) = Some g /\
    fifo (interpreter w1) = fifo (interpreter w) /\
    node_count (interpreter w1) = node_count (interpreter w) /\
    calls w1 = calls w /\
    well_formed (heap w1) g /\
    counters_reset (heap w1) g.
Proof.
  intros (Htot & Hnd & Hall) Hwf.
  destruct (foreach_reset_fresh _ w Hnd Hall) as (w1 & Hrun & _ & Hin).
  assert (Hr : reset_activation_counts g w = Returns (tt, w1)).
  { unfold reset_activation_counts, bind, assert. rewrite Htot, Z.eqb_refl. exact Hrun. }
  eexists. split; [apply (reset_queue_some _ _ _ Hr)|]. cbn.
  assert (Hnode : forall p, p ∈ queue_items g ->
            exists it, heap w !! p = Some it /\
              heap w1 !! p = Some (set_activation_count (activation_limit it) it)).
  { intros p Hp. destruct (Hall p Hp) as (it & Hit & _). eauto. }
  do 4 (split; [reflexivity|]). split.
  - apply (well_formed_static (heap w) g Hwf). intros p Hp.
    destruct (Hnode p Hp) as (it & Hit & Hit1). eexists. split; [exact Hit1|].
    unfold successors_of, limit_of. rewrite Hit. auto.
  - intros p Hp. destruct (Hnode p Hp) as (it & Hit & Hit1).
    unfold count_of, limit_of. rewrite Hit1. reflexivity.
Qed.

(** X19: the sequential [tick_master], whatever its fuel, when it returns
    has called the job of every node of the graph once and no other job: it
    is the master alone. *)
Lemma tick_master_alone_once fuel (w0 w1 w2 : world runnable) (g : dsp_thread_queue) p :
  queue (interpreter w0) = Some g ->
  well_formed (heap w0) g ->
  counters_reset (heap w0) g ->
  init_tick w0 = Returns (true, w1) ->
  tick_master fuel w1 = Returns (tt, w2) ->
  invocations (calls w0) w2 p = if decide (p ∈ queue_items g) then 1%nat else 0%nat.
Proof.
  intros Hq Hwf Hreset Hinit Htick.
  pose proof (alone_tick_master _ _ _ Htick) as Hsteps.
  assert (Hinv : tick_invariant (heap w0) (calls w0) g
                   (Config w2 [Thread true 0 Returned])).
  { eapply invariant_steps; eauto.
    exists (fun _ => 0%nat), []. by eapply invariant_start. }
  apply (tick_exactly_once _ _ _ Hwf _ p Hinv). by exists (Thread true 0 Returned).
Qed.

(** C1: for a graph of the data model installed with its counters reset,
    take a tick: [init_tick] returns true, then the master and any helpers
    run their worker loops, interleaved in any way.  Then no assertion
    fails and no job is called twice; once [tick_master] has returned, the
    job of every node of the graph has been called exactly once (and no
    other job), and the interpreter and the graph are as the next tick
    needs them; and from every state of the tick some interleaving brings
    [tick_master] to return. *)
Theorem tick_runs_every_node_once
    (w0 w1 : world runnable) (g : dsp_thread_queue) (helpers : list Z)
    (c : config runnable) :
  queue (interpreter w0) = Some g ->
  well_formed (heap w0) g ->
  counters_reset (heap w0) g ->
  init_tick w0 = Returns (true, w1) ->
  rtc step (start_tick w1 helpers) c ->
  ~ failed c /\
  (forall p, (invocations (calls w0) (shared c) p <= 1)%nat) /\
  (master_returned c ->
   (forall p, invocations (calls w0) (shared c) p
              = if decide (p ∈ queue_items g) then 1%nat else 0%nat) /\
   queue (interpreter (shared c)) = Some g /\
   node_count (interpreter (shared c)) = 0 /\
   fifo (interpreter (shared c)) = [] /\
   well_formed (heap (shared c)) g /\
   counters_reset (heap (shared c)) g) /\
  (exists c', rtc step c c' /\ master_returned c').
Proof.
  intros Hq Hwf Hreset Hinit Hsteps.
  assert (Hstart : tick_invariant (heap w0) (calls w0) g (start_tick w1 helpers)).
  { exists (fun _ => 0%nat), []. by eapply invariant_start. }
  assert (Hinv : tick_invariant (heap w0) (calls w0) g c)
    by (eapply invariant_steps; eauto).
  split; [by eapply tick_never_fails|].
  split; [intros p; by eapply tick_at_most_once|].
  split.
  { intros Hret. split; [intros p; by eapply tick_exactly_once|].
    by eapply tick_leaves_ready. }
  eapply tick_can_return; eauto.
  apply lookup_lt_is_Some. rewrite (steps_length _ _ Hsteps). cbn. lia.
Qed.

End Once.

(** *** A tick of the diamond with one helper *)

Lemma diamond_well_formed :
  well_formed (H := lp64_platform) (heap diamond_installed) diamond_queue.
Proof.
  assert (Hcases : forall (P : ptr -> Prop),
            P 1%positive -> P 2%positive -> P 3%positive -> P 4%positive ->
            forall p, p ∈ queue_items diamond_queue -> P p).
  { intros P H1 H2 H3 H4 p Hp. cbn in Hp.
    repeat (apply elem_of_cons in Hp as [->|Hp]); auto. inversion Hp. }
  constructor.
  - reflexivity.
  - vm_compute. reflexivity.
  - apply (bool_decide_unpack _). vm_compute. exact I.
  - intros p Hp. pattern p. eapply Hcases; [.. | exact Hp]; vm_compute; eauto.
  - intros p s Hp. revert s. pattern p. eapply Hcases; [.. | exact Hp];
      intros s Hs; vm_compute in Hs;
      repeat (apply elem_of_cons in Hs as [->|Hs]);
      try (apply (bool_decide_unpack _); vm_compute; exact I);
      inversion Hs.
  - intros p Hp. pattern p. eapply Hcases; [.. | exact Hp]; vm_compute; reflexivity.
  - intros p Hp. pattern p. eapply Hcases; [.. | exact Hp]; vm_compute; reflexivity.
  - apply (bool_decide_unpack _). vm_compute. exact I.
  - intros p. split.
    + intros Hp. apply list_elem_of_singleton in Hp as ->.
      split; [apply (bool_decide_unpack _); vm_compute; exact I | reflexivity].
    + intros [Hp Hlim]. revert Hlim. pattern p. eapply Hcases; [.. | exact Hp];
        intros Hlim; vm_compute in Hlim; try discriminate.
      left.
  - exists Pos.to_nat. intros p s Hp. revert s. pattern p.
    eapply Hcases; [.. | exact Hp];
      intros s Hs; vm_compute in Hs;
      repeat (apply elem_of_cons in Hs as [->|Hs]);
      try (vm_compute; lia);
      inversion Hs.
Qed.

Lemma diamond_counters_reset : counters_reset (heap diamond_installed) diamond_queue.
Proof.
  intros p Hp. cbn in Hp.
  repeat (apply elem_of_cons in Hp as [->|Hp]); try (vm_compute; reflexivity).
  inversion Hp.
Qed.

Lemma tick_runs_every_node_once_witness :
  let c := schedule (H := lp64_platform) (concat (repeat [0%nat; 1%nat] 30))
             (start_tick diamond_seeded [1]) in
  ~ failed c /\
  master_returned c /\
  forall p, invocations [] (shared c) p
            = if decide (p ∈ [1%positive; 2%positive; 3%positive; 4%positive])
              then 1%nat else 0%nat.
Proof.
  intros c.
  destruct (tick_runs_every_node_once (H := lp64_platform)
              diamond_installed diamond_seeded diamond_queue [1] c)
    as (Hsafe & _ & Honce & _).
  - reflexivity.
  - exact diamond_well_formed.
  - exact diamond_counters_reset.
  - vm_compute. reflexivity.
  - apply schedule_steps.
  - assert (Hret : master_returned c).
    { exists (Thread true 0 Returned). split; vm_compute; reflexivity. }
    split; [exact Hsafe|]. split; [exact Hret|]. exact (proj1 (Honce Hret)).
Defined.

(** ** Building, installing and destroying graphs *)

Section Lifecycle.

Context `{Platform}.
Context {runnable : Type}.

Local Abbreviation world := (world runnable).

Implicit Types (w : world) (p : ptr) (q g : dsp_thread_queue).

(** X1: [add_queue_item] on a graph whose count agrees with its items
    appends the item and counts it, and leaves the initially runnable items
    alone, as long as the count fits [node_count_t]; when the increment
    wraps the count around, the assertion fails. *)
Theorem add_queue_item_counts p q :
  total_node_count q = Z.of_nat (length (queue_items q)) ->
  add_queue_item p q =
    if decide (total_node_count q + 1 < 2 ^ fast16_bits)
    then Some (Queue (total_node_count q + 1) (initially_runnable_items q)
                 (queue_items q ++ [p]))
    else None.
Proof.
  intros Htot. unfold add_queue_item. cbn. rewrite length_app. cbn.
  destruct (decide (total_node_count q + 1 < 2 ^ fast16_bits)) as [Hlt|Hge].
  - rewrite node_count_t_small by lia.
    replace (total_node_count q + 1 =? _) with true; [reflexivity|].
    symmetry. apply Z.eqb_eq. lia.
  - pose proof (node_count_t_range (total_node_count q + 1)).
    replace (node_count_t (total_node_count q + 1) =? _) with false; [reflexivity|].
    symmetry. apply Z.eqb_neq. lia.
Qed.

(** *** The destructor *)

Lemma foreach_delete_item (l : list ptr) w :
  NoDup l ->
  (forall p, p ∈ l -> is_Some (heap w !! p)) ->
  exists w', foreach l delete_item w = Returns (tt, w') /\
    interpreter w' = interpreter w /\ calls w' = calls w /\
    forall p, heap w' !! p = if decide (p ∈ l) then None else heap w !! p.
Proof.
  revert w. induction l as [|x l IH]; intros w Hnd Hall.
  - exists w. repeat split. 
  - apply NoDup_cons in Hnd as [Hx Hnd].
    destruct (Hall x) as [it Hit]; [left|].
    destruct (IH (set_heap (delete x (heap w)) w) Hnd) as (w' & Hrun & Hi & Hc & Hh).
    { intros p Hp. cbn. apply lookup_delete_is_Some. split.
      - intros ->. contradiction.
      - apply Hall. by right. }
    exists w'. split.
    { cbn. unfold bind, delete_item at 1. rewrite Hit. exact Hrun. }
    split; [exact Hi|]. split; [exact Hc|].
    intros p. rewrite Hh. cbn.
    destruct (decide (p = x)) as [->|Hne].
    + rewrite lookup_delete_eq. rewrite (decide_True (P := x ∈ x :: l)) by left.
      by destruct (decide (x ∈ l)).
    + rewrite lookup_delete_ne by done.
      destruct (decide (p ∈ l)) as [Hin|Hin].
      * rewrite decide_True; [done | by right].
      * rewrite decide_False; [done|]. intros Hc'. apply elem_of_cons in Hc' as [?|?]; done.
Qed.

Lemma foreach_delete_item_undefined (l : list ptr) w :
  ~ (NoDup l /\ forall p, p ∈ l -> is_Some (heap w !! p)) ->
  foreach l delete_item w = Undefined.
Proof.
  revert w. induction l as [|x l IH]; intros w Hnot.
  - exfalso. apply Hnot. split; [constructor|]. intros p Hp. inversion Hp.
  - cbn. unfold bind, delete_item at 1.
    destruct (heap w !! x) as [it|] eqn:Hit; [|reflexivity].
    apply IH. cbn. intros [Hnd Hall]. apply Hnot.
    assert (Hx : x ∉ l).
    { intros Hx. destruct (Hall x Hx) as [? Hs]. by rewrite lookup_delete_eq in Hs. }
    split; [by apply NoDup_cons|].
    intros p Hp. apply elem_of_cons in Hp as [->|Hp]; [by eexists|].
    apply Hall in Hp. apply lookup_delete_is_Some in Hp. tauto.
Qed.

(** X2: the destructor of a graph whose items are distinct and allocated
    returns, having deleted exactly these items and touched nothing else;
    for any other graph (an item added twice, or an item that is not
    allocated any more) it deletes what is not allocated. *)
Theorem destructor_deletes_items q w :
  (NoDup (queue_items q) /\ (forall p, p ∈ queue_items q -> is_Some (heap w !! p)) ->
   exists w', destroy_dsp_thread_queue q w = Returns (tt, w') /\
     interpreter w' = interpreter w /\ calls w' = calls w /\
     forall p, heap w' !! p = if decide (p ∈ queue_items q) then None else heap w !! p) /\
  (~ (NoDup (queue_items q) /\ forall p, p ∈ queue_items q -> is_Some (heap w !! p)) ->
   destroy_dsp_thread_queue q w = Undefined).
Proof.
  split.
  - intros [Hnd Hall]. by apply foreach_delete_item.
  - apply foreach_delete_item_undefined.
Qed.

(** X3: destroying a graph (the one that [reset_queue] or [release_queue]
    has handed back, say) that shares no item with the graph [g] frees its
    items and leaves [g] as it was: a graph of the data model with its
    counters reset. *)
Theorem destructor_keeps_other_graph old g w :
  NoDup (queue_items old) ->
  (forall p, p ∈ queue_items old -> is_Some (heap w !! p)) ->
  (forall p, p ∈ queue_items old -> p ∉ queue_items g) ->
  well_formed (heap w) g ->
  counters_reset (heap w) g ->
  exists w', destroy_dsp_thread_queue_ptr (Some old) w = Returns (tt, w') /\
    interpreter w' = interpreter w /\
    (forall p, p ∈ queue_items old -> heap w' !! p = None) /\
    well_formed (heap w') g /\
    counters_reset (heap w') g.
Proof.
  intros Hnd Hall Hdisj Hwf Hreset.
  destruct (foreach_delete_item _ w Hnd Hall) as (w' & Hrun & Hi & _ & Hh).
  assert (Hsame : forall p, p ∈ queue_items g -> heap w' !! p = heap w !! p).
  { intros p Hp. rewrite Hh. rewrite decide_False; [done|].
    intros Hold. by apply (Hdisj p). }
  exists w'. split; [exact Hrun|]. split; [exact Hi|]. split.
  { intros p Hp. rewrite Hh. by rewrite decide_True. }
  split.
  - apply (well_formed_static (heap w) g Hwf). intros p Hp.
    destruct (wf_allocated _ _ Hwf p Hp) as [it Hit].
    exists it. rewrite (Hsame p Hp). split; [exact Hit|].
    unfold successors_of, limit_of. rewrite Hit. auto.
  - intros p Hp. unfold count_of, limit_of. rewrite (Hsame p Hp).
    apply (Hreset p Hp).
Qed.

(** *** Installing *)

(** X4: [reset_queue] with a graph without nodes installs it, and the
    subtraction [thread_number - 1] wraps around: [used_helper_threads]
    becomes the largest [thread_count_t].  [init_tick] then returns false
    and changes nothing. *)
Theorem reset_queue_empty_graph w q :
  total_node_count q = 0 ->
  queue_items q = [] ->
  0 <= thread_count (interpreter w) ->
  exists w', reset_queue (Some q) w = Returns (queue (interpreter w), w') /\
    queue (interpreter w') = Some q /\
    thread_count (interpreter w') = thread_count (interpreter w) /\
    used_helper_threads (interpreter w') = thread_count_max /\
    init_tick w' = Returns (false, w').
Proof.
  intros Htot Hitems Htc.
  assert (Hr : reset_activation_counts q w = Returns (tt, w)).
  { unfold reset_activation_counts, bind, assert. rewrite Htot, Hitems. reflexivity. }
  eexists. split; [apply (reset_queue_some _ _ _ Hr)|]. cbn.
  split; [reflexivity|]. split; [reflexivity|]. split.
  - rewrite Htot. pose proof (node_count_t_range thread_count_max).
    rewrite (Z.min_l 0 (node_count_t thread_count_max)) by lia.
    pose proof pow_fast8_pos.
    rewrite (thread_count_t_small 0) by lia.
    rewrite Z.min_l by lia.
    unfold thread_count_t, thread_count_max. symmetry.
    apply (Z.mod_unique _ _ (-1)); lia.
  - unfold init_tick, get_interpreter, bind. cbn. rewrite Htot. reflexivity.
Qed.

Lemma foreach_reset_at_limit (l : list ptr) w :
  (forall p, p ∈ l -> is_Some (heap w !! p)) ->
  (forall p, p ∈ l -> count_of (heap w) p = limit_of (heap w) p) ->
  (exists p, p ∈ l /\ limit_of (heap w) p <> 0) ->
  foreach l reset_activation_count w = AssertionFailed.
Proof.
  revert w. induction l as [|x l IH]; intros w Hall Hlim (p0 & Hp0 & Hne).
  { inversion Hp0. }
  destruct (Hall x) as [it Hit]; [left|].
  pose proof (Hlim x ltac:(left)) as Hx. unfold count_of, limit_of in Hx.
  rewrite Hit in Hx.
  cbn. unfold bind. rewrite (reset_activation_count_eq _ _ _ Hit).
  destruct (Z.eqb_spec (activation_count it) 0) as [H0|]; [|reflexivity].
  assert (Hother : forall p, p <> x ->
            <[x := set_activation_count (activation_limit it) it]> (heap w) !! p
            = heap w !! p).
  { intros p Hpx. by rewrite lookup_insert_ne. }
  apply IH; cbn.
  - intros p Hp. destruct (decide (p = x)) as [->|Hpx].
    + rewrite lookup_insert_eq. by eexists.
    + rewrite Hother by done. apply Hall. by right.
  - intros p Hp. unfold count_of, limit_of. destruct (decide (p = x)) as [->|Hpx].
    + rewrite lookup_insert_eq. reflexivity.
    + rewrite Hother by done. apply (Hlim p). by right.
  - exists p0. assert (Hpx : p0 <> x).
    { intros ->. apply Hne. unfold limit_of. rewrite Hit. lia. }
    apply elem_of_cons in Hp0 as [?|Hp0]; [done|]. split; [exact Hp0|].
    unfold limit_of. rewrite Hother by done. exact Hne.
Qed.

(** X5: a graph can be installed once.  When its counters are at their
    limits, as [reset_queue] and every tick leave them, and some node has a
    predecessor, [reset_queue] with this graph fails the assertion of
    [reset_activation_count]. *)
Theorem reset_queue_again_fails w g :
  total_node_count g = Z.of_nat (length (queue_items g)) ->
  (forall p, p ∈ queue_items g -> is_Some (heap w !! p)) ->
  counters_reset (heap w) g ->
  (exists p, p ∈ queue_items g /\ limit_of (heap w) p <> 0) ->
  reset_queue (Some g) w = AssertionFailed.
Proof.
  intros Htot Hall Hreset Hsome.
  unfold reset_queue, get_interpreter, put_interpreter, bind. cbn.
  rewrite reset_activation_counts_set_interpreter.
  unfold reset_activation_counts, bind, assert. rewrite Htot, Z.eqb_refl.
  by rewrite foreach_reset_at_limit.
Qed.

(** *** Starting a tick *)

Lemma init_tick_nonempty w q :
  queue (interpreter w) = Some q ->
  total_node_count q <> 0 ->
  init_tick w =
    if node_count (interpreter w) =? 0 then
      match fifo (interpreter w) with
      | [] => Returns (true,
                set_interpreter
                  (set_fifo (initially_runnable_items q)
                     (set_node_count (total_node_count q) (interpreter w))) w)
      | _ => AssertionFailed
      end
    else AssertionFailed.
Proof.
  intros Hq Hne. unfold init_tick, get_interpreter, bind. cbn. rewrite Hq.
  destruct (Z.eqb_spec (total_node_count q) 0) as [|_]; [contradiction|].
  unfold load_node_count, fifo_is_empty, store_node_count, assert. cbn.
  destruct (node_count (interpreter w) =? 0); [|reflexivity]. cbn.
  destruct (fifo (interpreter w)) eqn:Hf; [|reflexivity]. cbn.
  rewrite foreach_mark_as_runnable. cbn. rewrite Hf. reflexivity.
Qed.

(** X6: with a graph that has nodes, [init_tick] cannot be called twice in
    a row: without a tick in between, the second call (if not already the
    first) fails an assertion, whatever the state. *)
Theorem init_tick_twice_fails w q :
  queue (interpreter w) = Some q ->
  total_node_count q <> 0 ->
  (init_tick ;;; init_tick) w = AssertionFailed.
Proof.
  intros Hq Hne. unfold bind at 1. rewrite (init_tick_nonempty w q Hq Hne).
  destruct (node_count (interpreter w) =? 0); [|reflexivity].
  destruct (fifo (interpreter w)); [|reflexivity].
  rewrite (init_tick_nonempty _ q) by (cbn; done). cbn.
  by destruct (Z.eqb_spec (total_node_count q) 0).
Qed.

(** *** A tick that has no node to start with *)

Lemma run_item_spins fuel index w :
  node_count (interpreter w) <> 0 ->
  fifo (interpreter w) = [] ->
  run_item fuel index w = OutOfFuel.
Proof.
  intros Hnc Hf. induction fuel as [|fuel IH]; [reflexivity|].
  cbn [run_item]. unfold run_next_item, bind, load_node_count, fifo_dequeue.
  destruct (Z.eqb_spec (node_count (interpreter w)) 0); [contradiction|].
  rewrite Hf. cbn. exact IH.
Qed.

Lemma idle_steps (c c' : config runnable) :
  node_count (interpreter (shared c)) <> 0 ->
  fifo (interpreter (shared c)) = [] ->
  (forall t, t ∈ threads c -> pos t = AtLoop \/ pos t = AtDequeue) ->
  rtc step c c' ->
  shared c' = shared c /\
  forall t, t ∈ threads c' -> pos t = AtLoop \/ pos t = AtDequeue.
Proof.
  intros Hnc Hf Hpos Hsteps. revert Hnc Hf Hpos.
  induction Hsteps as [c|c c1 c2 Hstep _ IH]; intros Hnc Hf Hpos; [auto|].
  destruct Hstep as [c i t Hi Hcan].
  assert (Hnext : exists l, (l = AtLoop \/ l = AtDequeue) /\
            step_of i c = Config (shared c) (<[i := set_pos l t]> (threads c))).
  { destruct (Hpos t (list_elem_of_lookup_2 _ _ _ Hi)) as [Hl|Hl].
    - exists AtDequeue. split; [by right|]. by apply step_of_idle_loop.
    - exists AtLoop. split; [by left|]. by apply step_of_idle_dequeue. }
  destruct Hnext as (l & Hl & Heq). rewrite Heq in IH.
  destruct IH as [Hshared Hthreads]; [exact Hnc | exact Hf | | ].
  - cbn. apply threads_step; [|exact Hl].
    intros j u Hj _. apply Hpos. by eapply list_elem_of_lookup_2.
  - rewrite Hshared. auto.
Qed.

(** X7: a graph that has nodes and none initially runnable (every node of
    a cyclic graph may have a predecessor) makes a tick that never ends:
    [init_tick] returns true, and then [tick_master] and [tick] spin on the
    empty FIFO whatever the fuel; in every interleaving of the master and
    its helpers the world stays as [init_tick] left it, no job is called,
    and the master does not return. *)
Theorem tick_without_runnable_node_spins w q :
  queue (interpreter w) = Some q ->
  total_node_count q <> 0 ->
  initially_runnable_items q = [] ->
  node_count (interpreter w) = 0 ->
  fifo (interpreter w) = [] ->
  exists w1, init_tick w = Returns (true, w1) /\
    (forall fuel, tick_master fuel w1 = OutOfFuel) /\
    (forall fuel index, tick fuel index w1 = OutOfFuel) /\
    (forall helpers c, rtc step (start_tick w1 helpers) c ->
       shared c = w1 /\ ~ master_returned c).
Proof.
  intros Hq Hne Hinit Hnc Hf.
  eexists. split.
  { rewrite (init_tick_nonempty w q Hq Hne), Hnc, Hf, Hinit. reflexivity. }
  set (w1 := set_interpreter _ w).
  assert (Hnc1 : node_count (interpreter w1) <> 0) by exact Hne.
  assert (Hf1 : fifo (interpreter w1) = []) by reflexivity.
  split; [|split].
  - intros fuel. unfold tick_master, run_item_master, bind.
    by rewrite run_item_spins.
  - intros fuel index. by apply run_item_spins.
  - intros helpers c Hsteps.
    destruct (idle_steps (start_tick w1 helpers) c Hnc1 Hf1) as [Hshared Hthreads];
      [|exact Hsteps|].
    { intros t Ht. left. cbn in Ht. apply elem_of_cons in Ht as [->|Ht]; [reflexivity|].
      apply list_elem_of_fmap in Ht as (i & -> & _). reflexivity. }
    split; [exact Hshared|].
    intros (t & Ht & Hret).
    destruct (Hthreads t (list_elem_of_lookup_2 _ _ _ Ht)); congruence.
Qed.

(** *** Without a graph *)

(** X8: [release_queue] hands the installed graph to the caller and leaves
    the interpreter without one: [init_tick] then returns false and changes
    nothing, a second [release_queue] and [reset_queue] with a null pointer
    return no graph, and [total_node_count], which is the graph's count
    while a graph is installed, dereferences the null pointer. *)
Theorem release_queue_leaves_no_graph w :
  let w' := set_interpreter (set_queue None (interpreter w)) w in
  release_queue w = Returns (queue (interpreter w), w') /\
  init_tick w' = Returns (false, w') /\
  release_queue w' = Returns (None, w') /\
  reset_queue None w' = Returns (None, w') /\
  interpreter_total_node_count w' = Undefined /\
  (forall q, queue (interpreter w) = Some q ->
     interpreter_total_node_count w = Returns (get_total_node_count q, w)).
Proof.
  cbn. repeat split.
  intros q Hq. unfold interpreter_total_node_count, get_interpreter, bind.
  rewrite Hq. reflexivity.
Qed.

End Lifecycle.

(** *** Instances *)

(** With 16 bits, a graph of 65535 nodes takes no further node; the fourth
    node completes the diamond. *)
Lemma add_queue_item_counts_witness :
  add_queue_item (H := narrow_platform) 7%positive
    (Queue 65535 [] (repeat 1%positive (Z.to_nat 65535))) = None /\
  add_queue_item (H := lp64_platform) 4%positive
    (Queue 3 [1%positive] [1%positive; 2%positive; 3%positive]) = Some diamond_queue.
Proof.
  split.
  - rewrite (add_queue_item_counts (H := narrow_platform)) by (vm_compute; reflexivity).
    vm_compute. reflexivity.
  - rewrite (add_queue_item_counts (H := lp64_platform)) by reflexivity.
    vm_compute. reflexivity.
Defined.

(** The single node at address 5 is destroyed beside the installed
    diamond. *)
Lemma destructor_keeps_other_graph_witness :
  exists w', destroy_dsp_thread_queue_ptr (Some single_queue) diamond_installed
             = Returns (tt, w') /\
    interpreter w' = interpreter diamond_installed /\
    (forall p, p ∈ queue_items single_queue -> heap w' !! p = None) /\
    well_formed (H := lp64_platform) (heap w') diamond_queue /\
    counters_reset (heap w') diamond_queue.
Proof.
  apply (destructor_keeps_other_graph (H := lp64_platform)).
  - apply NoDup_singleton.
  - intros p Hp. apply list_elem_of_singleton in Hp as ->. vm_compute. eauto.
  - intros p Hp. apply list_elem_of_singleton in Hp as ->.
    apply (bool_decide_unpack _). vm_compute. exact I.
  - exact diamond_well_formed.
  - exact diamond_counters_reset.
Defined.

(** A graph as its constructor leaves it, installed for two threads. *)
Lemma reset_queue_empty_graph_witness :
  exists w', reset_queue (H := lp64_platform) (Some new_dsp_thread_queue) diamond_world
             = Returns (None, w') /\
    queue (interpreter w') = Some new_dsp_thread_queue /\
    thread_count (interpreter w') = 2 /\
    used_helper_threads (interpreter w') = 255 /\
    init_tick w' = Returns (false, w').
Proof.
  apply (reset_queue_empty_graph (H := lp64_platform) diamond_world new_dsp_thread_queue).
  - reflexivity.
  - reflexivity.
  - vm_compute. discriminate.
Defined.

(** The diamond, once installed, is installed again. *)
Lemma reset_queue_again_fails_witness :
  reset_queue (H := lp64_platform) (Some diamond_queue) diamond_installed
  = AssertionFailed.
Proof.
  apply (reset_queue_again_fails (H := lp64_platform)).
  - reflexivity.
  - apply (wf_allocated _ _ diamond_well_formed).
  - exact diamond_counters_reset.
  - exists 4%positive. split.
    + apply (bool_decide_unpack _). vm_compute. exact I.
    + vm_compute. discriminate.
Defined.

Lemma init_tick_twice_fails_witness :
  (init_tick ;;; init_tick) diamond_installed = AssertionFailed.
Proof.
  apply (init_tick_twice_fails diamond_installed diamond_queue).
  - reflexivity.
  - vm_compute. discriminate.
Defined.

(** The cycle of two nodes, with one helper. *)
Lemma tick_without_runnable_node_spins_witness :
  exists w1, init_tick cycle_world = Returns (true, w1) /\
    (forall fuel, tick_master (H := lp64_platform) fuel w1 = OutOfFuel) /\
    (forall fuel index, tick (H := lp64_platform) fuel index w1 = OutOfFuel) /\
    (forall helpers c, rtc (step (H := lp64_platform)) (start_tick w1 helpers) c ->
       shared c = w1 /\ ~ master_returned c).
Proof.
  apply (tick_without_runnable_node_spins (H := lp64_platform) cycle_world cycle_queue).
  - reflexivity.
  - vm_compute. discriminate.
  - reflexivity.
  - reflexivity.
  - reflexivity.
Defined.

(** ** The states of a tick *)

Section Interleavings.

Context `{Platform}.
Context {runnable : Type}.

Implicit Types (c : config runnable) (t : thread) (p s u v : ptr)
  (w : world runnable) (k : ptr -> nat) (log : list (ptr * Z)).

Section InTick.

Variable h0 : gmap ptr (dsp_thread_queue_item runnable).
Variable calls0 : list (ptr * Z).
Variable g : dsp_thread_queue.

Hypothesis Hwf : well_formed h0 g.

Local Abbreviation nodes := (queue_items g).
Local Abbreviation succs := (successors_of h0).
Local Abbreviation lim := (limit_of h0).
Local Abbreviation done := (edges_done (successors_of h0) (queue_items g)).
Local Abbreviation inv := (tick_invariant_at h0 calls0 g).

Ltac node_cases H :=
  unfold node_ok in H; destruct H as [H|[H|[H|H]]].

(** A step keeps the invariant, and the calls of the tick grow by the call
    of a worker at the call of its job. *)
Lemma invariant_step_log k log c i t :
  inv k log c -> threads c !! i = Some t -> can_step (pos t) = true ->
  exists k' log', inv k' log' (step_of i c) /\
    (log' = log \/
     exists p cn, pos t = AtJob p cn /\ log' = log ++ [(p, uint8_t (thread_index t))]).
Proof.
  intros Hinv Hi Hcan.
  destruct (pos t) eqn:Hpos; try discriminate.
  - exists k, log. split; [eapply step_AtLoop; eauto | by left].
  - exists k, log. split; [eapply step_AtDequeue; eauto | by left].
  - exists k, log. split; [eapply step_AtRun; eauto | by left].
  - eexists k, _. split; [eapply step_AtJob; eauto | right; eauto].
  - destruct rest as [|s rest].
    + exists k, log. split; [eapply step_AtUpdate_nil; eauto | by left].
    + eexists _, log. split; [eapply step_AtUpdate_cons; eauto | by left].
  - exists k, log. split; [eapply step_AtMark; eauto | by left].
  - exists k, log. split; [eapply step_AtResetAssert; eauto | by left].
  - exists k, log. split; [eapply step_AtResetStore; eauto | by left].
  - exists k, log. split; [eapply step_AtFetchSub; eauto | by left].
  - exists k, log. split; [eapply step_AtWait; eauto | by left].
  - exists k, log. split; [eapply step_AtFifoAssert; eauto | by left].
Qed.

(** The job of every predecessor of a node that has received all its
    decrements has been called. *)
Lemma decremented_predecessors k log c p u :
  inv k log c -> p ∈ nodes -> Z.of_nat (done k p) = lim p ->
  u ∈ nodes -> p ∈ succs u -> u ∈ map fst log.
Proof.
  intros Hinv Hp Hd Hu Hpu.
  apply occurrences_pos.
  destruct (occurrences u (map fst log)) eqn:HL; [|lia]. exfalso.
  pose proof (inv_nodes _ _ _ _ _ _ Hinv u Hu) as Hn.
  assert (Hk : k u = 0%nat) by (node_cases Hn; lia).
  assert (Hlt : (done k p < in_degree h0 nodes p)%nat).
  { apply (sum_list_with_lt _ _ _ u); [exact Hu | |].
    - rewrite Hk. cbn. by apply occurrences_pos.
    - intros x _. apply occurrences_take_le. }
  pose proof (wf_limit _ _ Hwf p Hp). lia.
Qed.

Lemma snoc_split {A} (l l1 l2 : list A) (x v : A) :
  l ++ [x] = l1 ++ v :: l2 ->
  (l1 = l /\ v = x /\ l2 = []) \/ (exists l2', l2 = l2' ++ [x] /\ l = l1 ++ v :: l2').
Proof.
  destruct l2 as [|y l2 _] using rev_ind.
  - intros Heq. apply app_inj_tail in Heq as [-> ->]. by left.
  - intros Heq. rewrite app_comm_cons, app_assoc in Heq.
    apply app_inj_tail in Heq as [-> ->]. right. eauto.
Qed.

Lemma predecessors_first_snoc k log c i t p cn :
  inv k log c -> threads c !! i = Some t -> pos t = AtJob p cn ->
  predecessors_first succs nodes (map fst log) ->
  predecessors_first succs nodes (map fst (log ++ [(p, uint8_t (thread_index t))])).
Proof.
  intros Hinv Hi Hpos Hord l1 v l2 u Heq Hu Hvu.
  rewrite map_app in Heq. cbn in Heq.
  apply snoc_split in Heq as [(-> & -> & _)|(l2' & _ & Heq)].
  - assert (Hheld : p ∈ holds (pos t)) by (rewrite Hpos; left).
    destruct (ready_node _ _ _ _ _ _ _ _ _ Hinv Hi Hheld) as (Hp & _ & _ & Hd & _).
    eapply decremented_predecessors; eauto.
  - eapply Hord; eauto.
Qed.

Lemma step_of_indices i c :
  map thread_index (threads (step_of i c)) = map thread_index (threads c).
Proof.
  unfold step_of. destruct (threads c !! i) as [t|] eqn:Hi; [|reflexivity].
  destruct (can_step (pos t)); [|reflexivity]. cbn [threads].
  rewrite list_fmap_insert.
  assert (Hidx : thread_index (thread_step t (shared c)).1 = thread_index t).
  { unfold thread_step. by destruct (next_position t (shared c)) as [[]| | |]. }
  rewrite Hidx. apply list_insert_id. by rewrite list_lookup_fmap, Hi.
Qed.

Lemma ordered_invariant_steps indices c c' :
  ordered_invariant h0 calls0 g indices c -> rtc step c c' ->
  ordered_invariant h0 calls0 g indices c'.
Proof.
  intros Hinv Hsteps. induction Hsteps as [|c c1 c2 Hstep _ IH]; [exact Hinv|].
  apply IH. destruct Hstep as [c i t Hi Hcan].
  destruct Hinv as (k & log & Hinv & Hord & Hidx & Hall).
  destruct (invariant_step_log _ _ _ _ _ Hinv Hi Hcan)
    as (k' & log' & Hinv' & [->|(p & cn & Hpos & ->)]).
  - exists k', log. by rewrite step_of_indices.
  - exists k', (log ++ [(p, uint8_t (thread_index t))]). split; [exact Hinv'|].
    split; [eapply predecessors_first_snoc; eauto|].
    split; [by rewrite step_of_indices|].
    apply Forall_app. split; [exact Hall|]. apply Forall_singleton. cbn.
    apply list_elem_of_fmap. exists (thread_index t). split; [reflexivity|].
    rewrite <- Hidx. apply list_elem_of_fmap. exists t. split; [reflexivity|].
    by eapply list_elem_of_lookup_2.
Qed.

(** *** After the end of the tick *)

(** Once [node_count] is 0, an action of a worker changes nothing that is
    shared. *)
Lemma step_at_end k log c i t :
  inv k log c -> node_count (interpreter (shared c)) = 0 ->
  threads c !! i = Some t -> can_step (pos t) = true ->
  shared (step_of i c) = shared c.
Proof.
  intros Hinv Hnc Hi Hcan.
  rewrite (step_of_eq _ _ _ Hi Hcan). cbn [shared].
  pose proof (fifo_empty_at_end _ _ _ Hwf _ _ _ Hinv Hnc) as Hf.
  assert (Hhold : holds (pos t) = []).
  { destruct (holds (pos t)) as [|x l] eqn:E; [done|]. exfalso.
    pose proof (held_count _ _ _ _ _ _ _ _ x Hinv Hi) as Hc. rewrite E in Hc.
    specialize (Hc ltac:(left)).
    pose proof (no_token_at_end _ _ _ Hwf _ _ _ x Hinv Hnc). lia. }
  assert (Hrun : runs (pos t) = []).
  { destruct (runs (pos t)) as [|x l] eqn:E; [done|]. exfalso.
    pose proof (run_count _ _ _ _ _ _ _ _ x Hinv Hi) as Hc. rewrite E in Hc.
    specialize (Hc ltac:(left)).
    pose proof (no_runner_at_end _ _ _ Hwf _ _ _ x Hinv Hnc). lia. }
  assert (Hfl : in_flight (pos t) = 0).
  { assert (Hpos : forall th : thread, th ∈ threads c -> 0 <= in_flight (pos th)).
    { intros th Hth. eapply in_flight_nonneg, (inv_threads _ _ _ _ _ _ Hinv), Hth. }
    pose proof (flights_lookup_le (threads c) i t Hpos Hi).
    pose proof (Hpos t (list_elem_of_lookup_2 _ _ _ Hi)).
    pose proof (inv_count _ _ _ _ _ _ Hinv).
    pose proof (log_length_le _ _ _ Hwf _ _ _ Hinv). lia. }
  clear Hinv. unfold thread_step, next_position.
  destruct (pos t) eqn:Hpos; try discriminate.
  - unfold bind, load_node_count, ret. reflexivity.
  - unfold bind, fifo_dequeue, ret. rewrite Hf. reflexivity.
  - cbn in Hfl. subst consumed.
    unfold bind, fetch_sub_node_count, assert, ret. rewrite Hnc. cbn.
    unfold node_count_t. rewrite Z.mod_0_l by (pose proof pow_fast16_pos; lia).
    rewrite <- Hnc. by destruct (shared c) as [hh [q tc uh f n] cl].
  - unfold bind, load_node_count, ret. reflexivity.
  - unfold bind, fifo_is_empty, assert, ret. rewrite Hf. reflexivity.
Qed.

Lemma frozen_steps c c' :
  tick_invariant h0 calls0 g c -> node_count (interpreter (shared c)) = 0 ->
  rtc step c c' -> shared c' = shared c.
Proof.
  intros Hinv Hnc Hsteps. revert Hinv Hnc.
  induction Hsteps as [|c c1 c2 Hstep _ IH]; intros Hinv Hnc; [reflexivity|].
  assert (Hinv1 : tick_invariant h0 calls0 g c1) by (eapply invariant_step; eauto).
  destruct Hstep as [c i t Hi Hcan]. destruct Hinv as (k & log & Hinv).
  pose proof (step_at_end _ _ _ _ _ Hinv Hnc Hi Hcan) as Hsame.
  rewrite IH, Hsame; [reflexivity | exact Hinv1 | by rewrite Hsame].
Qed.

(** *** Every worker comes to its end *)

Local Abbreviation size := (measure h0 calls0 g).

(** Until a worker has returned, the tick can be brought forward. *)
Lemma progress_of_worker c j t :
  tick_invariant h0 calls0 g c ->
  threads c !! j = Some t -> pos t <> Returned ->
  exists c', rtc step c c' /\ (size c' < size c)%nat.
Proof.
  intros Hinv Hj Hnot.
  assert (Hgo : forall i th, threads c !! i = Some th -> productive (shared c) (pos th) ->
                exists c', rtc step c c' /\ (size c' < size c)%nat).
  { intros i th Hi Hp. exists (step_of i c).
    destruct (measure_step_productive _ _ _ Hwf c i th Hinv Hi Hp) as [Hstep Hlt].
    split; [by apply rtc_once | exact Hlt]. }
  destruct (busy_or_idle (threads c)) as [(i & th & Hi & Hb)|Hidle].
  { apply (Hgo i th Hi). destruct (pos th); try discriminate; exact I. }
  destruct Hinv as (k & log & Hinv).
  pose proof (position_ok_at _ _ _ _ _ _ _ _ Hinv Hj) as Hok.
  assert (Hlt : (j < length (threads c))%nat) by (eapply lookup_lt_Some, Hj).
  assert (Htwo : forall l l',
            pos t = l -> can_step l = true -> (forall p cn, l <> AtJob p cn) ->
            step_of j c = Config (shared c) (<[j := set_pos l' t]> (threads c)) ->
            productive (shared c) l' ->
            exists c', rtc step c c' /\ (size c' < size c)%nat).
  { intros l l' Hpos Hcan Hjob Hstep Hprod.
    assert (Hstep1 : step c (step_of j c))
      by (eapply step_thread; eauto; by rewrite Hpos).
    assert (Hinv1 : tick_invariant h0 calls0 g (step_of j c))
      by (eapply invariant_step; eauto; exists k, log; exact Hinv).
    destruct (measure_step_plain h0 calls0 g c j t Hj) as [Hle _];
      [by rewrite Hpos | by rewrite Hpos |].
    rewrite Hstep in *.
    set (c1 := Config (shared c) (<[j := set_pos l' t]> (threads c))) in *.
    assert (H1 : threads c1 !! j = Some (set_pos l' t))
      by (cbn; by apply list_lookup_insert_eq).
    destruct (measure_step_productive _ _ _ Hwf c1 j _ Hinv1 H1 Hprod) as [Hstep2 Hlt2].
    exists (step_of j c1). split; [|lia].
    eapply rtc_l; [exact Hstep1|]. by apply rtc_once. }
  destruct (pos t) eqn:Hpos; try contradiction;
    try (apply (Hgo j t Hj); rewrite Hpos; cbn; auto; fail);
    try (pose proof (Hidle t (list_elem_of_lookup_2 _ _ _ Hj)) as Hb;
         rewrite Hpos in Hb; discriminate).
  - (* AtLoop *)
    destruct (decide (node_count (interpreter (shared c)) = 0)) as [Hnc|Hnc].
    { apply (Hgo j t Hj). rewrite Hpos. exact Hnc. }
    destruct (fifo (interpreter (shared c))) as [|x rest] eqn:Hfifo.
    { destruct (some_thread_busy _ _ _ Hwf _ _ _ Hinv Hnc Hfifo) as (i & th & Hi & Hb).
      rewrite (Hidle th (list_elem_of_lookup_2 _ _ _ Hi)) in Hb. discriminate. }
    apply (Htwo AtLoop AtDequeue); [reflexivity | reflexivity | discriminate | |].
    + by apply step_of_idle_loop.
    + cbn. rewrite Hfifo. discriminate.
  - (* AtDequeue *)
    destruct (fifo (interpreter (shared c))) as [|x rest] eqn:Hfifo.
    2: { apply (Hgo j t Hj). rewrite Hpos. cbn. rewrite Hfifo. discriminate. }
    destruct (decide (node_count (interpreter (shared c)) = 0)) as [Hnc|Hnc].
    2: { destruct (some_thread_busy _ _ _ Hwf _ _ _ Hinv Hnc Hfifo) as (i & th & Hi & Hb).
         rewrite (Hidle th (list_elem_of_lookup_2 _ _ _ Hi)) in Hb. discriminate. }
    apply (Htwo AtDequeue AtLoop); [reflexivity | reflexivity | discriminate | |].
    + by apply step_of_idle_dequeue.
    + exact Hnc.
Qed.

Lemma returned_or_not (ts : list thread) :
  (forall t, t ∈ ts -> pos t = Returned) \/
  (exists j t, ts !! j = Some t /\ pos t <> Returned).
Proof.
  induction ts as [|a ts IH].
  - left. intros t Ht. inversion Ht.
  - assert (Ha : pos a = Returned \/ pos a <> Returned)
      by (destruct (pos a); (left; reflexivity) || (right; discriminate)).
    destruct Ha as [Ha|Ha]; [|right; exists 0%nat, a; auto].
    destruct IH as [Hall|(j & t & Hj & Hnot)].
    + left. intros t Ht. apply elem_of_cons in Ht as [->|Ht]; auto.
    + right. exists (S j), t. auto.
Qed.

Lemma tick_can_finish c :
  tick_invariant h0 calls0 g c -> exists c', rtc step c c' /\ all_returned c'.
Proof.
  remember (size c) as n eqn:Hn. revert c Hn.
  induction n as [n IH] using lt_wf_ind. intros c Hn Hinv.
  destruct (returned_or_not (threads c)) as [Hall|(j & t & Hj & Hnot)].
  - exists c. split; [reflexivity | exact Hall].
  - destruct (progress_of_worker c j t Hinv Hj Hnot) as (c1 & Hsteps & Hlt).
    destruct (IH (size c1) ltac:(lia) c1 eq_refl) as (c2 & Hsteps2 & Hret).
    + eapply invariant_steps; eauto.
    + exists c2. split; [by etransitivity | exact Hret].
Qed.

End InTick.

(** *** What holds in every state of a tick *)

Ltac node_cases H :=
  unfold node_ok in H; destruct H as [H|[H|[H|H]]].

Lemma tick_state_invariant w0 g helpers c :
  tick_state w0 g helpers c ->
  ordered_invariant (heap w0) (calls w0) g (0 :: helpers) c.
Proof.
  intros (Hq & Hwf & Hreset & w1 & Hinit & Hsteps).
  eapply ordered_invariant_steps; eauto.
  exists (fun _ => 0%nat), []. split; [by eapply invariant_start|].
  split. { intros l1 v l2 u Heq. by destruct l1. }
  split; [|constructor].
  cbn. f_equal. rewrite map_map. apply map_id.
Qed.

Lemma tick_calls_log h0 calls0 g k log c :
  tick_invariant_at h0 calls0 g k log c -> tick_calls calls0 (shared c) = log.
Proof.
  intros Hinv. unfold tick_calls.
  by rewrite (inv_calls _ _ _ _ _ _ Hinv), drop_app_length.
Qed.

(** X9: in every state of a tick the counter of every node is between 0
    and its limit: no decrement wraps a counter around; and the limits and
    the successor lists are those of the start. *)
Theorem tick_counters_in_range w0 g helpers c p :
  tick_state w0 g helpers c ->
  p ∈ queue_items g ->
  0 <= count_of (heap (shared c)) p <= limit_of (heap w0) p /\
  limit_of (heap (shared c)) p = limit_of (heap w0) p /\
  successors_of (heap (shared c)) p = successors_of (heap w0) p.
Proof.
  intros Hstate Hp.
  destruct (tick_state_invariant _ _ _ _ Hstate) as (k & log & Hinv & _).
  split.
  - pose proof (inv_nodes _ _ _ _ _ _ Hinv p Hp) as Hn. node_cases Hn; lia.
  - destruct (inv_static _ _ _ _ _ _ Hinv p Hp) as (it & Hit & Hs & Hl).
    unfold limit_of at 1, successors_of at 1. rewrite Hit. auto.
Qed.

(** X10: in every state of a tick [node_count] is at most the number of
    nodes and at least the number of nodes whose job has not been called:
    it does not wrap around, and it does not reach 0 before the last job
    has been called. *)
Theorem tick_node_count_in_range w0 g helpers c :
  tick_state w0 g helpers c ->
  let called := Z.of_nat (length (tick_calls (calls w0) (shared c))) in
  called <= total_node_count g /\
  total_node_count g - called <= node_count (interpreter (shared c))
    <= total_node_count g.
Proof.
  intros Hstate called.
  destruct (tick_state_invariant _ _ _ _ Hstate) as (k & log & Hinv & _).
  destruct Hstate as (_ & Hwf & _).
  unfold called. rewrite (tick_calls_log _ _ _ _ _ _ Hinv).
  pose proof (log_length_le _ _ _ Hwf _ _ _ Hinv).
  pose proof (flights_inv_nonneg _ _ _ _ _ _ Hinv).
  pose proof (inv_count _ _ _ _ _ _ Hinv).
  pose proof (inv_count_le _ _ _ _ _ _ Hinv). lia.
Qed.

(** X11: in every state of a tick the FIFO holds nodes of the graph, each
    once, that are ready to run: the counter is 0, the job has not been
    called, and the job of every predecessor has been called.  With the
    jobs called they are at most as many as the graph has nodes. *)
Theorem tick_fifo_holds_ready_nodes w0 g helpers c :
  tick_state w0 g helpers c ->
  let f := fifo (interpreter (shared c)) in
  NoDup f /\
  Z.of_nat (length f) + Z.of_nat (length (tick_calls (calls w0) (shared c)))
    <= total_node_count g /\
  forall p, p ∈ f ->
    p ∈ queue_items g /\
    count_of (heap (shared c)) p = 0 /\
    invocations (calls w0) (shared c) p = 0%nat /\
    forall u, u ∈ queue_items g -> p ∈ successors_of (heap w0) u ->
      invocations (calls w0) (shared c) u = 1%nat.
Proof.
  intros Hstate f.
  destruct (tick_state_invariant _ _ _ _ Hstate) as (k & log & Hinv & _).
  destruct Hstate as (_ & Hwf & _).
  assert (Hsum : forall p,
            (occurrences p f + occurrences p (map fst log) <= 1)%nat /\
            (p ∈ f -> p ∈ queue_items g)).
  { intros p. destruct (decide (p ∈ queue_items g)) as [Hp|Hp].
    - split; [|auto].
      pose proof (inv_nodes _ _ _ _ _ _ Hinv p Hp) as Hn. unfold tokens in Hn.
      fold f in Hn. node_cases Hn; lia.
    - pose proof (inv_outside _ _ _ _ _ _ Hinv p Hp) as (HT & _ & HL).
      unfold tokens in HT. fold f in HT. split; [lia|].
      intros Hin. apply occurrences_pos in Hin. lia. }
  split; [|split].
  - apply occurrences_NoDup. intros p. destruct (Hsum p). lia.
  - rewrite (tick_calls_log _ _ _ _ _ _ Hinv), (wf_total _ _ Hwf).
    assert (Hsub : f ++ map fst log ⊆+ queue_items g).
    { apply NoDup_submseteq.
      - apply occurrences_NoDup. intros p. rewrite occurrences_app. by destruct (Hsum p).
      - intros p Hp. apply elem_of_app in Hp as [Hp|Hp].
        + by apply Hsum.
        + eapply log_of_nodes; eauto. }
    apply submseteq_length in Hsub. rewrite length_app, List.length_map in Hsub. lia.
  - intros p Hp. destruct (Hsum p) as [Hle Hnode]. specialize (Hnode Hp).
    apply occurrences_pos in Hp.
    pose proof (inv_nodes _ _ _ _ _ _ Hinv p Hnode) as Hn. unfold tokens in Hn.
    fold f in Hn. rewrite !(invocations_log _ _ _ _ _ _ _ Hinv).
    assert (Hready : count_of (heap (shared c)) p = 0 /\
              occurrences p (map fst log) = 0%nat /\
              Z.of_nat (edges_done (successors_of (heap w0)) (queue_items g) k p)
              = limit_of (heap w0) p) by (node_cases Hn; lia).
    destruct Hready as (Hc & HL & Hd).
    split; [exact Hnode|]. split; [exact Hc|]. split; [exact HL|].
    intros u Hu Hpu. rewrite (invocations_log _ _ _ _ _ _ _ Hinv).
    pose proof (decremented_predecessors _ _ _ Hwf _ _ _ _ _ Hinv Hnode Hd Hu Hpu) as Hin.
    apply occurrences_pos in Hin.
    pose proof (log_at_most_once _ _ _ _ _ _ u Hinv). lia.
Qed.

(** X12: the jobs are called in an order of the graph: in every state of a
    tick, when the job of a node is called, the job of each of its
    predecessors has been called before. *)
Theorem tick_respects_edges w0 g helpers c :
  tick_state w0 g helpers c ->
  predecessors_first (successors_of (heap w0)) (queue_items g)
    (map fst (tick_calls (calls w0) (shared c))).
Proof.
  intros Hstate.
  destruct (tick_state_invariant _ _ _ _ Hstate) as (k & log & Hinv & Hord & _).
  by rewrite (tick_calls_log _ _ _ _ _ _ Hinv).
Qed.

(** X13: every call of the tick is the call of the job of a node of the
    graph, with the index of one of the workers, converted to the 8 bits of
    the parameter of [run]. *)
Theorem tick_calls_carry_worker_index w0 g helpers c p i :
  tick_state w0 g helpers c ->
  (p, i) ∈ tick_calls (calls w0) (shared c) ->
  p ∈ queue_items g /\ i ∈ map uint8_t (0 :: helpers).
Proof.
  intros Hstate Hin.
  destruct (tick_state_invariant _ _ _ _ Hstate) as (k & log & Hinv & _ & _ & Hall).
  rewrite (tick_calls_log _ _ _ _ _ _ Hinv) in Hin. split.
  - eapply log_of_nodes; eauto.
    apply list_elem_of_fmap. exists (p, i). auto.
  - rewrite Forall_forall in Hall. apply (Hall (p, i) Hin).
Qed.

(** X14: once [tick_master] has returned, the workers that are still in
    their loops change nothing: no job is called, and no counter, the FIFO
    and [node_count] stay as they are. *)
Theorem tick_frozen_after_return w0 g helpers c c' :
  tick_state w0 g helpers c ->
  master_returned c ->
  rtc step c c' ->
  shared c' = shared c.
Proof.
  intros Hstate Hret Hsteps.
  destruct (tick_state_invariant _ _ _ _ Hstate) as (k & log & Hinv & _).
  destruct Hstate as (_ & Hwf & _).
  assert (Hinv' : tick_invariant (heap w0) (calls w0) g c) by (exists k, log; exact Hinv).
  eapply frozen_steps; eauto.
  by eapply master_returned_node_count.
Qed.

(** X15: from every state of a tick some interleaving brings every worker
    to return: the helpers come out of [tick] as the master comes out of
    [tick_master]. *)
Theorem tick_all_workers_return w0 g helpers c :
  tick_state w0 g helpers c ->
  exists c', rtc step c c' /\ all_returned c'.
Proof.
  intros Hstate.
  destruct (tick_state_invariant _ _ _ _ Hstate) as (k & log & Hinv & _).
  destruct Hstate as (_ & Hwf & _).
  eapply tick_can_finish; eauto. by exists k, log.
Qed.

(** X16: a tick can follow a tick.  Once [tick_master] has returned,
    [init_tick] returns true again, and what follows is a tick of the same
    graph, with any helpers; when its master has returned, the job of
    every node has been called twice since the start of the first tick. *)
Theorem tick_after_tick w0 g helpers c :
  tick_state w0 g helpers c ->
  master_returned c ->
  exists w1, init_tick (shared c) = Returns (true, w1) /\
    forall helpers' c', rtc step (start_tick w1 helpers') c' ->
      tick_state (shared c) g helpers' c' /\
      (master_returned c' ->
       forall p, invocations (calls w0) (shared c') p
                 = if decide (p ∈ queue_items g) then 2%nat else 0%nat).
Proof.
  intros Hstate Hret.
  destruct (tick_state_invariant _ _ _ _ Hstate) as (k & log & Hinv & _).
  destruct Hstate as (Hq & Hwf & Hreset & w1 & Hinit & Hsteps).
  assert (Hinv' : tick_invariant (heap w0) (calls w0) g c) by (exists k, log; exact Hinv).
  destruct (tick_leaves_ready _ _ _ Hwf c Hinv' Hret) as (Hq' & Hnc & Hf & Hwf' & Hreset').
  apply init_tick_true in Hinit as (q & Hq0 & Hne & _).
  assert (q = g) as -> by congruence.
  eexists. split.
  { rewrite (init_tick_nonempty _ g Hq' Hne), Hnc, Hf. reflexivity. }
  intros helpers' c' Hsteps'.
  assert (Hstate' : tick_state (shared c) g helpers' c').
  { split; [exact Hq'|]. split; [exact Hwf'|]. split; [exact Hreset'|].
    eexists. split; [|exact Hsteps'].
    rewrite (init_tick_nonempty _ g Hq' Hne), Hnc, Hf. reflexivity. }
  split; [exact Hstate'|]. intros Hret' p.
  destruct (tick_state_invariant _ _ _ _ Hstate') as (k' & log' & Hinv2 & _).
  assert (Hinv2' : tick_invariant (heap (shared c)) (calls (shared c)) g c')
    by (exists k', log'; exact Hinv2).
  pose proof (tick_exactly_once _ _ _ Hwf _ p Hinv' Hret) as Hone.
  pose proof (tick_exactly_once _ _ _ Hwf' _ p Hinv2' Hret') as Htwo.
  rewrite (invocations_log _ _ _ _ _ _ _ Hinv) in Hone.
  rewrite (invocations_log _ _ _ _ _ _ _ Hinv2) in Htwo.
  unfold invocations.
  rewrite (inv_calls _ _ _ _ _ _ Hinv2), (inv_calls _ _ _ _ _ _ Hinv).
  rewrite <- app_assoc, drop_app_length, map_app, occurrences_app, Hone, Htwo.
  by case_decide.
Qed.

End Interleavings.

(** *** The first tick of the diamond *)

Lemma diamond_tick_state s :
  tick_state (H := lp64_platform) diamond_installed diamond_queue [1]
    (schedule (H := lp64_platform) s (start_tick diamond_seeded [1])).
Proof.
  split; [reflexivity|]. split; [exact diamond_well_formed|].
  split; [exact diamond_counters_reset|].
  exists diamond_seeded. split; [vm_compute; reflexivity | apply schedule_steps].
Qed.

Lemma tick_counters_in_range_witness :
  0 <= count_of (heap (shared diamond_mid)) 4%positive
    <= limit_of (heap diamond_installed) 4%positive /\
  limit_of (heap (shared diamond_mid)) 4%positive
    = limit_of (heap diamond_installed) 4%positive /\
  successors_of (heap (shared diamond_mid)) 4%positive
    = successors_of (heap diamond_installed) 4%positive.
Proof.
  apply (tick_counters_in_range (H := lp64_platform) diamond_installed diamond_queue [1]).
  - apply diamond_tick_state.
  - apply (bool_decide_unpack _). vm_compute. exact I.
Defined.

Lemma tick_node_count_in_range_witness :
  let called := Z.of_nat (length (tick_calls (calls diamond_installed)
                                    (shared diamond_mid))) in
  called <= total_node_count diamond_queue /\
  total_node_count diamond_queue - called
    <= node_count (interpreter (shared diamond_mid))
    <= total_node_count diamond_queue.
Proof.
  apply (tick_node_count_in_range (H := lp64_platform)
           diamond_installed diamond_queue [1]).
  apply diamond_tick_state.
Defined.

Lemma tick_fifo_holds_ready_nodes_witness :
  fifo (interpreter (shared diamond_mid)) = [3%positive] /\
  count_of (heap (shared diamond_mid)) 3%positive = 0 /\
  invocations (calls diamond_installed) (shared diamond_mid) 3%positive = 0%nat /\
  invocations (calls diamond_installed) (shared diamond_mid) 1%positive = 1%nat.
Proof.
  destruct (tick_fifo_holds_ready_nodes (H := lp64_platform)
              diamond_installed diamond_queue [1] diamond_mid
              (diamond_tick_state _)) as (_ & _ & Hready).
  destruct (Hready 3%positive) as (_ & Hc & Hl & Hpred).
  { apply (bool_decide_unpack _). vm_compute. exact I. }
  split; [vm_compute; reflexivity|]. split; [exact Hc|]. split; [exact Hl|].
  apply Hpred; apply (bool_decide_unpack _); vm_compute; exact I.
Defined.

Lemma tick_respects_edges_witness :
  predecessors_first (successors_of (heap diamond_installed))
    (queue_items diamond_queue)
    (map fst (tick_calls (calls diamond_installed) (shared diamond_end))).
Proof.
  apply (tick_respects_edges (H := lp64_platform) diamond_installed diamond_queue [1]).
  apply diamond_tick_state.
Defined.

Lemma tick_calls_carry_worker_index_witness :
  3%positive ∈ queue_items diamond_queue /\ 1 ∈ map uint8_t [0; 1].
Proof.
  apply (tick_calls_carry_worker_index (H := lp64_platform)
           diamond_installed diamond_queue [1] diamond_end).
  - apply diamond_tick_state.
  - apply (bool_decide_unpack _). vm_compute. exact I.
Defined.

Lemma tick_frozen_after_return_witness :
  shared (step_of (H := lp64_platform) 1 diamond_master_end) = shared diamond_master_end.
Proof.
  apply (tick_frozen_after_return (H := lp64_platform)
           diamond_installed diamond_queue [1]).
  - apply diamond_tick_state.
  - exists (Thread true 0 Returned). split; vm_compute; reflexivity.
  - apply step_of_steps.
Defined.

Lemma tick_all_workers_return_witness :
  exists c', rtc (step (H := lp64_platform)) diamond_mid c' /\ all_returned c'.
Proof.
  apply (tick_all_workers_return (H := lp64_platform)
           diamond_installed diamond_queue [1]).
  apply diamond_tick_state.
Defined.

Lemma tick_after_tick_witness :
  exists w1, init_tick (shared diamond_end) = Returns (true, w1) /\
    forall helpers' c', rtc (step (H := lp64_platform)) (start_tick w1 helpers') c' ->
      tick_state (H := lp64_platform) (shared diamond_end) diamond_queue helpers' c' /\
      (master_returned c' ->
       forall p, invocations (calls diamond_installed) (shared c') p
                 = if decide (p ∈ queue_items diamond_queue) then 2%nat else 0%nat).
Proof.
  apply (tick_after_tick (H := lp64_platform) diamond_installed diamond_queue [1]).
  - apply diamond_tick_state.
  - exists (Thread true 0 Returned). split; vm_compute; reflexivity.
Defined.

(** ** The sequential tick returns

    With enough fuel [tick_master], run without helpers, returns: each of
    its actions is an action of the worker alone, which never fails, and
    the measure of the tick bounds the passes through its loops. *)

Section Terminates.

Context `{Platform}.
Context {runnable : Type}.

Implicit Types (w : world runnable) (m : bool) (i cn : Z) (p : ptr)
  (c : config runnable).

Ltac at_place :=
  unfold next_position; cbn [pos thread_index master];
  unfold after_run_item, bind, assert, ret; cbn [master].

(** *** An action that fails in a method fails the worker *)

Lemma alone_step_fails m i l w :
  can_step l = true ->
  next_position (Thread m i l) w = AssertionFailed \/
  next_position (Thread m i l) w = Undefined ->
  exists c', rtc step (Config w [Thread m i l]) c' /\ failed c'.
Proof.
  intros Hcan Hnext.
  exists (step_of 0 (Config w [Thread m i l])). split.
  - apply rtc_once. by eapply step_thread.
  - unfold step_of, thread_step. cbn [threads shared lookup list_lookup pos].
    rewrite Hcan. destruct Hnext as [-> | ->]; cbn.
    + exists (Thread m i Aborted). split; [left | by left].
    + exists (Thread m i Crashed). split; [left | by right].
Qed.

Lemma fails_after c c1 :
  rtc step c c1 ->
  (exists c', rtc step c1 c' /\ failed c') ->
  exists c', rtc step c c' /\ failed c'.
Proof. intros Hsteps (c' & Hsteps' & Hf). exists c'. split; [by etransitivity | exact Hf]. Qed.

Lemma fails_after_step m i l w l' w' :
  can_step l = true ->
  next_position (Thread m i l) w = Returns (l', w') ->
  (exists c', rtc step (Config w' [Thread m i l']) c' /\ failed c') ->
  exists c', rtc step (Config w [Thread m i l]) c' /\ failed c'.
Proof.
  intros Hcan Hnext. apply fails_after, rtc_once. by apply alone_step.
Qed.

Lemma update_remaining_total m i p cn n rest w :
  (exists w', update_remaining rest w = Returns (tt, w')) \/
  (exists c', rtc step (Config w [Thread m i (AtUpdate p cn rest (Some n))]) c' /\
              failed c').
Proof.
  revert w. induction rest as [|s rest IH]; intros w.
  { left. eexists. reflexivity. }
  destruct (heap w !! s) as [it|] eqn:Hs.
  2: { right. apply alone_step_fails; [reflexivity|]. right. at_place.
       unfold fetch_sub_activation_count. rewrite Hs. reflexivity. }
  set (w0 := set_heap (<[s := set_activation_count
                                (activation_limit_t (activation_count it - 1)) it]>
                         (heap w)) w).
  assert (Hfs : fetch_sub_activation_count s w = Returns (activation_count it, w0)).
  { unfold fetch_sub_activation_count. rewrite Hs. reflexivity. }
  destruct (0 <? activation_count it) eqn:Hpos.
  2: { right. apply alone_step_fails; [reflexivity|]. left. at_place.
       rewrite Hfs, Hpos. reflexivity. }
  destruct (activation_count it =? 1) eqn:Hone.
  - set (w1 := set_interpreter (set_fifo (fifo (interpreter w0) ++ [s]) (interpreter w0)) w0).
    destruct (IH w1) as [(w' & Hr)|Hfail].
    + left. exists w'. unfold update_remaining in *. cbn [foreach].
      unfold bind at 1, dec_ref_count, bind at 1. rewrite Hfs.
      unfold bind at 1, assert. rewrite Hpos, Hone. exact Hr.
    + right.
      apply (fails_after_step m i _ w (AtMark p cn rest (Some n) s) w0); [reflexivity| |].
      { at_place. rewrite Hfs, Hpos, Hone. reflexivity. }
      apply (fails_after_step m i _ w0 (AtUpdate p cn rest (Some n)) w1);
        [reflexivity | reflexivity | exact Hfail].
  - destruct (IH w0) as [(w' & Hr)|Hfail].
    + left. exists w'. unfold update_remaining in *. cbn [foreach].
      unfold bind at 1, dec_ref_count, bind at 1. rewrite Hfs.
      unfold bind at 1, assert. rewrite Hpos, Hone. exact Hr.
    + right.
      apply (fails_after_step m i _ w (AtUpdate p cn rest (Some n)) w0);
        [reflexivity | | exact Hfail].
      at_place. rewrite Hfs, Hpos, Hone. reflexivity.
Qed.

Lemma update_from_total m i p cn rest w :
  (exists next w', update_from rest w = Returns (next, w')) \/
  (exists c', rtc step (Config w [Thread m i (AtUpdate p cn rest None)]) c' /\
              failed c').
Proof.
  revert w. induction rest as [|s rest IH]; intros w.
  { left. do 2 eexists. reflexivity. }
  destruct (heap w !! s) as [it|] eqn:Hs.
  2: { right. apply alone_step_fails; [reflexivity|]. right. at_place.
       unfold fetch_sub_activation_count. rewrite Hs. reflexivity. }
  set (w0 := set_heap (<[s := set_activation_count
                                (activation_limit_t (activation_count it - 1)) it]>
                         (heap w)) w).
  assert (Hfs : fetch_sub_activation_count s w = Returns (activation_count it, w0)).
  { unfold fetch_sub_activation_count. rewrite Hs. reflexivity. }
  destruct (0 <? activation_count it) eqn:Hpos.
  2: { right. apply alone_step_fails; [reflexivity|]. left. at_place.
       rewrite Hfs, Hpos. reflexivity. }
  destruct (activation_count it =? 1) eqn:Hone.
  - destruct (update_remaining_total m i p cn s rest w0) as [(w' & Hr)|Hfail].
    + left. exists (Some s), w'. cbn [update_from].
      unfold bind at 1, dec_ref_count_ptr, bind at 1. rewrite Hfs.
      unfold bind at 1, assert. rewrite Hpos, Hone.
      unfold ret at 1, bind. rewrite Hr. reflexivity.
    + right.
      apply (fails_after_step m i _ w (AtUpdate p cn rest (Some s)) w0);
        [reflexivity | | exact Hfail].
      at_place. rewrite Hfs, Hpos, Hone. reflexivity.
  - destruct (IH w0) as [(next & w' & Hr)|Hfail].
    + left. exists next, w'. cbn [update_from].
      unfold bind at 1, dec_ref_count_ptr, bind at 1. rewrite Hfs.
      unfold bind at 1, assert. rewrite Hpos, Hone. exact Hr.
    + right.
      apply (fails_after_step m i _ w (AtUpdate p cn rest None) w0);
        [reflexivity | | exact Hfail].
      at_place. rewrite Hfs, Hpos, Hone. reflexivity.
Qed.

Lemma load_activation_count_eq p w it :
  heap w !! p = Some it ->
  load_activation_count p w = Returns (activation_count it, w).
Proof.
  intros Hp. unfold load_activation_count, bind, deref. rewrite Hp. reflexivity.
Qed.

Lemma load_activation_count_none p w :
  heap w !! p = None -> load_activation_count p w = Undefined.
Proof.
  intros Hp. unfold load_activation_count, bind, deref. rewrite Hp. reflexivity.
Qed.

Lemma run_total m i p cn w :
  (exists next w', run p (uint8_t i) w = Returns (next, w')) \/
  (exists c', rtc step (Config w [Thread m i (AtRun p cn)]) c' /\ failed c').
Proof.
  destruct (heap w !! p) as [it|] eqn:Hp.
  2: { right. apply alone_step_fails; [reflexivity|]. right. at_place.
       rewrite load_activation_count_none by exact Hp. reflexivity. }
  pose proof (load_activation_count_eq p w it Hp) as Hload.
  destruct (activation_count it =? 0) eqn:Hzero.
  2: { right. apply alone_step_fails; [reflexivity|]. left. at_place.
       rewrite Hload, Hzero. reflexivity. }
  assert (Hstep1 : step (Config w [Thread m i (AtRun p cn)])
                        (Config w [Thread m i (AtJob p cn)])).
  { apply alone_step; [reflexivity|]. at_place. rewrite Hload, Hzero. reflexivity. }
  remember (World (heap w) (interpreter w) (calls w ++ [(p, uint8_t i)])) as w2 eqn:Hw2.
  assert (Hp2 : heap w2 !! p = Some it) by (rewrite Hw2; exact Hp).
  assert (Hjob : call_job p (uint8_t i) w = Returns (tt, w2))
    by (rewrite Hw2; reflexivity).
  assert (Hstep2 : step (Config w [Thread m i (AtJob p cn)])
                        (Config w2 [Thread m i (AtUpdate p cn (successors it) None)])).
  { apply alone_step; [reflexivity|]. at_place. rewrite Hjob.
    unfold deref. rewrite Hp2. reflexivity. }
  assert (Hpre : rtc step (Config w [Thread m i (AtRun p cn)])
                          (Config w2 [Thread m i (AtUpdate p cn (successors it) None)])).
  { eapply rtc_l; [exact Hstep1|]. by apply rtc_once. }
  destruct (update_from_total m i p cn (successors it) w2) as [(next & w3 & Hfrom)|Hfail].
  2: { right. by eapply fails_after. }
  assert (Hpre2 : rtc step (Config w [Thread m i (AtRun p cn)])
                           (Config w3 [Thread m i (AtResetAssert p cn next)])).
  { etransitivity; [exact Hpre|].
    etransitivity; [apply alone_update_from, Hfrom|].
    apply rtc_once. by apply alone_step. }
  destruct (heap w3 !! p) as [it3|] eqn:Hp3.
  2: { right. eapply fails_after; [exact Hpre2|].
       apply alone_step_fails; [reflexivity|]. right. at_place.
       rewrite load_activation_count_none by exact Hp3. reflexivity. }
  pose proof (load_activation_count_eq p w3 it3 Hp3) as Hload3.
  destruct (activation_count it3 =? 0) eqn:Hzero3.
  2: { right. eapply fails_after; [exact Hpre2|].
       apply alone_step_fails; [reflexivity|]. left. at_place.
       rewrite Hload3, Hzero3. reflexivity. }
  left. exists next. eexists.
  unfold run. unfold bind at 1. rewrite Hload.
  unfold bind at 1, assert. rewrite Hzero.
  unfold bind at 1. rewrite Hjob.
  unfold bind at 1, update_dependencies, bind at 1, deref. rewrite Hp2, Hfrom.
  unfold bind. rewrite (reset_activation_count_eq _ _ _ Hp3), Hzero3. reflexivity.
Qed.

(** *** The measure bounds the loops *)

Section Bounded.

Variable h0 : gmap ptr (dsp_thread_queue_item runnable).
Variable calls0 : list (ptr * Z).
Variable g : dsp_thread_queue.

Hypothesis Hwf : well_formed h0 g.

Local Abbreviation Inv := (tick_invariant h0 calls0 g).
Local Abbreviation size := (measure h0 calls0 g).

Lemma size_step c c' : Inv c -> step c c' -> (size c' <= size c)%nat.
Proof.
  intros Hinv Hstep. destruct Hstep as [c j t Hj Hcan].
  assert (Hcase : (exists p cn, pos t = AtJob p cn) \/ (forall p cn, pos t <> AtJob p cn)).
  { destruct (pos t); try (right; discriminate). left; eauto. }
  destruct Hcase as [(p & cn & Hpos)|Hjob].
  - destruct Hinv as (k & log & Hinv).
    pose proof (measure_step_job h0 calls0 g Hwf k log c j t p cn Hinv Hj Hpos). lia.
  - by destruct (measure_step_plain h0 calls0 g c j t Hj Hcan Hjob).
Qed.

Lemma size_steps c c' : Inv c -> rtc step c c' -> (size c' <= size c)%nat.
Proof.
  intros Hinv Hsteps. induction Hsteps as [|c c1 c2 Hstep _ IH]; [lia|].
  pose proof (size_step _ _ Hinv Hstep).
  assert (size c2 <= size c1)%nat by (apply IH; eapply invariant_step; eauto). lia.
Qed.

Lemma never_fails c :
  Inv c -> ~ exists c', rtc step c c' /\ failed c'.
Proof.
  intros Hinv (c' & Hsteps & Hfail).
  eapply tick_never_fails; [|exact Hfail]. eapply invariant_steps; eauto.
Qed.

(** The steps of a worker alone that start with an action that brings the
    tick forward lower the measure. *)
Lemma alone_size m i l w c' :
  Inv (Config w [Thread m i l]) -> productive w l ->
  rtc step (Config w [Thread m i l]) c' ->
  c' = Config w [Thread m i l] \/ (size c' < size (Config w [Thread m i l]))%nat.
Proof.
  intros Hinv Hprod Hsteps.
  apply rtc_inv in Hsteps as [<-|(c1 & Hstep & Hsteps)]; [by left|]. right.
  assert (Hinv1 : Inv c1) by (eapply invariant_step; eauto).
  pose proof (size_steps _ _ Hinv1 Hsteps) as Hle.
  inversion Hstep as [c0 j t Hj Hcan Hc0 Hc1]. subst c0.
  destruct j as [|j]; [|by destruct j].
  injection Hj as <-.
  destruct (measure_step_productive h0 calls0 g Hwf _ 0%nat _ Hinv eq_refl Hprod)
    as [_ Hlt].
  rewrite Hc1 in Hlt. lia.
Qed.

(** [run] of a node in hand returns, and the tick has come forward. *)
Lemma run_ok m i p cn w :
  Inv (Config w [Thread m i (AtRun p cn)]) ->
  exists next w',
    run p (uint8_t i) w = Returns (next, w') /\
    let c' := Config w' [Thread m i (match next with
                                     | Some q => AtRun q (node_count_t (cn + 1))
                                     | None => AtFetchSub (node_count_t (cn + 1))
                                     end)] in
    Inv c' /\ (size c' < size (Config w [Thread m i (AtRun p cn)]))%nat.
Proof.
  intros Hinv.
  destruct (run_total m i p cn w) as [(next & w' & Hrun)|Hfail].
  2: { by apply never_fails in Hfail. }
  exists next, w'. split; [exact Hrun|]. intros c'.
  pose proof (alone_run m i p cn w next w' Hrun) as Hsteps. fold c' in Hsteps.
  split; [eapply invariant_steps; eauto|].
  destruct (alone_size _ _ _ _ _ Hinv I Hsteps) as [Heq|Hlt]; [|exact Hlt].
  exfalso. apply run_returns in Hrun as (it & _ & _ & _ & Hcalls).
  unfold c' in Heq. injection Heq as Hw _. rewrite Hw in Hcalls.
  apply (f_equal length) in Hcalls. rewrite length_app in Hcalls. cbn in Hcalls. lia.
Qed.

Lemma run_chain_ok m i n p cn w :
  Inv (Config w [Thread m i (AtRun p cn)]) ->
  (size (Config w [Thread m i (AtRun p cn)]) < n)%nat ->
  exists consumed w',
    run_chain n p i cn w = Returns (consumed, w') /\
    Inv (Config w' [Thread m i (AtFetchSub consumed)]) /\
    (size (Config w' [Thread m i (AtFetchSub consumed)])
     < size (Config w [Thread m i (AtRun p cn)]))%nat.
Proof.
  revert p cn w. induction n as [|n IH]; intros p cn w Hinv Hlt; [lia|].
  destruct (run_ok m i p cn w Hinv) as (next & w1 & Hrun & Hinv1 & Hlt1).
  cbn [run_chain]. unfold bind. rewrite Hrun.
  destruct next as [q|].
  - destruct (IH q (node_count_t (cn + 1)) w1 Hinv1 ltac:(lia))
      as (consumed & w' & Hchain & Hinv' & Hlt').
    exists consumed, w'. split; [exact Hchain|]. split; [exact Hinv'|]. lia.
  - exists (node_count_t (cn + 1)), w1. split; [reflexivity|]. split; [exact Hinv1|]. lia.
Qed.

Lemma run_item_ok m i n w :
  Inv (Config w [Thread m i AtLoop]) ->
  (size (Config w [Thread m i AtLoop]) < n)%nat ->
  exists w', run_item n i w = Returns (tt, w').
Proof.
  revert w. induction n as [|n IH]; intros w Hinv Hlt; [lia|].
  cbn [run_item]. unfold bind at 1, load_node_count.
  destruct (node_count (interpreter w) =? 0) eqn:Hn; [by exists w|].
  assert (HstepA : step (Config w [Thread m i AtLoop]) (Config w [Thread m i AtDequeue])).
  { apply alone_step; [reflexivity|]. at_place. unfold load_node_count.
    rewrite Hn. reflexivity. }
  assert (HinvA : Inv (Config w [Thread m i AtDequeue]))
    by (eapply invariant_step; eauto).
  pose proof (size_step _ _ Hinv HstepA) as HsizeA.
  destruct (fifo (interpreter w)) as [|p rest] eqn:Hf.
  { exfalso. destruct Hinv as (k & log & Hinv). apply Z.eqb_neq in Hn.
    destruct (some_thread_busy h0 calls0 g Hwf k log _ Hinv Hn Hf) as (j & t & Hj & Hb).
    destruct j as [|j]; [|by destruct j]. injection Hj as <-. discriminate. }
  set (w1 := set_interpreter (set_fifo rest (interpreter w)) w).
  assert (Hdeq : fifo_dequeue w = Returns (Some p, w1))
    by (unfold fifo_dequeue; rewrite Hf; reflexivity).
  assert (HstepB : step_of 0 (Config w [Thread m i AtDequeue])
                   = Config w1 [Thread m i (AtRun p 0)]).
  { apply (step_of_returns (Config w [Thread m i AtDequeue]) 0 (Thread m i AtDequeue));
      [reflexivity | reflexivity |].
    cbn [shared]. at_place. rewrite Hdeq. reflexivity. }
  destruct (measure_step_productive h0 calls0 g Hwf _ 0%nat _ HinvA eq_refl)
    as [HstepB' HsizeB].
  { cbn. rewrite Hf. discriminate. }
  rewrite HstepB in HstepB', HsizeB.
  assert (HinvB : Inv (Config w1 [Thread m i (AtRun p 0)]))
    by (eapply invariant_step; eauto).
  destruct (run_chain_ok m i (S n) p 0 w1 HinvB ltac:(lia))
    as (consumed & w2 & Hchain & HinvC & HsizeC).
  set (w3 := set_interpreter
               (set_node_count (node_count_t (node_count (interpreter w2) - consumed))
                  (interpreter w2)) w2).
  assert (Hsub : fetch_sub_node_count consumed w2
                 = Returns (node_count (interpreter w2), w3)) by reflexivity.
  destruct (consumed <=? node_count (interpreter w2)) eqn:Hle.
  2: { exfalso. apply (never_fails _ HinvC).
       apply alone_step_fails; [reflexivity|]. left. at_place.
       rewrite Hsub, Hle. reflexivity. }
  unfold bind at 1, run_next_item, bind at 1. rewrite Hdeq.
  unfold bind at 1. rewrite Hchain.
  unfold bind at 1. rewrite Hsub.
  unfold bind at 1, assert. rewrite Hle.
  destruct (node_count (interpreter w2) =? consumed) eqn:Heq; [by exists w3|].
  apply IH.
  - eapply invariant_step; [exact Hwf | exact HinvC |].
    apply alone_step; [reflexivity|]. at_place. rewrite Hsub, Hle, Heq.
    reflexivity.
  - assert (HstepD : step (Config w2 [Thread m i (AtFetchSub consumed)])
                          (Config w3 [Thread m i AtLoop])).
    { apply alone_step; [reflexivity|]. at_place. rewrite Hsub, Hle, Heq.
      reflexivity. }
    pose proof (size_step _ _ HinvC HstepD). lia.
Qed.

Lemma tick_master_ok n w :
  Inv (start_tick w []) ->
  (size (start_tick w []) < n)%nat ->
  exists w', tick_master n w = Returns (tt, w').
Proof.
  intros Hinv Hlt.
  destruct (run_item_ok true 0 n w Hinv Hlt) as (w1 & Hrun).
  pose proof (alone_run_item n true 0 w w1 Hrun) as Hsteps.
  pose proof (invariant_steps h0 calls0 g Hwf _ _ Hinv Hsteps) as (k & log & Hinv1).
  pose proof (position_ok_at h0 calls0 g k log _ 0%nat _ Hinv1 eq_refl) as Hnc.
  cbn in Hnc.
  pose proof (fifo_empty_at_end h0 calls0 g Hwf k log _ Hinv1 Hnc) as Hf. cbn in Hf.
  exists w1. unfold tick_master, run_item_master. unfold bind at 1. rewrite Hrun.
  destruct n as [|n]; [lia|]. cbn [wait_for_end].
  unfold bind, load_node_count, fifo_is_empty, assert, ret. rewrite Hnc. cbn.
  rewrite Hf. reflexivity.
Qed.

End Bounded.

(** X17: [tick_master] alone, without helpers, returns when it has enough
    fuel: on a graph of the data model, installed with its counters reset,
    after [init_tick] has returned true, no assertion fails and no loop
    spins; it has then called the job of every node exactly once, and
    leaves [node_count] 0, the FIFO empty and the counters reset. *)
Theorem tick_master_returns (w0 w1 : world runnable) (g : dsp_thread_queue) :
  queue (interpreter w0) = Some g ->
  well_formed (heap w0) g ->
  counters_reset (heap w0) g ->
  init_tick w0 = Returns (true, w1) ->
  exists n, forall fuel, (n <= fuel)%nat ->
    exists w2, tick_master fuel w1 = Returns (tt, w2) /\
      (forall p, invocations (calls w0) w2 p
                 = if decide (p ∈ queue_items g) then 1%nat else 0%nat) /\
      node_count (interpreter w2) = 0 /\
      fifo (interpreter w2) = [] /\
      counters_reset (heap w2) g.
Proof.
  intros Hq Hwf Hreset Hinit.
  exists (S (measure (heap w0) (calls w0) g (start_tick w1 []))). intros fuel Hfuel.
  assert (Hinv : tick_invariant (heap w0) (calls w0) g (start_tick w1 [])).
  { exists (fun _ => 0%nat), []. by eapply invariant_start. }
  destruct (tick_master_ok _ _ _ Hwf fuel w1 Hinv ltac:(lia)) as (w2 & Htick).
  exists w2. split; [exact Htick|].
  pose proof (alone_tick_master _ _ _ Htick) as Hsteps.
  pose proof (invariant_steps _ _ _ Hwf _ _ Hinv Hsteps) as Hinv2.
  assert (Hret : master_returned (Config w2 [Thread true 0 Returned]))
    by (by exists (Thread true 0 Returned)).
  split; [intros p; apply (tick_exactly_once _ _ _ Hwf _ p Hinv2 Hret)|].
  destruct (tick_leaves_ready _ _ _ Hwf _ Hinv2 Hret) as (_ & Hnc & Hf & _ & Hr).
  auto.
Qed.

End Terminates.

(** The diamond, run by the master without helpers. *)
Lemma tick_master_returns_witness :
  exists n, forall fuel, (n <= fuel)%nat ->
    exists w2, tick_master (H := lp64_platform) fuel diamond_seeded = Returns (tt, w2) /\
      (forall p, invocations (calls diamond_installed) w2 p
                 = if decide (p ∈ queue_items diamond_queue) then 1%nat else 0%nat) /\
      node_count (interpreter w2) = 0 /\
      fifo (interpreter w2) = [] /\
      counters_reset (heap w2) diamond_queue.
Proof.
  apply (tick_master_returns (H := lp64_platform) diamond_installed diamond_seeded
           diamond_queue).
  - reflexivity.
  - exact diamond_well_formed.
  - exact diamond_counters_reset.
  - vm_compute. reflexivity.
Defined.

(** *** The diamond installed and run *)

Lemma diamond_world_well_formed :
  well_formed (H := lp64_platform) (heap diamond_world) diamond_queue.
Proof.
  apply (well_formed_static (H := lp64_platform) (heap diamond_installed)
           diamond_queue diamond_well_formed).
  intros p Hp. cbn in Hp.
  repeat (apply elem_of_cons in Hp as [->|Hp]);
    try (eexists; split; [reflexivity|]; split; reflexivity).
  inversion Hp.
Qed.

Lemma reset_queue_prepares_tick_witness :
  exists w1,
    reset_queue (H := lp64_platform) (Some diamond_queue) diamond_world
    = Returns (queue (interpreter diamond_world), w1) /\
    queue (interpreter w1) = Some diamond_queue /\
    fifo (interpreter w1) = fifo (interpreter diamond_world) /\
    node_count (interpreter w1) = node_count (interpreter diamond_world) /\
    calls w1 = calls diamond_world /\
    well_formed (H := lp64_platform) (heap w1) diamond_queue /\
    counters_reset (heap w1) diamond_queue.
Proof.
  apply (reset_queue_prepares_tick (H := lp64_platform) diamond_world diamond_queue).
  - exact diamond_freshly_built.
  - exact diamond_world_well_formed.
Defined.

Lemma tick_master_alone_once_witness :
  invocations (calls diamond_installed)
    (world_after (tick_master (H := lp64_platform) 4) diamond_seeded) 3%positive
  = if decide (3%positive ∈ queue_items diamond_queue) then 1%nat else 0%nat.
Proof.
  apply (tick_master_alone_once (H := lp64_platform) 4 diamond_installed diamond_seeded).
  - reflexivity.
  - exact diamond_well_formed.
  - exact diamond_counters_reset.
  - vm_compute. reflexivity.
  - vm_compute. reflexivity.
Defined.

(** ** The decrements of [run], counter by counter *)

Section Decrements.

Context `{Platform}.
Context {runnable : Type}.

Implicit Types (w : world runnable) (p s this : ptr)
  (it its : dsp_thread_queue_item runnable) (seen rest : list ptr).

Lemma decremented_refl (h0 : gmap ptr (dsp_thread_queue_item runnable)) :
  decremented h0 h0 [].
Proof.
  intros p. destruct (h0 !! p) as [it|]; [|reflexivity]. cbn.
  rewrite Z.sub_0_r. by destruct it.
Qed.

(** One fetch-and-subtract on a counter that is positive. *)
Lemma fetch_sub_decremented (h0 : gmap ptr (dsp_thread_queue_item runnable)) w seen s its :
  decremented h0 (heap w) seen ->
  h0 !! s = Some its ->
  Z.of_nat (occurrences s seen) < activation_count its < 2 ^ fast16_bits ->
  exists w2,
    fetch_sub_activation_count s w
    = Returns (activation_count its - Z.of_nat (occurrences s seen), w2) /\
    interpreter w2 = interpreter w /\ calls w2 = calls w /\
    decremented h0 (heap w2) (seen ++ [s]).
Proof.
  intros Hdec Hs Hrange.
  pose proof (Hdec s) as Hw. rewrite Hs in Hw. cbn in Hw.
  eexists. split; [|split; [|split]].
  - unfold fetch_sub_activation_count. rewrite Hw. reflexivity.
  - reflexivity.
  - reflexivity.
  - intros p. cbn. rewrite occurrences_app. cbn.
    destruct (decide (p = s)) as [->|Hne].
    + rewrite lookup_insert_eq, Hs, (decide_True (P := s = s)) by reflexivity. cbn.
      rewrite activation_limit_t_small by lia.
      unfold set_activation_count. cbn. do 2 f_equal. lia.
    + rewrite lookup_insert_ne by done. rewrite Hdec.
      rewrite (decide_False (P := s = p)) by done. by rewrite !Nat.add_0_r.
Qed.

(** Successors that are allocated and whose counters are at least the
    number of their decrements are decremented, one after the other. *)
Lemma decrement_successors_returns rest : forall seen w (h0 : gmap ptr (dsp_thread_queue_item runnable)),
  decremented h0 (heap w) seen ->
  (forall s, s ∈ rest ->
     exists its, h0 !! s = Some its /\
       Z.of_nat (occurrences s (seen ++ rest)) <= activation_count its
         < 2 ^ fast16_bits) ->
  exists w1,
    decrement_successors rest w
    = Returns (newly_ready_from (count_of h0) seen rest, w1) /\
    interpreter w1 = interpreter w /\ calls w1 = calls w /\
    decremented h0 (heap w1) (seen ++ rest).
Proof.
  induction rest as [|s rest IH]; intros seen w h0 Hdec Hpre.
  { exists w. rewrite app_nil_r. auto. }
  destruct (Hpre s) as (its & Hs & Hle); [left|].
  rewrite occurrences_app in Hle. cbn in Hle.
  rewrite (decide_True (P := s = s)) in Hle by reflexivity.
  destruct (fetch_sub_decremented h0 w seen s its Hdec Hs ltac:(lia))
    as (w2 & Hfs & Hi2 & Hc2 & Hdec2).
  destruct (IH (seen ++ [s]) w2 h0 Hdec2) as (w1 & Hrest & Hi1 & Hc1 & Hdec1).
  { intros s' Hs'. rewrite <- app_assoc. apply Hpre. by right. }
  rewrite <- app_assoc in Hdec1.
  exists w1. split; [|split; [congruence|split; [congruence|exact Hdec1]]].
  cbn [decrement_successors newly_ready_from]. unfold bind at 1. rewrite Hfs.
  unfold bind at 1, assert.
  replace (0 <? activation_count its - Z.of_nat (occurrences s seen)) with true
    by (symmetry; apply Z.ltb_lt; lia).
  unfold bind. rewrite Hrest. unfold ret, count_of. rewrite Hs.
  destruct (Z.eqb_spec (activation_count its - Z.of_nat (occurrences s seen)) 1),
           (Z.eqb_spec (activation_count its) (Z.of_nat (S (occurrences s seen))));
    try reflexivity; lia.
Qed.

(** Decrements that return have found their successors allocated and
    their counters positive. *)
Lemma decrement_successors_admissible rest : forall seen w (h0 : gmap ptr (dsp_thread_queue_item runnable)) r w1,
  decremented h0 (heap w) seen ->
  (forall s its, s ∈ rest -> h0 !! s = Some its ->
     0 <= activation_count its < 2 ^ fast16_bits) ->
  decrement_successors rest w = Returns (r, w1) ->
  forall s, s ∈ rest ->
    exists its, h0 !! s = Some its /\
      Z.of_nat (occurrences s (seen ++ rest)) <= activation_count its.
Proof.
  induction rest as [|s rest IH]; intros seen w h0 r w1 Hdec Hrange Hr x Hx.
  { inversion Hx. }
  cbn [decrement_successors] in Hr.
  apply bind_returns in Hr as (prev & w2 & Hfs & Hr).
  apply bind_returns in Hr as ([] & w2' & Ha & Hr).
  apply assert_returns in Ha as [Hpos ->]. apply Z.ltb_lt in Hpos.
  apply bind_returns in Hr as (r' & w3 & Hrest & _).
  pose proof (Hdec s) as Hw.
  destruct (h0 !! s) as [its|] eqn:Hs.
  2: { unfold fetch_sub_activation_count in Hfs. rewrite Hw in Hfs. discriminate. }
  cbn in Hw.
  assert (Hprev : prev = activation_count its - Z.of_nat (occurrences s seen)).
  { unfold fetch_sub_activation_count in Hfs. rewrite Hw in Hfs. by injection Hfs. }
  pose proof (Hrange s its ltac:(left) Hs) as Hr16.
  destruct (fetch_sub_decremented h0 w seen s its Hdec Hs ltac:(lia))
    as (w2' & Hfs' & _ & _ & Hdec2).
  assert (w2' = w2) as -> by congruence.
  assert (IH' := IH (seen ++ [s]) w2 h0 r' w3 Hdec2
                   ltac:(intros s' its' Hs'; apply Hrange; by right) Hrest).
  destruct (decide (x ∈ rest)) as [Hin|Hnin].
  - destruct (IH' x Hin) as (itx & Hitx & Hle). rewrite <- app_assoc in Hle. eauto.
  - apply elem_of_cons in Hx as [->|Hx]; [|contradiction].
    exists its. split; [exact Hs|].
    rewrite occurrences_app. cbn. rewrite (decide_True (P := s = s)) by reflexivity.
    apply occurrences_zero in Hnin. rewrite Hnin. lia.
Qed.

(** [run] up to its decrements. *)
Lemma run_prefix this thread_index w it :
  heap w !! this = Some it ->
  run this thread_index w =
    if activation_count it =? 0 then
      (ready <- decrement_successors (successors it) ;;
       match ready with
       | [] => reset_activation_count this ;;; ret None
       | first :: further =>
           foreach further mark_as_runnable ;;;
           reset_activation_count this ;;;
           ret (Some first)
       end) (World (heap w) (interpreter w) (calls w ++ [(this, thread_index)]))
    else AssertionFailed.
Proof.
  intros Hit. rewrite run_eq. unfold run_as_specified.
  unfold bind at 1, load_activation_count, bind at 1, deref. rewrite Hit.
  unfold ret at 1, bind at 1, assert.
  destruct (activation_count it =? 0); [|reflexivity].
  unfold bind at 1, call_job. unfold bind at 1, deref. cbn [heap]. rewrite Hit.
  reflexivity.
Qed.

(** C4: a node [this] with its successors [succs], whose counters are
    within their type.  [run] returns exactly when it is admissible: the
    counter of [this] is 0 and every successor is allocated with a counter
    that is at least the number of its entries in [succs].  It then has
    called the job once, has lowered the counter of every successor by one
    for each of its entries in [succs], and has left every other counter
    alone (its own it has reset to the limit); of the successors whose
    counter reached zero, in the order of [succs], it returns the first
    and has appended each further one to the FIFO; it returns none when
    there is no such successor. *)
Theorem run_decrements_successors this thread_index w it :
  heap w !! this = Some it ->
  (forall s its, s ∈ successors it -> heap w !! s = Some its ->
     0 <= activation_count its < 2 ^ fast16_bits) ->
  let succs := successors it in
  let ready := newly_ready (count_of (heap w)) succs in
  let admissible :=
    activation_count it = 0 /\
    forall s, s ∈ succs ->
      is_Some (heap w !! s) /\
      Z.of_nat (occurrences s succs) <= count_of (heap w) s in
  (admissible ->
   exists w', run this thread_index w = Returns (head ready, w') /\
     calls w' = calls w ++ [(this, thread_index)] /\
     interpreter w' = set_fifo (fifo (interpreter w) ++ tail ready) (interpreter w) /\
     forall p, heap w' !! p =
       (fun itp => set_activation_count
          (if decide (p = this) then activation_limit itp
           else activation_count itp - Z.of_nat (occurrences p succs)) itp)
       <$> heap w !! p) /\
  (forall next w', run this thread_index w = Returns (next, w') -> admissible).
Proof.
  intros Hit Hrange succs ready admissible.
  set (w3 := World (heap w) (interpreter w) (calls w ++ [(this, thread_index)])).
  pose proof (run_prefix this thread_index w it Hit) as Hrun. fold w3 succs in Hrun.
  assert (Hdec3 : decremented (heap w) (heap w3) []) by apply decremented_refl.
  split.
  - intros [Hzero Hsuccs].
    destruct (decrement_successors_returns succs [] w3 (heap w) Hdec3)
      as (w5 & Hdecs & Hi5 & Hc5 & Hdec5).
    { intros s Hs. destruct (Hsuccs s Hs) as [[its Hits] Hle].
      exists its. split; [exact Hits|].
      unfold count_of in Hle. rewrite Hits in Hle.
      pose proof (Hrange s its Hs Hits). cbn. lia. }
    cbn [app] in Hdec5. fold (newly_ready (count_of (heap w)) succs) in Hdecs.
    fold ready in Hdecs.
    assert (Hthis : occurrences this succs = 0%nat).
    { destruct (decide (this ∈ succs)) as [Hin|Hnin]; [|by apply occurrences_zero].
      destruct (Hsuccs this Hin) as [_ Hle]. unfold count_of in Hle.
      rewrite Hit in Hle. lia. }
    assert (Hit5 : heap w5 !! this = Some (set_activation_count 0 it)).
    { rewrite Hdec5, Hit. cbn. rewrite Hthis, Hzero. reflexivity. }
    assert (Hreset : forall f,
              reset_activation_count this
                (set_interpreter (set_fifo f (interpreter w5)) w5)
              = Returns (tt, World
                               (<[this := set_activation_count (activation_limit it) it]>
                                  (heap w5))
                               (set_fifo f (interpreter w5)) (calls w5))).
    { intros f. rewrite (reset_activation_count_eq _ _ (set_activation_count 0 it))
        by exact Hit5. reflexivity. }
    assert (Hheap : forall p,
              <[this := set_activation_count (activation_limit it) it]> (heap w5) !! p
              = (fun itp => set_activation_count
                   (if decide (p = this) then activation_limit itp
                    else activation_count itp - Z.of_nat (occurrences p succs)) itp)
                <$> heap w !! p).
    { intros p. destruct (decide (p = this)) as [->|Hne].
      - rewrite lookup_insert_eq, Hit. reflexivity.
      - rewrite lookup_insert_ne by done. apply Hdec5. }
    rewrite Hrun, Hzero. cbn [Z.eqb]. unfold bind at 1. rewrite Hdecs.
    destruct ready as [|first further].
    + exists (set_heap (<[this := set_activation_count (activation_limit it) it]>
                          (heap w5)) w5).
      split.
      { unfold bind. cbn [head].
        rewrite (reset_activation_count_eq _ _ (set_activation_count 0 it)) by exact Hit5.
        reflexivity. }
      cbn [set_heap calls interpreter heap tail]. rewrite app_nil_r, Hc5, Hi5.
      split; [reflexivity|]. split; [|exact Hheap].
      cbn. by destruct (interpreter w).
    + exists (World (<[this := set_activation_count (activation_limit it) it]> (heap w5))
                (set_fifo (fifo (interpreter w5) ++ further) (interpreter w5)) (calls w5)).
      split.
      { unfold bind at 1. rewrite foreach_mark_as_runnable.
        unfold bind. rewrite Hreset. reflexivity. }
      cbn [calls interpreter heap tail]. rewrite Hc5, Hi5.
      split; [reflexivity|]. split; [reflexivity | exact Hheap].
  - intros next w' Hr. rewrite Hrun in Hr.
    destruct (Z.eqb_spec (activation_count it) 0) as [Hzero|]; [|discriminate].
    split; [exact Hzero|].
    apply bind_returns in Hr as (r & w5 & Hdecs & _).
    intros s Hs.
    destruct (decrement_successors_admissible succs [] w3 (heap w) r w5 Hdec3
                Hrange Hdecs s Hs) as (its & Hits & Hle).
    split; [by eexists|]. unfold count_of. rewrite Hits. exact Hle.
Qed.

End Decrements.

(** The master runs A of the diamond: B and C reach zero, B is returned
    and C is appended to the FIFO; D is not a successor of A and keeps its
    counter. *)
Lemma run_decrements_successors_witness :
  let w := world_after fifo_dequeue diamond_seeded in
  fifo (interpreter w) = [] /\
  count_of (heap w) 2%positive = 1 /\ count_of (heap w) 3%positive = 1 /\
  exists w', run (H := lp64_platform) 1%positive 0 w = Returns (Some 2%positive, w') /\
    calls w' = [(1%positive, 0)] /\
    fifo (interpreter w') = [3%positive] /\
    count_of (heap w') 2%positive = 0 /\
    count_of (heap w') 3%positive = 0 /\
    count_of (heap w') 4%positive = 2.
Proof.
  intros w. do 3 (split; [reflexivity|]).
  destruct (run_decrements_successors (H := lp64_platform) 1%positive 0 w
              (Item 0 tt [2%positive; 3%positive] 0)) as [Hrun _].
  - reflexivity.
  - intros s its Hs Hits. cbn in Hs.
    repeat (apply elem_of_cons in Hs as [->|Hs]);
      [vm_compute in Hits; injection Hits as <-; vm_compute; split; [discriminate | reflexivity] ..|].
    inversion Hs.
  - destruct Hrun as (w' & Hrun & Hcalls & Hint & Hheap).
    { split; [reflexivity|]. intros s Hs. cbn in Hs.
      repeat (apply elem_of_cons in Hs as [->|Hs]);
        [split; [vm_compute; eauto | vm_compute; discriminate] ..|].
      inversion Hs. }
    exists w'. split; [exact Hrun|]. split; [exact Hcalls|].
    split; [rewrite Hint; reflexivity|].
    unfold count_of. rewrite !Hheap. repeat split.
Defined.
